(** * SDL mini engine and scene editor: the entity store, the simulation
    step and the viewport mapping

    Shallow embedding of [sdl_game_engine.cpp] (the engine and its demo
    game) and [sdl_game_engine_2.cpp] (the ImGui scene editor, struct
    [Editor2] and its [main] loop; the struct [Editor] that the file
    declares first and then replaces by [Editor2] is left out).

    Conventions of the embedding:
    - a C++ [float] is an exact rational ([Q]); rounding, NaN and the
      infinities are outside the model, except that a division whose
      divisor is zero is made visible by [fdiv];
    - a C++ [int] is a [Z]; signed overflow (undefined in C++) is not
      modelled; [unsigned int] wraps modulo 2^32;
    - [rand()] is an explicit generator state threaded through the code;
    - an [unordered_map] is the list of its values in iteration order;
      where a new node lands in that order is a parameter ([slot]);
    - a [shared_ptr] obtained by walking [all()] is the position of the
      entity in that order; a null dereference, an out-of-range index, a
      thrown exception and an integer division by zero make the
      operation return [None]. *)

From Stdlib Require Import ZArith QArith Lqa Lia String Ascii DecimalString DecimalZ.
From stdpp Require Import base option list strings gmap.

Local Open Scope Z_scope.

(** ** Numbers *)

(** [a < b] and [a > b] on floats. *)
Definition Qltb (a b : Q) : bool := negb (Qle_bool b a).
Definition Qgtb (a b : Q) : bool := Qltb b a.

(** [(int)f]: conversion of a float to [int] truncates toward zero. *)
Definition to_int (f : Q) : Z := Z.quot (Qnum f) (Z.pos (Qden f)).

(** [a % b] on [int]: the remainder has the sign of [a]; [b = 0] is undefined. *)
Definition imod (a b : Z) : option Z :=
  if Z.eqb b 0 then None else Some (Z.rem a b).

(** [a / b] on floats; [None] stands for the NaN or infinity that dividing
    by zero yields. *)
Definition fdiv (a b : Q) : option Q :=
  if Qeq_bool b 0 then None else Some (a / b)%Q.

(** A rational stand-in for libm's [sqrtf], exact on squares of rationals
    and otherwise rounded down on a grid of 2^-24 / denominator. *)
Definition sqrt_approx (q : Q) : Q :=
  Z.sqrt (Qnum q * Z.pos (Qden q) * 4 ^ 24) # (Qden q * 2 ^ 24).

(** [a / b] on [int]: the quotient is truncated toward zero; [b = 0] is
    undefined. *)
Definition idiv (a b : Z) : option Z :=
  if Z.eqb b 0 then None else Some (Z.quot a b).

(** [Uint32] arithmetic wraps modulo 2^32; the conversion of a [Uint32] to
    [int] reads the same 32 bits in two's complement. *)
Definition u32 (z : Z) : Z := z mod 2 ^ 32.
Definition to_i32 (u : Z) : Z := if Z.ltb u (2 ^ 31) then u else u - 2 ^ 32.

(** [std::to_string(int)]: the decimal digits, after a minus sign for a
    negative number. *)
Definition to_string (n : Z) : string := NilEmpty.string_of_int (Z.to_int n).

(** ** The generator behind [rand()] *)

Record Rng := { draws : nat -> Z; cursor : nat }.

Definition rand (g : Rng) : Z * Rng :=
  (draws g (cursor g), {| draws := draws g; cursor := S (cursor g) |}).

(** [rand() % n] *)
Definition rand_below (n : Z) (g : Rng) : option (Z * Rng) :=
  let '(r, g') := rand g in
  v ← imod r n; Some (v, g').

(** [rand()] returns a value between 0 and RAND_MAX. *)
Definition rng_ok (g : Rng) : Prop := forall n, 0 <= draws g n.

(** A generator that replays a list and then returns 0. *)
Definition replay (l : list Z) : Rng :=
  {| draws := fun n => nth n l 0; cursor := O |}.

(** ** Configuration *)

Record EngineConfig := {
  width : Z;
  height : Z;
  title : string;
  targetFPS : Z;
  vSync : bool
}.

(** ** Tiny ECS *)

Definition EntityId := Z.
Definition INVALID_ENTITY : EntityId := 0.

(** [SDL_Texture*]: [None] is the null pointer. *)
Definition Texture := option positive.

Record Transform := { x : Q; y : Q; w : Q; h : Q; angle : Q }.
Record Sprite := {
  texture : Texture;
  srcX : Z; srcY : Z; srcW : Z; srcH : Z;
  scale : Q
}.
Record Velocity := { vx : Q; vy : Q }.

(** The dynamic type of a component and its fields. *)
Inductive Payload :=
| PTransform (t : Transform)
| PSprite (s : Sprite)
| PVelocity (v : Velocity).

(** [struct Component]: the base-class field and the derived object. *)
Record Component := { owner : EntityId; payload : Payload }.

(** A component type [T] of the templates [addComponent<T>] and
    [getComponent<T>]: its value after [make_shared<T>()], and
    [dynamic_pointer_cast<T>]. *)
Class Kind (T : Type) := {
  fresh : T;
  upcast : T -> Payload;
  downcast : Payload -> option T;
  downcast_upcast : forall t, downcast (upcast t) = Some t;
  upcast_downcast : forall p t, downcast p = Some t -> upcast t = p
}.

#[export] Instance Kind_Transform : Kind Transform := {
  fresh := {| x := 0; y := 0; w := 0; h := 0; angle := 0 |};
  upcast := PTransform;
  downcast p := match p with PTransform t => Some t | _ => None end;
  downcast_upcast := fun _ => eq_refl;
  upcast_downcast := ltac:(by intros [] ? [= ->])
}.

#[export] Instance Kind_Sprite : Kind Sprite := {
  fresh := {| texture := None; srcX := 0; srcY := 0; srcW := 0; srcH := 0;
              scale := 1 |};
  upcast := PSprite;
  downcast p := match p with PSprite s => Some s | _ => None end;
  downcast_upcast := fun _ => eq_refl;
  upcast_downcast := ltac:(by intros [] ? [= ->])
}.

#[export] Instance Kind_Velocity : Kind Velocity := {
  fresh := {| vx := 0; vy := 0 |};
  upcast := PVelocity;
  downcast p := match p with PVelocity v => Some v | _ => None end;
  downcast_upcast := fun _ => eq_refl;
  upcast_downcast := ltac:(by intros [] ? [= ->])
}.

Record Entity := { id : EntityId; components : list Component }.

(** [e.addComponent<T>()]: a fresh [T] owned by [e] is pushed at the back
    of the vector. *)
Definition addComponent (T : Type) `{Kind T} (e : Entity) : Entity :=
  {| id := id e;
     components := components e ++ [ {| owner := id e; payload := upcast (fresh (T:=T)) |} ] |}.

(** [e.getComponent<T>()]: the first component, from the front of the
    vector, whose dynamic type is [T]; [None] is the null pointer. *)
Fixpoint first_of (T : Type) `{Kind T} (cs : list Component) : option T :=
  match cs with
  | [] => None
  | c :: cs' =>
      match downcast (T:=T) (payload c) with
      | Some t => Some t
      | None => first_of T cs'
      end
  end.

Definition getComponent (T : Type) `{Kind T} (e : Entity) : option T :=
  first_of T (components e).

(** A write through the pointer that [getComponent<T>()] returned: it
    reaches the first component of dynamic type [T] and no other. *)
Fixpoint write_first (T : Type) `{Kind T} (f : T -> T) (cs : list Component)
  : list Component :=
  match cs with
  | [] => []
  | c :: cs' =>
      match downcast (T:=T) (payload c) with
      | Some t => {| owner := owner c; payload := upcast (f t) |} :: cs'
      | None => c :: write_first T f cs'
      end
  end.

Definition modify (T : Type) `{Kind T} (f : T -> T) (e : Entity) : Entity :=
  {| id := id e; components := write_first T f (components e) |}.

(** Assignments to single fields of a component. *)
Definition with_x (v : Q) (t : Transform) : Transform :=
  {| x := v; y := y t; w := w t; h := h t; angle := angle t |}.
Definition with_y (v : Q) (t : Transform) : Transform :=
  {| x := x t; y := v; w := w t; h := h t; angle := angle t |}.
Definition with_w (v : Q) (t : Transform) : Transform :=
  {| x := x t; y := y t; w := v; h := h t; angle := angle t |}.
Definition with_h (v : Q) (t : Transform) : Transform :=
  {| x := x t; y := y t; w := w t; h := v; angle := angle t |}.
Definition with_vx (v : Q) (s : Velocity) : Velocity := {| vx := v; vy := vy s |}.
Definition with_vy (v : Q) (s : Velocity) : Velocity := {| vx := vx s; vy := v |}.
Definition with_texture (tex : Texture) (s : Sprite) : Sprite :=
  {| texture := tex; srcX := srcX s; srcY := srcY s; srcW := srcW s;
     srcH := srcH s; scale := scale s |}.
Definition with_scale (v : Q) (s : Sprite) : Sprite :=
  {| texture := texture s; srcX := srcX s; srcY := srcY s; srcW := srcW s;
     srcH := srcH s; scale := v |}.

(** ** World *)

(** [entities] lists the values of the [unordered_map] in iteration order;
    the keys are the [id] fields. *)
Record World := { nextId : EntityId; entities : list Entity }.

(** [World()] *)
Definition World0 : World := {| nextId := 1; entities := [] |}.

(** The position of key [k] in the table. *)
Fixpoint position (k : EntityId) (l : list Entity) : option nat :=
  match l with
  | [] => None
  | e :: l' => if Z.eqb (id e) k then Some O else S <$> position k l'
  end.

Definition insert_at {A : Type} (i : nat) (a : A) (l : list A) : list A :=
  take i l ++ a :: drop i l.

(** Where the hash table links a node for a new key among the nodes it
    holds, counted from the start of the iteration order. The C++ standard
    leaves it open. *)
Definition Slot := EntityId -> list Entity -> nat.

(** libstdc++ with one node per bucket: the newest node is visited first. *)
Definition newest_first : Slot := fun _ _ => O.
(** A table that is walked in insertion order. *)
Definition insertion_order : Slot := fun _ l => length l.

(** [createEntity()] (engine) and [create()] (editor): the new entity and
    its place in the iteration order. [entities[e->id] = e] overwrites the
    node of a key that is already there. *)
Definition createEntity (slot : Slot) (wd : World) : World * nat :=
  let e := {| id := nextId wd; components := [] |} in
  let next := (nextId wd + 1) mod 2 ^ 32 in
  match position (nextId wd) (entities wd) with
  | Some i => ({| nextId := next; entities := <[i := e]> (entities wd) |}, i)
  | None =>
      let i := Nat.min (slot (nextId wd) (entities wd)) (length (entities wd)) in
      ({| nextId := next; entities := insert_at i e (entities wd) |}, i)
  end.

(** [destroyEntity(id)] (engine) and [ents.erase(id)] (editor) *)
Definition destroyEntity (k : EntityId) (wd : World) : World :=
  {| nextId := nextId wd;
     entities := filter (fun e => id e ≠ k) (entities wd) |}.

(** [all()] *)
Definition all (wd : World) : list Entity := entities wd.

(** A write to the entity that a pointer taken from the table refers to. *)
Definition at_entity (i : nat) (f : Entity -> Entity) (wd : World) : World :=
  {| nextId := nextId wd; entities := alter f i (entities wd) |}.

(** [wd.all()[i]->getComponent<T>()], [None] when either pointer is null. *)
Definition component_at (T : Type) `{Kind T} (i : nat) (wd : World) : option T :=
  e ← all wd !! i; getComponent T e.

(** ** Collision test *)

Definition aabbIntersect (a b : Transform) : bool :=
  negb (Qltb (x a + w a) (x b) || Qgtb (x a) (x b + w b)
        || Qltb (y a + h a) (y b) || Qgtb (y a) (y b + h b)).

(** The bounding rectangle of [t] lies in [0, width] x [0, height]. *)
Definition in_bounds (cfg : EngineConfig) (t : Transform) : Prop :=
  (0 <= x t /\ x t + w t <= inject_Z (width cfg) /\
   0 <= y t /\ y t + h t <= inject_Z (height cfg))%Q.

(** ** Texture manager *)

(** [SDL_Renderer*] and [SDL_Surface*]; [None] is the null pointer. *)
Definition Renderer := option positive.
Definition Surface := option positive.

(** [struct TextureManager], the same in both files. *)
Module TextureManager.

Record TextureManager := { ren : Renderer; cache : gmap string Texture }.

(** [TextureManager(SDL_Renderer* r = nullptr)] *)
Definition make (r : Renderer) : TextureManager := {| ren := r; cache := ∅ |}.

(** What the libraries return to one call of [load]: the surface of
    [IMG_Load] and, when the call gets that far, the texture of
    [SDL_CreateTextureFromSurface]. *)
Record Answers := { IMG_Load : Surface; SDL_CreateTextureFromSurface : Texture }.

Definition load (path : string) (io : Answers) (tm : TextureManager)
  : Texture * TextureManager :=
  match ren tm with
  | None => (None, tm)
  | Some _ =>
      match cache tm !! path with
      | Some tex => (tex, tm)
      | None =>
          match IMG_Load io with
          | None => (None, tm)
          | Some _ =>
              match SDL_CreateTextureFromSurface io with
              | None => (None, tm)
              | Some t =>
                  (Some t, {| ren := ren tm; cache := <[path := Some t]> (cache tm) |})
              end
          end
      end
  end.

(** [clear()]: the textures given to [SDL_DestroyTexture], and the manager
    it leaves. *)
Definition clear (tm : TextureManager) : list Texture * TextureManager :=
  ((map_to_list (cache tm)).*2, {| ren := ren tm; cache := ∅ |}).

End TextureManager.

(** ** The scene editor ([sdl_game_engine_2.cpp]) *)

Module Editor.

(** The file's spellings of the ECS operations. *)
Abbreviation add := addComponent (only parsing).
Abbreviation get := getComponent (only parsing).
Abbreviation create := createEntity (only parsing).

(** [EngineConfig] as [main] sets it up. *)
Definition main_cfg : EngineConfig :=
  {| width := 1280; height := 720; title := "SDL Engine + ImGui Editor";
     targetFPS := 60; vSync := false |}.

(** [struct Editor2]; [selected] names the entity it points to by its key. *)
Record Editor2 := {
  world : World;
  selected : option EntityId;
  playing : bool;
  score : Z
}.

Definition with_world (wd : World) (ed : Editor2) : Editor2 :=
  {| world := wd; selected := selected ed; playing := playing ed; score := score ed |}.
Definition with_selected (s : option EntityId) (ed : Editor2) : Editor2 :=
  {| world := world ed; selected := s; playing := playing ed; score := score ed |}.
Definition with_playing (b : bool) (ed : Editor2) : Editor2 :=
  {| world := world ed; selected := selected ed; playing := b; score := score ed |}.
Definition with_score (n : Z) (ed : Editor2) : Editor2 :=
  {| world := world ed; selected := selected ed; playing := playing ed; score := n |}.

(** The entities that the role loop of [update] points [player], [enemy]
    and [target] at. *)
Record Roles := { player : option nat; enemy : option nat; target : option nat }.

Definition no_roles : Roles := {| player := None; enemy := None; target := None |}.

Section WithCore.

(** [core->cfg], libm's [sqrtf], the iteration order of the table and
    [texman.load]. *)
Variable cfg : EngineConfig.
Variable sqrtf : Q -> Q.
Variable slot : Slot.
Variable texman_load : string -> Texture.

(** [cfg.width/2-32] and [cfg.height/2-32], computed on [int]. *)
Definition center_x : Z := Z.quot (width cfg) 2 - 32.
Definition center_y : Z := Z.quot (height cfg) 2 - 32.

Definition spawnDemoScene (g : Rng) (ed : Editor2) : option (Editor2 * Rng) :=
  let wd := World0 in
  let ed := with_score 0 (with_selected None ed) in
  (* player *)
  let '(wd, p) := create slot wd in
  let wd := at_entity p (add Transform) wd in
  let wd := at_entity p (modify Transform (with_x (inject_Z center_x))) wd in
  let wd := at_entity p (modify Transform (with_y (inject_Z center_y))) wd in
  let wd := at_entity p (modify Transform (with_w 64)) wd in
  let wd := at_entity p (modify Transform (with_h 64)) wd in
  let wd := at_entity p (add Sprite) wd in
  let wd := at_entity p (modify Sprite (with_texture (texman_load "player.png"))) wd in
  let wd := at_entity p (add Velocity) wd in
  (* target *)
  let '(wd, t) := create slot wd in
  let wd := at_entity t (add Transform) wd in
  '(r, g) ← rand_below (width cfg - 32) g;
  let wd := at_entity t (modify Transform (with_x (inject_Z r))) wd in
  '(r, g) ← rand_below (height cfg - 32) g;
  let wd := at_entity t (modify Transform (with_y (inject_Z r))) wd in
  let wd := at_entity t (modify Transform (with_w 32)) wd in
  let wd := at_entity t (modify Transform (with_h 32)) wd in
  let wd := at_entity t (add Sprite) wd in
  let wd := at_entity t (modify Sprite (with_texture (texman_load "target.png"))) wd in
  (* enemy *)
  let '(wd, e) := create slot wd in
  let wd := at_entity e (add Transform) wd in
  '(r, g) ← rand_below (width cfg - 48) g;
  let wd := at_entity e (modify Transform (with_x (inject_Z r))) wd in
  '(r, g) ← rand_below (height cfg - 48) g;
  let wd := at_entity e (modify Transform (with_y (inject_Z r))) wd in
  let wd := at_entity e (modify Transform (with_w 48)) wd in
  let wd := at_entity e (modify Transform (with_h 48)) wd in
  let wd := at_entity e (add Sprite) wd in
  let wd := at_entity e (modify Sprite (with_texture (texman_load "enemy.png"))) wd in
  Some (with_world wd ed, g).

(** *** [update]: the simulation step *)

(** The four clamping statements, in the order of the source. *)
Definition clamp (tr : Transform) : Transform :=
  let tr := if Qltb (x tr) 0 then with_x 0 tr else tr in
  let tr := if Qltb (y tr) 0 then with_y 0 tr else tr in
  let tr := if Qgtb (x tr + w tr) (inject_Z (width cfg))
            then with_x (inject_Z (width cfg) - w tr) tr else tr in
  let tr := if Qgtb (y tr + h tr) (inject_Z (height cfg))
            then with_y (inject_Z (height cfg) - h tr) tr else tr in
  tr.

(** [tr->x += v->vx*dt; tr->y += v->vy*dt;] and the clamp. *)
Definition move (dt : Q) (v : Velocity) (tr : Transform) : Transform :=
  let tr := with_x (x tr + vx v * dt) tr in
  let tr := with_y (y tr + vy v * dt) tr in
  clamp tr.

(** The body of the first loop for one entity. *)
Definition integrate (dt : Q) (ent : Entity) : Entity :=
  match get Transform ent with
  | Some _ =>
      match get Velocity ent with
      | Some v => modify Transform (move dt v) ent
      | None => ent
      end
  | None => ent
  end.

Definition physics (dt : Q) (wd : World) : World :=
  {| nextId := nextId wd; entities := integrate dt <$> all wd |}.

(** The role loop, from position [i] on. An entity with a [Sprite] and no
    [Transform] makes [tr->w] a null dereference. *)
Fixpoint find_roles_from (i : nat) (l : list Entity) (r : Roles) : option Roles :=
  match l with
  | [] => Some r
  | ent :: l' =>
      match get Sprite ent with
      | Some _ =>
          tr ← get Transform ent;
          find_roles_from (S i) l'
            (if Qgtb (w tr) 48
             then {| player := Some i; enemy := enemy r; target := target r |}
             else if Qgtb (w tr) 40
             then {| player := player r; enemy := Some i; target := target r |}
             else {| player := player r; enemy := enemy r; target := Some i |})
      | None => find_roles_from (S i) l' r
      end
  end.

Definition find_roles (wd : World) : option Roles :=
  find_roles_from O (all wd) no_roles.

(** The enemy's transform after the chase statement; [pt] and [et] are
    the transforms of player and enemy before it. *)
Definition chase (dt : Q) (pt et : Transform) : option Transform :=
  let dx := ((x pt + w pt / 2) - (x et + w et / 2))%Q in
  let dy := ((y pt + h pt / 2) - (y et + h et / 2))%Q in
  let dist := sqrtf (dx * dx + dy * dy) in
  if Qgtb dist 0.001 then
    nx ← fdiv dx dist;
    let et := with_x (x et + nx * 100 * dt) et in
    ny ← fdiv dy dist;
    let et := with_y (y et + ny * 100 * dt) et in
    Some et
  else Some et.

(** [if(player && enemy){ ... }] for [player] at [p] and [enemy] at [e]. *)
Definition chase_and_catch (dt : Q) (p e : nat) (ed : Editor2) : option Editor2 :=
  pt ← component_at Transform p (world ed);
  et ← component_at Transform e (world ed);
  et' ← chase dt pt et;
  let ed := with_world (at_entity e (modify Transform (fun _ => et')) (world ed)) ed in
  pt ← component_at Transform p (world ed);
  et ← component_at Transform e (world ed);
  if aabbIntersect pt et then
    let wd := at_entity p (modify Transform (with_x (inject_Z center_x))) (world ed) in
    let wd := at_entity p (modify Transform (with_y (inject_Z center_y))) wd in
    Some (with_score 0 (with_world wd ed))
  else Some ed.

(** [if(player && target){ ... }] for [player] at [p] and [target] at [t]. *)
Definition pickup (p t : nat) (g : Rng) (ed : Editor2) : option (Editor2 * Rng) :=
  pt ← component_at Transform p (world ed);
  tt ← component_at Transform t (world ed);
  if aabbIntersect pt tt then
    let ed := with_score (score ed + 1) ed in
    tt ← component_at Transform t (world ed);
    '(r, g) ← rand_below (width cfg - to_int (w tt)) g;
    let ed := with_world (at_entity t (modify Transform (with_x (inject_Z r))) (world ed)) ed in
    tt ← component_at Transform t (world ed);
    '(r, g) ← rand_below (height cfg - to_int (h tt)) g;
    let ed := with_world (at_entity t (modify Transform (with_y (inject_Z r))) (world ed)) ed in
    Some (ed, g)
  else Some (ed, g).

Definition update (dt : Q) (g : Rng) (ed : Editor2) : option (Editor2 * Rng) :=
  if playing ed then
    let ed := with_world (physics dt (world ed)) ed in
    r ← find_roles (world ed);
    ed ← match player r, enemy r with
         | Some p, Some e => chase_and_catch dt p e ed
         | _, _ => Some ed
         end;
    match player r, target r with
    | Some p, Some t => pickup p t g ed
    | _, _ => Some (ed, g)
    end
  else Some (ed, g).

(** [update] as the loop calls it frame after frame, for the successive
    values of [dt]. *)
Fixpoint steps (dts : list Q) (g : Rng) (ed : Editor2) : option (Editor2 * Rng) :=
  match dts with
  | [] => Some (ed, g)
  | dt :: dts' => '(ed, g) ← update dt g ed; steps dts' g ed
  end.

(** *** The viewport: [drawSceneToViewport] and [uiViewport] *)

Record SDL_Rect := { rect_x : Z; rect_y : Z; rect_w : Z; rect_h : Z }.

(** [float sx = (float)view.w / (float)core->cfg.width] and [sy]. *)
Definition viewport_scale (view : SDL_Rect) : option (Q * Q) :=
  sx ← fdiv (inject_Z (rect_w view)) (inject_Z (width cfg));
  sy ← fdiv (inject_Z (rect_h view)) (inject_Z (height cfg));
  Some (sx, sy).

(** Where the renderer puts the world point [wp] once
    [drawSceneToViewport] has called [SDL_RenderSetViewport(view)] and
    [SDL_RenderSetScale(sx, sy)]: scaled, then offset to the rectangle's
    top-left corner. *)
Definition world_to_screen (view : SDL_Rect) (wp : Q * Q) : option (Q * Q) :=
  '(sx, sy) ← viewport_scale view;
  Some (inject_Z (rect_x view) + wp.1 * sx, inject_Z (rect_y view) + wp.2 * sy)%Q.

(** [SDL_Rect view = {(int)p.x, (int)p.y, (int)s.x, (int)s.y}] *)
Definition view_of (p s : Q * Q) : SDL_Rect :=
  {| rect_x := to_int p.1; rect_y := to_int p.2;
     rect_w := to_int s.1; rect_h := to_int s.2 |}.

(** [float sx = (mp.x - p.x) * (float)core->cfg.width / s.x] and [sy]:
    the pointer [mp] in world coordinates, for the item at [p] of size [s]. *)
Definition screen_to_world (p s mp : Q * Q) : option (Q * Q) :=
  sx ← fdiv ((mp.1 - p.1) * inject_Z (width cfg)) s.1;
  sy ← fdiv ((mp.2 - p.2) * inject_Z (height cfg)) s.2;
  Some (sx, sy).

(** [sx >= tr->x && sx <= tr->x+tr->w && sy >= tr->y && sy <= tr->y+tr->h] *)
Definition contains (tr : Transform) (sp : Q * Q) : bool :=
  Qle_bool (x tr) sp.1 && Qle_bool sp.1 (x tr + w tr)
  && Qle_bool (y tr) sp.2 && Qle_bool sp.2 (y tr + h tr).

(** The picking loop: the first entity, in iteration order, under [sp]. *)
Fixpoint pick (sp : Q * Q) (l : list Entity) : option EntityId :=
  match l with
  | [] => None
  | e :: l' =>
      match get Transform e with
      | Some tr => if contains tr sp then Some (id e) else pick sp l'
      | None => pick sp l'
      end
  end.

(** The body of the interaction block for the pointer at [sp] (world
    coordinates). *)
Definition drag_to (sp : Q * Q) (ed : Editor2) : Editor2 :=
  match selected ed with
  | Some k =>
      match position k (all (world ed)) with
      | Some i =>
          let wd := at_entity i (modify Transform (fun tr => with_x (sp.1 - w tr * 0.5) tr)) (world ed) in
          let wd := at_entity i (modify Transform (fun tr => with_y (sp.2 - h tr * 0.5) tr)) wd in
          with_world wd ed
      | None => ed
      end
  | None =>
      match pick sp (all (world ed)) with
      | Some k => with_selected (Some k) ed
      | None => ed
      end
  end.

(** What ImGui reports to [uiViewport] in one frame: the two buttons, the
    rectangle of the invisible button ([GetItemRectMin], [GetItemRectSize])
    and, while the item is active and the left button drags, [GetMousePos]. *)
Record ViewportInput := {
  play_clicked : bool;
  spawn_clicked : bool;
  item_min : Q * Q;
  item_size : Q * Q;
  dragging : option (Q * Q)
}.

Definition uiViewport (ui : ViewportInput) (g : Rng) (ed : Editor2)
  : option (Editor2 * Rng) :=
  let ed := if play_clicked ui then with_playing (negb (playing ed)) ed else ed in
  '(ed, g) ← (if spawn_clicked ui then spawnDemoScene g ed else Some (ed, g));
  match dragging ui with
  | Some mp =>
      sp ← screen_to_world (item_min ui) (item_size ui) mp;
      Some (drag_to sp ed, g)
  | None => Some (ed, g)
  end.

(** *** The event loop of [main] *)

Inductive Keycode := SDLK_w | SDLK_s | SDLK_a | SDLK_d | SDLK_other.

Inductive SDL_Event :=
| SDL_KEYDOWN (sym : Keycode)
| SDL_KEYUP (sym : Keycode)
| SDL_QUIT
| SDL_WINDOWEVENT_CLOSE
| SDL_other.

Definition is_key (a b : Keycode) : bool :=
  match a, b with
  | SDLK_w, SDLK_w | SDLK_s, SDLK_s | SDLK_a, SDLK_a | SDLK_d, SDLK_d => true
  | _, _ => false
  end.

(** [editor.world.all()[0]->get<Velocity>()->vy = c]: an empty vector or a
    first entity without [Velocity] is a wild access. *)
Definition set_first_velocity (f : Velocity -> Velocity) (ed : Editor2)
  : option Editor2 :=
  _ ← component_at Velocity 0 (world ed);
  Some (with_world (at_entity 0 (modify Velocity f) (world ed)) ed).

Definition when (b : bool) (k : Editor2 -> option Editor2) (ed : Editor2)
  : option Editor2 :=
  if b then k ed else Some ed.

Definition on_keydown (sym : Keycode) (ed : Editor2) : option Editor2 :=
  if playing ed then
    ed ← when (is_key sym SDLK_w) (set_first_velocity (with_vy (-200))) ed;
    ed ← when (is_key sym SDLK_s) (set_first_velocity (with_vy 200)) ed;
    ed ← when (is_key sym SDLK_a) (set_first_velocity (with_vx (-200))) ed;
    when (is_key sym SDLK_d) (set_first_velocity (with_vx 200)) ed
  else Some ed.

Definition on_keyup (sym : Keycode) (ed : Editor2) : option Editor2 :=
  if playing ed then
    ed ← when (is_key sym SDLK_w || is_key sym SDLK_s)
              (set_first_velocity (with_vy 0)) ed;
    when (is_key sym SDLK_a || is_key sym SDLK_d)
         (set_first_velocity (with_vx 0)) ed
  else Some ed.

(** The body of the [SDL_PollEvent] loop; the flag is [running]. *)
Definition on_event (ev : SDL_Event) (st : bool * Editor2) : option (bool * Editor2) :=
  let '(running, ed) := st in
  match ev with
  | SDL_QUIT | SDL_WINDOWEVENT_CLOSE => Some (false, ed)
  | SDL_KEYDOWN sym => ed ← on_keydown sym ed; Some (running, ed)
  | SDL_KEYUP sym => ed ← on_keyup sym ed; Some (running, ed)
  | SDL_other => Some (running, ed)
  end.

Fixpoint poll_events (evs : list SDL_Event) (st : bool * Editor2)
  : option (bool * Editor2) :=
  match evs with
  | [] => Some st
  | ev :: evs' => st ← on_event ev st; poll_events evs' st
  end.

(** One iteration of the [while(running)] loop, for the events pending,
    the time [dt] since the last iteration and the answers of the
    viewport panel. Drawing changes no state of the editor; the hierarchy
    and inspector panels are taken to receive no input. *)
Definition frame (evs : list SDL_Event) (dt : Q) (ui : ViewportInput)
    (g : Rng) (st : bool * Editor2) : option ((bool * Editor2) * Rng) :=
  '(running, ed) ← poll_events evs st;
  '(ed, g) ← update dt g ed;
  '(ed, g) ← uiViewport ui g ed;
  Some ((running, ed), g).

(** The [while(running)] loop over the inputs of successive frames. *)
Fixpoint run (inputs : list (list SDL_Event * Q * ViewportInput))
    (g : Rng) (st : bool * Editor2) : option ((bool * Editor2) * Rng) :=
  match inputs with
  | [] => Some (st, g)
  | (evs, dt, ui) :: rest =>
      if st.1 then '(st, g) ← frame evs dt ui g st; run rest g st
      else Some (st, g)
  end.

(** *** The hierarchy and inspector panels *)

(** What ImGui reports to [uiHierarchy] in one frame: for each row of the
    list, by its place in [world.all()], whether [Selectable] was clicked,
    and the two buttons. *)
Record HierarchyInput := {
  row_clicked : nat -> bool;
  add_clicked : bool;
  delete_clicked : bool
}.

(** The loop over the rows, from position [i] on. *)
Fixpoint select_rows (clicked : nat -> bool) (i : nat) (l : list Entity)
    (sel : option EntityId) : option EntityId :=
  match l with
  | [] => sel
  | ent :: l' =>
      select_rows clicked (S i) l' (if clicked i then Some (id ent) else sel)
  end.

(** The body of [if(ImGui::Button("Add Entity"))]. *)
Definition add_entity (wd : World) : World :=
  let '(wd, n) := create slot wd in
  let wd := at_entity n (add Transform) wd in
  let wd := at_entity n (modify Transform (with_x 50)) wd in
  let wd := at_entity n (modify Transform (with_y 50)) wd in
  let wd := at_entity n (modify Transform (with_w 32)) wd in
  let wd := at_entity n (modify Transform (with_h 32)) wd in
  wd.

Definition uiHierarchy (hi : HierarchyInput) (ed : Editor2) : Editor2 :=
  let ed :=
    with_selected (select_rows (row_clicked hi) O (all (world ed)) (selected ed)) ed in
  let ed := if add_clicked hi then with_world (add_entity (world ed)) ed else ed in
  match selected ed with
  | Some k =>
      if delete_clicked hi
      then with_selected None (with_world (destroyEntity k (world ed)) ed)
      else ed
  | None => ed
  end.

(** What ImGui reports to [uiInspector]: for each [DragFloat] the value it
    wrote when it returned true, the text of the path field, and the two
    buttons. *)
Record InspectorInput := {
  drag_X : option Q;
  drag_Y : option Q;
  drag_W : option Q;
  drag_H : option Q;
  path : string;
  load_clicked : bool;
  add_sprite_clicked : bool
}.

(** [if(ImGui::DragFloat(...)) t->field = v] for the entity at [i]. *)
Definition drag_float (v : option Q) (set : Q -> Transform -> Transform) (i : nat)
    (wd : World) : World :=
  match v with
  | Some v => at_entity i (modify Transform (set v)) wd
  | None => wd
  end.

Definition uiInspector (ii : InspectorInput) (ed : Editor2) : Editor2 :=
  match selected ed with
  | Some k =>
      match position k (all (world ed)) with
      | Some i =>
          let wd := world ed in
          let wd :=
            match component_at Transform i wd with
            | Some _ =>
                let wd := drag_float (drag_X ii) with_x i wd in
                let wd := drag_float (drag_Y ii) with_y i wd in
                let wd := drag_float (drag_W ii) with_w i wd in
                let wd := drag_float (drag_H ii) with_h i wd in
                wd
            | None => wd
            end in
          let wd :=
            match component_at Sprite i wd with
            | Some _ =>
                if load_clicked ii then
                  if String.eqb (path ii) "" then wd
                  else at_entity i (modify Sprite (with_texture (texman_load (path ii)))) wd
                else wd
            | None =>
                if add_sprite_clicked ii then at_entity i (add Sprite) wd else wd
            end in
          with_world wd ed
      | None => ed
      end
  | None => ed
  end.

(** [renderUI]: the overlay only prints; then the three panels in turn. *)
Definition renderUI (hi : HierarchyInput) (ii : InspectorInput) (ui : ViewportInput)
    (g : Rng) (ed : Editor2) : option (Editor2 * Rng) :=
  let ed := uiHierarchy hi ed in
  let ed := uiInspector ii ed in
  uiViewport ui g ed.

(** One iteration of the [while(running)] loop with all three panels. *)
Definition frame_ui (evs : list SDL_Event) (dt : Q) (hi : HierarchyInput)
    (ii : InspectorInput) (ui : ViewportInput) (g : Rng) (st : bool * Editor2)
  : option ((bool * Editor2) * Rng) :=
  '(running, ed) ← poll_events evs st;
  '(ed, g) ← update dt g ed;
  '(ed, g) ← renderUI hi ii ui g ed;
  Some ((running, ed), g).

(** *** Frame timing in [main] *)

(** [const int frameDelay = 1000/cfg.targetFPS] *)
Definition frameDelay : option Z := idiv 1000 (targetFPS cfg).

(** [float dt = (now - last) / 1000.0f] for two readings of
    [SDL_GetTicks()]. *)
Definition dt_of (last now : Z) : Q := (inject_Z (u32 (now - last)) / 1000)%Q.

(** The end of the loop body, for [now] read at its start and [ticks] at
    its end: the argument of [SDL_Delay], or [None] when it is not called. *)
Definition frame_cap (frameDelay now ticks : Z) : option Z :=
  let frameTime := u32 (ticks - now) in
  if Z.gtb frameDelay (to_i32 frameTime) then Some (u32 (frameDelay - frameTime))
  else None.

End WithCore.

(** [loadDemoAssets]; [io] gives the libraries' answers for each file. *)
Definition loadDemoAssets (io : string -> TextureManager.Answers)
    (texman : TextureManager.TextureManager) : TextureManager.TextureManager :=
  let texman := (TextureManager.load "player.png" (io "player.png") texman).2 in
  let texman := (TextureManager.load "target.png" (io "target.png") texman).2 in
  let texman := (TextureManager.load "enemy.png" (io "enemy.png") texman).2 in
  let texman := (TextureManager.load "bg.png" (io "bg.png") texman).2 in
  texman.

(** Answers of the hierarchy and inspector panels when nothing is touched. *)
Definition hierarchy_idle : HierarchyInput :=
  {| row_clicked := fun _ => false; add_clicked := false; delete_clicked := false |}.
Definition inspector_idle : InspectorInput :=
  {| drag_X := None; drag_Y := None; drag_W := None; drag_H := None;
     path := ""; load_clicked := false; add_sprite_clicked := false |}.

(** Answers of the viewport panel: nothing pressed, the Play/Pause button
    pressed, the Spawn Demo button pressed; no drag in any of them. *)
Definition ui_idle (p s : Q * Q) : ViewportInput :=
  {| play_clicked := false; spawn_clicked := false;
     item_min := p; item_size := s; dragging := None |}.
Definition ui_play (p s : Q * Q) : ViewportInput :=
  {| play_clicked := true; spawn_clicked := false;
     item_min := p; item_size := s; dragging := None |}.
Definition ui_spawn (p s : Q * Q) : ViewportInput :=
  {| play_clicked := false; spawn_clicked := true;
     item_min := p; item_size := s; dragging := None |}.

End Editor.

(** ** The engine and its demo game ([sdl_game_engine.cpp]) *)

Module Engine.

(** [EngineConfig] as [main] sets it up. *)
Definition main_cfg : EngineConfig :=
  {| width := 800; height := 600; title := "Engine Demo";
     targetFPS := 60; vSync := false |}.

(** [TTF_Font*], [Mix_Chunk*] and [Mix_Music*]; [None] is the null pointer. *)
Definition Font := option positive.
Definition Chunk := option positive.
Definition Music := option positive.

(** [struct FontManager] *)
Module FontManager.

Record FontManager := { cache : gmap string Font }.

(** [string key = path + "#" + to_string(ptsize)] *)
Definition key (path : string) (ptsize : Z) : string :=
  path +:+ "#" +:+ to_string ptsize.

(** [load]; [TTF_OpenFont] is what the library returns if it is called. *)
Definition load (path : string) (ptsize : Z) (TTF_OpenFont : Font) (fm : FontManager)
  : Font * FontManager :=
  let key := key path ptsize in
  match cache fm !! key with
  | Some f => (f, fm)
  | None =>
      match TTF_OpenFont with
      | None => (None, fm)
      | Some f => (Some f, {| cache := <[key := Some f]> (cache fm) |})
      end
  end.

(** [clear()]: the fonts given to [TTF_CloseFont], and the manager it leaves. *)
Definition clear (fm : FontManager) : list Font * FontManager :=
  ((map_to_list (cache fm)).*2, {| cache := ∅ |}).

End FontManager.

(** [struct AudioManager] *)
Module AudioManager.

Record AudioManager := { sfx : gmap string Chunk; mus : gmap string Music }.

Definition loadSfx (path : string) (Mix_LoadWAV : Chunk) (am : AudioManager)
  : Chunk * AudioManager :=
  match sfx am !! path with
  | Some c => (c, am)
  | None =>
      match Mix_LoadWAV with
      | None => (None, am)
      | Some c => (Some c, {| sfx := <[path := Some c]> (sfx am); mus := mus am |})
      end
  end.

Definition loadMusic (path : string) (Mix_LoadMUS : Music) (am : AudioManager)
  : Music * AudioManager :=
  match mus am !! path with
  | Some m => (m, am)
  | None =>
      match Mix_LoadMUS with
      | None => (None, am)
      | Some m => (Some m, {| sfx := sfx am; mus := <[path := Some m]> (mus am) |})
      end
  end.

(** [cleanup()]: the chunks given to [Mix_FreeChunk], the music given to
    [Mix_FreeMusic], and the manager it leaves. *)
Definition cleanup (am : AudioManager) : list Chunk * list Music * AudioManager :=
  ((map_to_list (sfx am)).*2, (map_to_list (mus am)).*2, {| sfx := ∅; mus := ∅ |}).

End AudioManager.

Inductive SDL_Scancode :=
| SDL_SCANCODE_W | SDL_SCANCODE_S | SDL_SCANCODE_A | SDL_SCANCODE_D
| SDL_SCANCODE_UP | SDL_SCANCODE_DOWN | SDL_SCANCODE_LEFT | SDL_SCANCODE_RIGHT
| SDL_SCANCODE_other.

Definition scancode_eqb (a b : SDL_Scancode) : bool :=
  match a, b with
  | SDL_SCANCODE_W, SDL_SCANCODE_W | SDL_SCANCODE_S, SDL_SCANCODE_S
  | SDL_SCANCODE_A, SDL_SCANCODE_A | SDL_SCANCODE_D, SDL_SCANCODE_D
  | SDL_SCANCODE_UP, SDL_SCANCODE_UP | SDL_SCANCODE_DOWN, SDL_SCANCODE_DOWN
  | SDL_SCANCODE_LEFT, SDL_SCANCODE_LEFT | SDL_SCANCODE_RIGHT, SDL_SCANCODE_RIGHT
  | SDL_SCANCODE_other, SDL_SCANCODE_other => true
  | _, _ => false
  end.

(** [struct InputState]; [keys] maps the scancodes seen so far. *)
Record InputState := { keys : SDL_Scancode -> option bool; quit : bool }.

Definition InputState0 : InputState := {| keys := fun _ => None; quit := false |}.

(** [InputState::reset] *)
Definition reset (inp : InputState) : InputState :=
  {| keys := fun _ => None; quit := false |}.

(** [input.keys[sc] = b] *)
Definition set_key (sc : SDL_Scancode) (b : bool) (inp : InputState) : InputState :=
  {| keys := fun k => if scancode_eqb k sc then Some b else keys inp k;
     quit := quit inp |}.

(** [keys.at(sc)]: throws [std::out_of_range] for a key that is absent. *)
Definition at_key (inp : InputState) (sc : SDL_Scancode) : option bool := keys inp sc.

(** [keys.at(a) || keys.at(b)], the right operand evaluated only when the
    left one is false. *)
Definition either_key (inp : InputState) (a b : SDL_Scancode) : option bool :=
  match at_key inp a with
  | Some true => Some true
  | Some false => at_key inp b
  | None => None
  end.

Inductive SDL_Event :=
| SDL_KEYDOWN (sc : SDL_Scancode)
| SDL_KEYUP (sc : SDL_Scancode)
| SDL_QUIT
| SDL_other.

(** The engine together with what the lambdas of [main] capture: the three
    entities (named by their keys) and the score. *)
Record Demo := {
  world : World;
  input : InputState;
  running : bool;
  player : EntityId;
  target : EntityId;
  enemy : EntityId;
  score : Z
}.

Definition with_world (wd : World) (d : Demo) : Demo :=
  {| world := wd; input := input d; running := running d; player := player d;
     target := target d; enemy := enemy d; score := score d |}.
Definition with_input (inp : InputState) (d : Demo) : Demo :=
  {| world := world d; input := inp; running := running d; player := player d;
     target := target d; enemy := enemy d; score := score d |}.
Definition with_running (b : bool) (d : Demo) : Demo :=
  {| world := world d; input := input d; running := b; player := player d;
     target := target d; enemy := enemy d; score := score d |}.
Definition with_score (n : Z) (d : Demo) : Demo :=
  {| world := world d; input := input d; running := running d; player := player d;
     target := target d; enemy := enemy d; score := n |}.

Section WithEngine.

(** [E.cfg], libm's [sqrtf], the iteration order of the table and the
    texture loader. *)
Variable cfg : EngineConfig.
Variable sqrtf : Q -> Q.
Variable slot : Slot.
Variable loadTexture : string -> Texture.

(** [ent->getComponent<T>()] for the captured pointer to the entity of key [k]. *)
Definition component_of (T : Type) `{Kind T} (k : EntityId) (wd : World) : option T :=
  i ← position k (all wd); component_at T i wd.

(** A write through such a pointer. *)
Definition write_to (T : Type) `{Kind T} (k : EntityId) (f : T -> T) (wd : World)
  : World :=
  match position k (all wd) with
  | Some i => at_entity i (modify T f) wd
  | None => wd
  end.

(** The bounds clamp of [physicsSystem], statement by statement. *)
Definition clamp (t : Transform) : Transform :=
  let t := if Qltb (x t) 0 then with_x 0 t else t in
  let t := if Qltb (y t) 0 then with_y 0 t else t in
  let t := if Qgtb (x t + w t) (inject_Z (width cfg))
           then with_x (inject_Z (width cfg) - w t) t else t in
  let t := if Qgtb (y t + h t) (inject_Z (height cfg))
           then with_y (inject_Z (height cfg) - h t) t else t in
  t.

(** [t->x += v->vx; t->y += v->vy;] and the clamp. *)
Definition move (v : Velocity) (t : Transform) : Transform :=
  let t := with_x (x t + vx v) t in
  let t := with_y (y t + vy v) t in
  clamp t.

Definition integrate (e : Entity) : Entity :=
  match getComponent Transform e, getComponent Velocity e with
  | Some _, Some v => modify Transform (move v) e
  | _, _ => e
  end.

Definition physicsSystem (wd : World) : World :=
  {| nextId := nextId wd; entities := integrate <$> all wd |}.

(** A write through [pv], the player's [Velocity]. *)
Definition set_pv (f : Velocity -> Velocity) (d : Demo) : Demo :=
  with_world (write_to Velocity (player d) f (world d)) d.

(** The input block of [onUpdate]. *)
Definition steer (d : Demo) : option Demo :=
  let speed : Q := 4%Q in
  _ ← component_of Velocity (player d) (world d);
  let d := set_pv (with_vx 0) d in
  let d := set_pv (with_vy 0) d in
  up ← either_key (input d) SDL_SCANCODE_W SDL_SCANCODE_UP;
  let d := if up : bool then set_pv (with_vy (- speed)) d else d in
  down ← either_key (input d) SDL_SCANCODE_S SDL_SCANCODE_DOWN;
  let d := if down : bool then set_pv (with_vy speed) d else d in
  left ← either_key (input d) SDL_SCANCODE_A SDL_SCANCODE_LEFT;
  let d := if left : bool then set_pv (with_vx (- speed)) d else d in
  right ← either_key (input d) SDL_SCANCODE_D SDL_SCANCODE_RIGHT;
  let d := if right : bool then set_pv (with_vx speed) d else d in
  Some d.

(** The enemy's transform after the AI block; [pt] and [et] are the
    transforms of player and enemy before it. *)
Definition chase (pt et : Transform) : option Transform :=
  let dx := ((x pt + w pt / 2) - (x et + w et / 2))%Q in
  let dy := ((y pt + h pt / 2) - (y et + h et / 2))%Q in
  let dist := sqrtf (dx * dx + dy * dy) in
  if Qgtb dist 0.001 then
    nx ← fdiv dx dist;
    ny ← fdiv dy dist;
    let et := with_x (x et + nx * 1.5) et in
    let et := with_y (y et + ny * 1.5) et in
    Some et
  else Some et.

Definition enemy_ai (d : Demo) : option Demo :=
  pt ← component_of Transform (player d) (world d);
  et ← component_of Transform (enemy d) (world d);
  et' ← chase pt et;
  Some (with_world (write_to Transform (enemy d) (fun _ => et') (world d)) d).

(** [tr->x = rand() % (E.cfg.width - (int)tr->w); tr->y = ...] for the
    transform of the entity of key [k]. *)
Definition relocate (k : EntityId) (g : Rng) (d : Demo) : option (Demo * Rng) :=
  tr ← component_of Transform k (world d);
  '(r, g) ← rand_below (width cfg - to_int (w tr)) g;
  let d := with_world (write_to Transform k (with_x (inject_Z r)) (world d)) d in
  tr ← component_of Transform k (world d);
  '(r, g) ← rand_below (height cfg - to_int (h tr)) g;
  let d := with_world (write_to Transform k (with_y (inject_Z r)) (world d)) d in
  Some (d, g).

(** collision: player-target *)
Definition pickup (g : Rng) (d : Demo) : option (Demo * Rng) :=
  pt ← component_of Transform (player d) (world d);
  ttt ← component_of Transform (target d) (world d);
  if aabbIntersect pt ttt then
    let d := with_score (score d + 1) d in
    '(d, g) ← relocate (target d) g d;
    relocate (enemy d) g d
  else Some (d, g).

(** collision: player-enemy -> reset *)
Definition catch_reset (g : Rng) (d : Demo) : option (Demo * Rng) :=
  pt ← component_of Transform (player d) (world d);
  et ← component_of Transform (enemy d) (world d);
  if aabbIntersect pt et then
    let d := with_score 0 d in
    let d := with_world (write_to Transform (player d)
                           (with_x (inject_Z (width cfg) / 2)) (world d)) d in
    let d := with_world (write_to Transform (player d)
                           (with_y (inject_Z (Z.quot (height cfg) 2))) (world d)) d in
    relocate (enemy d) g d
  else Some (d, g).

Definition onUpdate (g : Rng) (d : Demo) : option (Demo * Rng) :=
  d ← steer d;
  let d := with_world (physicsSystem (world d)) d in
  d ← enemy_ai d;
  '(d, g) ← pickup g d;
  catch_reset g d.

(** The event loop of [Engine::run]. *)
Definition on_event (ev : SDL_Event) (d : Demo) : Demo :=
  match ev with
  | SDL_QUIT => with_running false d
  | SDL_KEYDOWN sc => with_input (set_key sc true (input d)) d
  | SDL_KEYUP sc => with_input (set_key sc false (input d)) d
  | SDL_other => d
  end.

(** One iteration of [while (running)]; rendering changes no state. *)
Definition frame (evs : list SDL_Event) (g : Rng) (d : Demo) : option (Demo * Rng) :=
  onUpdate g (foldl (fun d ev => on_event ev d) d evs).

(** How the loop of [Engine::run] leaves off: [running] became false, an
    exception left [onUpdate], or the frames given are used up. *)
Inductive Outcome :=
| Stopped (d : Demo) (g : Rng)
| Thrown
| Pending (d : Demo) (g : Rng).

(** [while (running)] over the events of successive frames. *)
Fixpoint run (inputs : list (list SDL_Event)) (g : Rng) (d : Demo) : Outcome :=
  match inputs with
  | [] => if running d then Pending d g else Stopped d g
  | evs :: rest =>
      if running d then
        match frame evs g d with
        | Some (d, g) => run rest g d
        | None => Thrown
        end
      else Stopped d g
  end.

(** What [Engine] owns besides the world and the input: the three
    managers behind [texman], [fontman] and [audioman], and whether the
    window, its renderer and the libraries are up. *)
Record Services := {
  texman : TextureManager.TextureManager;
  fontman : FontManager.FontManager;
  audioman : AudioManager.AudioManager;
  window_up : bool
}.

(** What one call of [stop] hands back to the libraries: the cached
    objects it frees, whether [window.destroy()] found a window and renderer
    to destroy, and whether it went on to [SDL_Quit] and its companions. *)
Record Released := {
  textures : list Texture;
  fonts : list Font;
  chunks : list Chunk;
  music : list Music;
  window_destroyed : bool;
  sdl_quit : bool
}.

Definition nothing : Released :=
  {| textures := []; fonts := []; chunks := []; music := [];
     window_destroyed := false; sdl_quit := false |}.

(** [Engine::stop], as [main] calls it after [run] and as the destructor
    calls it again. *)
Definition stop (d : Demo) (s : Services) : Demo * Services * Released :=
  if running d then
    let d := with_running false d in
    let '(ts, tm) := TextureManager.clear (texman s) in
    let '(fs, fm) := FontManager.clear (fontman s) in
    let '(cs, ms, am) := AudioManager.cleanup (audioman s) in
    (d, {| texman := tm; fontman := fm; audioman := am; window_up := false |},
     {| textures := ts; fonts := fs; chunks := cs; music := ms;
        window_destroyed := window_up s; sdl_quit := true |})
  else (d, s, nothing).

(** [const int frameDelay = 1000 / cfg.targetFPS] *)
Definition frameDelay : option Z := idiv 1000 (targetFPS cfg).

(** The frame cap for [frameStart], read at the start of the loop body, and
    [ticks], read at its end: the argument of [SDL_Delay], or [None] when
    it is not called. *)
Definition frame_cap (frameDelay frameStart ticks : Z) : option Z :=
  let frameTime := to_i32 (u32 (ticks - frameStart)) in
  if Z.gtb frameDelay frameTime then Some (u32 (frameDelay - frameTime)) else None.

(** The scene that [main] builds before it calls [eng.run]. *)
Definition setup (g : Rng) : option (Demo * Rng) :=
  let wd := World0 in
  let player := nextId wd in
  let '(wd, p) := createEntity slot wd in
  let wd := at_entity p (addComponent Transform) wd in
  let wd := at_entity p (modify Transform (with_x (inject_Z (Z.quot (width cfg) 2 - 32)))) wd in
  let wd := at_entity p (modify Transform (with_y (inject_Z (Z.quot (height cfg) 2 - 32)))) wd in
  let wd := at_entity p (modify Transform (with_w 64)) wd in
  let wd := at_entity p (modify Transform (with_h 64)) wd in
  let wd := at_entity p (addComponent Sprite) wd in
  let wd := at_entity p (modify Sprite (with_texture (loadTexture "player.png"))) wd in
  let wd := at_entity p (modify Sprite (with_scale 1)) wd in
  let wd := at_entity p (addComponent Velocity) wd in
  let target := nextId wd in
  let '(wd, t) := createEntity slot wd in
  let wd := at_entity t (addComponent Transform) wd in
  '(r, g) ← rand_below (width cfg - 32) g;
  let wd := at_entity t (modify Transform (with_x (inject_Z r))) wd in
  '(r, g) ← rand_below (height cfg - 32) g;
  let wd := at_entity t (modify Transform (with_y (inject_Z r))) wd in
  let wd := at_entity t (modify Transform (with_w 32)) wd in
  let wd := at_entity t (modify Transform (with_h 32)) wd in
  let wd := at_entity t (addComponent Sprite) wd in
  let wd := at_entity t (modify Sprite (with_texture (loadTexture "target.png"))) wd in
  let enemy := nextId wd in
  let '(wd, e) := createEntity slot wd in
  let wd := at_entity e (addComponent Transform) wd in
  '(r, g) ← rand_below (width cfg - 64) g;
  let wd := at_entity e (modify Transform (with_x (inject_Z r))) wd in
  '(r, g) ← rand_below (height cfg - 64) g;
  let wd := at_entity e (modify Transform (with_y (inject_Z r))) wd in
  let wd := at_entity e (modify Transform (with_w 48)) wd in
  let wd := at_entity e (modify Transform (with_h 48)) wd in
  let wd := at_entity e (addComponent Sprite) wd in
  let wd := at_entity e (modify Sprite (with_texture (loadTexture "enemy.png"))) wd in
  Some ({| world := wd; input := InputState0; running := true;
           player := player; target := target; enemy := enemy; score := 0 |}, g).

End WithEngine.

End Engine.

(** ** Notions used in the statements *)

(** Two component types none of whose objects casts to the other. *)
Definition unrelated (T U : Type) `{Kind T} `{Kind U} : Prop :=
  forall t : T, downcast (T:=U) (upcast t) = None.

(** [new] is [old] moved to [(r1 % (width - (int)w), r2 % (height - (int)h))]:
    size and angle kept, top-left in [0, width - w] x [0, height - h], so
    that the rectangle lies in the world. *)
Definition relocated_within (cfg : EngineConfig) (r1 r2 : Z) (old new : Transform)
  : Prop :=
  x new = inject_Z (Z.rem r1 (width cfg - to_int (w old))) /\
  y new = inject_Z (Z.rem r2 (height cfg - to_int (h old))) /\
  w new = w old /\ h new = h old /\ angle new = angle old /\
  (0 <= x new /\ x new <= inject_Z (width cfg) - w old)%Q /\
  (0 <= y new /\ y new <= inject_Z (height cfg) - h old)%Q /\
  in_bounds cfg new.

(** The keys of the table, in iteration order. *)
Definition keys_of (wd : World) : list EntityId := id <$> entities wd.

(** What every table built with [createEntity] and [destroyEntity] below
    2^32 creations satisfies: the keys are distinct, none is
    [INVALID_ENTITY], and all lie below the counter. *)
Definition world_ok (wd : World) : Prop :=
  NoDup (keys_of wd) /\ Forall (fun k => 1 <= k < nextId wd) (keys_of wd) /\
  1 <= nextId wd < 2 ^ 32.

(** [entities.find(k)]: the entity stored under key [k]. *)
Definition entity_with (k : EntityId) (wd : World) : option Entity :=
  i ← position k (entities wd); entities wd !! i.

(** Calls on a world, and the keys that a sequence of them hands out. *)
Inductive WorldOp := Create | Destroy (k : EntityId).

Fixpoint run_ops (slot : Slot) (ops : list WorldOp) (wd : World)
  : World * list EntityId :=
  match ops with
  | [] => (wd, [])
  | Create :: ops' =>
      let '(wd', ks) := run_ops slot ops' (createEntity slot wd).1 in
      (wd', nextId wd :: ks)
  | Destroy k :: ops' => run_ops slot ops' (destroyEntity k wd)
  end.

Fixpoint creations (ops : list WorldOp) : nat :=
  match ops with
  | [] => O
  | Create :: ops' => S (creations ops')
  | Destroy _ :: ops' => creations ops'
  end.

(** The three entities of the demo scene as [spawnDemoScene] leaves
    them, for the four values that [rand()] returned. *)
Section DemoScene.

Variable cfg : EngineConfig.
Variable texman_load : string -> Texture.

Definition demo_entity (k : EntityId) (tr : Transform) (tex : Texture)
    (more : list Component) : Entity :=
  {| id := k;
     components :=
       {| owner := k; payload := PTransform tr |}
       :: {| owner := k; payload := PSprite (with_texture tex fresh) |}
       :: more |}.

Definition demo_player : Entity :=
  demo_entity 1
    {| x := inject_Z (Z.quot (width cfg) 2 - 32);
       y := inject_Z (Z.quot (height cfg) 2 - 32); w := 64; h := 64; angle := 0 |}
    (texman_load "player.png")
    [ {| owner := 1; payload := PVelocity fresh |} ].

Definition demo_target (r1 r2 : Z) : Entity :=
  demo_entity 2
    {| x := inject_Z (Z.rem r1 (width cfg - 32));
       y := inject_Z (Z.rem r2 (height cfg - 32)); w := 32; h := 32; angle := 0 |}
    (texman_load "target.png") [].

Definition demo_enemy (r3 r4 : Z) : Entity :=
  demo_entity 3
    {| x := inject_Z (Z.rem r3 (width cfg - 48));
       y := inject_Z (Z.rem r4 (height cfg - 48)); w := 48; h := 48; angle := 0 |}
    (texman_load "enemy.png") [].

End DemoScene.

(** A texture manager that finds no file. *)
Definition no_textures : string -> Texture := fun _ => None.

(** [Editor2] as its constructor leaves it. *)
Definition Editor2_0 : Editor.Editor2 :=
  {| Editor.world := World0; Editor.selected := None;
     Editor.playing := false; Editor.score := 0 |}.

(** The place at which [createEntity] links the node of a new key. *)
Definition landing (slot : Slot) (wd : World) : nat :=
  Nat.min (slot (nextId wd) (entities wd)) (length (entities wd)).

(** The transform is no larger than the world and has no negative side. *)
Definition smaller (cfg : EngineConfig) (tr : Transform) : Prop :=
  (0 <= w tr /\ w tr < inject_Z (width cfg) /\
   0 <= h tr /\ h tr < inject_Z (height cfg))%Q.

Inductive Role := Player | Enemy | Target.

(** The role that the width heuristic of the role loop gives a transform. *)
Definition classify (tr : Transform) : Role :=
  if Qgtb (w tr) 48 then Player else if Qgtb (w tr) 40 then Enemy else Target.

Definition role_in (r : Editor.Roles) (k : Role) : option nat :=
  match k with
  | Player => Editor.player r
  | Enemy => Editor.enemy r
  | Target => Editor.target r
  end.

(** The entity at position [i] has a [Sprite] and a [Transform] of role [k]. *)
Definition plays (l : list Entity) (i : nat) (k : Role) : Prop :=
  exists ent tr, l !! i = Some ent /\ is_Some (getComponent Sprite ent) /\
    getComponent Transform ent = Some tr /\ classify tr = k.

(** No entity has a [Sprite] without a [Transform]. *)
Definition sprites_have_transforms (l : list Entity) : Prop :=
  Forall (fun ent => is_Some (getComponent Sprite ent) ->
                     is_Some (getComponent Transform ent)) l.

(** States of the editor inside [update]. *)
Section StepStates.

Variable cfg : EngineConfig.

(** The transform of the player once the catch test has put it back. *)
Definition recentred (pt : Transform) : Transform :=
  with_y (inject_Z (Editor.center_y cfg)) (with_x (inject_Z (Editor.center_x cfg)) pt).

(** The editor after the chase statement gave the enemy at [e] the
    transform [et']. *)
Definition after_chase (e : nat) (et' : Transform) (ed : Editor.Editor2)
  : Editor.Editor2 :=
  Editor.with_world (at_entity e (modify Transform (fun _ => et')) (Editor.world ed)) ed.

(** The editor after the body of the catch test ran for the player at [p]. *)
Definition after_catch (p : nat) (ed : Editor.Editor2) : Editor.Editor2 :=
  Editor.with_score 0
    (Editor.with_world
       (at_entity p (modify Transform (with_y (inject_Z (Editor.center_y cfg))))
          (at_entity p (modify Transform (with_x (inject_Z (Editor.center_x cfg))))
             (Editor.world ed))) ed).

End StepStates.

(** Whether the pickup test finds the target of [r] under a player with
    transform [pt]. *)
Definition picks_up (r : Editor.Roles) (wd : World) (pt : Transform) : bool :=
  match Editor.target r with
  | Some t =>
      match component_at Transform t wd with
      | Some tg => aabbIntersect pt tg
      | None => false
      end
  | None => false
  end.

(** Width and height of a transform. *)
Definition size_of (tr : Transform) : Q * Q := (w tr, h tr).

(** Two worlds that differ at most in the positions and angles of their
    transforms. *)
Definition same_shape (wd wd' : World) : Prop :=
  length (all wd') = length (all wd) /\
  forall i,
    component_at Sprite i wd' = component_at Sprite i wd /\
    component_at Velocity i wd' = component_at Velocity i wd /\
    size_of <$> component_at Transform i wd' = size_of <$> component_at Transform i wd.

(** The demo scene of the editor on a table that is walked newest
    first, for the four values of [rand()], with the play flag set. *)
Definition scene (r1 r2 r3 r4 : Z) : Editor.Editor2 :=
  {| Editor.world :=
       {| nextId := 4;
          entities := [ demo_enemy Editor.main_cfg no_textures r3 r4;
                        demo_target Editor.main_cfg no_textures r1 r2;
                        demo_player Editor.main_cfg no_textures ] |};
     Editor.selected := None;
     Editor.playing := true;
     Editor.score := 0 |}.

(** [scene r1 r2 r3 r4] with the player put at [(px, py)] and the score
    at [n]. *)
Definition scene_moved (px py : Q) (n : Z) (r1 r2 r3 r4 : Z) : Editor.Editor2 :=
  Editor.with_score n
    (Editor.with_world
       (at_entity 2 (modify Transform (fun t => with_y py (with_x px t)))
          (Editor.world (scene r1 r2 r3 r4)))
       (scene r1 r2 r3 r4)).

(** Hierarchy panel: the row at place [i] clicked, no button pressed. *)
Definition hierarchy_click (i : nat) : Editor.HierarchyInput :=
  {| Editor.row_clicked := Nat.eqb i; Editor.add_clicked := false;
     Editor.delete_clicked := false |}.

(** Inspector panel: the Y field dragged to [py] and the H field to [ph]. *)
Definition inspector_stretch (py ph : Q) : Editor.InspectorInput :=
  {| Editor.drag_X := None; Editor.drag_Y := Some py; Editor.drag_W := None;
     Editor.drag_H := Some ph; Editor.path := EmptyString;
     Editor.load_clicked := false; Editor.add_sprite_clicked := false |}.

(** The vector from the enemy's centre to the player's, as both chase
    statements compute it, and its length by [sqrtf]. *)
Definition chase_dx (pt et : Transform) : Q := ((x pt + w pt / 2) - (x et + w et / 2))%Q.
Definition chase_dy (pt et : Transform) : Q := ((y pt + h pt / 2) - (y et + h et / 2))%Q.
Definition chase_dist (sqrtf : Q -> Q) (pt et : Transform) : Q :=
  sqrtf (chase_dx pt et * chase_dx pt et + chase_dy pt et * chase_dy pt et)%Q.


(** ** Notions used for the managers, the tables and the panels *)

(** No entry of a cache is a null pointer. *)
Definition cache_ok {A : Type} (c : gmap string (option A)) : Prop :=
  forall p, c !! p <> Some None.

(** A sequence of calls of [TextureManager::load], each with the answers
    the libraries gave to it. *)
Definition loads (calls : list (string * TextureManager.Answers))
    (tm : TextureManager.TextureManager) : TextureManager.TextureManager :=
  foldl (fun tm call => (TextureManager.load call.1 call.2 tm).2) tm calls.

(** What a call of [load] that misses the cache stores for the answers
    [io]: the texture, when both library calls succeed. *)
Definition created (io : TextureManager.Answers) : option Texture :=
  match TextureManager.IMG_Load io, TextureManager.SDL_CreateTextureFromSurface io with
  | Some _, Some t => Some (Some t)
  | _, _ => None
  end.

(** The character [c] occurs in [s]. *)
Fixpoint occurs (c : ascii) (s : string) : bool :=
  match s with
  | EmptyString => false
  | String c' s' => Ascii.eqb c' c || occurs c s'
  end.

(** [e'] is [e] moved: the same key, the same owners, the same [Sprite],
    a [Transform] of the same size if any, a [Velocity] if [e] has one. *)
Definition moved (e e' : Entity) : Prop :=
  id e' = id e /\
  size_of <$> getComponent Transform e' = size_of <$> getComponent Transform e /\
  (is_Some (getComponent Velocity e') <-> is_Some (getComponent Velocity e)) /\
  getComponent Sprite e' = getComponent Sprite e /\
  owner <$> components e' = owner <$> components e.

(** [wd'] holds the entities of [wd], in the same order, moved. *)
Definition rearranged (wd wd' : World) : Prop :=
  nextId wd' = nextId wd /\ Forall2 moved (entities wd) (entities wd').

(** [wd'] is [wd] but for the components of the entity at place [i]. *)
Definition edited_at (i : nat) (wd wd' : World) : Prop :=
  nextId wd' = nextId wd /\
  (forall j, j <> i -> all wd' !! j = all wd !! j) /\
  id <$> all wd' !! i = id <$> all wd !! i.

(** *** The engine's demo *)

(** The eight keys that [onUpdate] looks up are in the table. *)
Definition keys_seen (inp : Engine.InputState) : Prop :=
  Forall (fun sc => is_Some (Engine.at_key inp sc))
    [ Engine.SDL_SCANCODE_W; Engine.SDL_SCANCODE_UP; Engine.SDL_SCANCODE_S;
      Engine.SDL_SCANCODE_DOWN; Engine.SDL_SCANCODE_A; Engine.SDL_SCANCODE_LEFT;
      Engine.SDL_SCANCODE_D; Engine.SDL_SCANCODE_RIGHT ].

(** The moduli [width - (int)w] and [height - (int)h] of a relocation of
    [tr] are positive. *)
Definition relocatable (cfg : EngineConfig) (tr : Transform) : Prop :=
  to_int (w tr) < width cfg /\ to_int (h tr) < height cfg.

(** The entities that the lambdas of [main] captured are in the world
    with the components that [onUpdate] dereferences, and target and enemy
    can be relocated. *)
Definition demo_ok (cfg : EngineConfig) (d : Engine.Demo) : Prop :=
  is_Some (Engine.component_of Velocity (Engine.player d) (Engine.world d)) /\
  is_Some (Engine.component_of Transform (Engine.player d) (Engine.world d)) /\
  (exists tt, Engine.component_of Transform (Engine.target d) (Engine.world d) = Some tt /\
              relocatable cfg tt) /\
  (exists et, Engine.component_of Transform (Engine.enemy d) (Engine.world d) = Some et /\
              relocatable cfg et).

(** [d'] has the key table, the run flag and the captured entities of [d]. *)
Definition same_setting (d d' : Engine.Demo) : Prop :=
  Engine.input d' = Engine.input d /\ Engine.running d' = Engine.running d /\
  Engine.player d' = Engine.player d /\ Engine.target d' = Engine.target d /\
  Engine.enemy d' = Engine.enemy d.

(** The velocity that the input block of [onUpdate] leaves for the four
    answers of [keys.at(..) || keys.at(..)]. *)
Definition steered (go_up go_down go_left go_right : bool) : Velocity :=
  {| vx := if go_right then 4 else if go_left then - (4) else 0;
     vy := if go_down then 4 else if go_up then - (4) else 0 |}%Q.

(** An event that tells the state of the W key. *)
Definition about_w (ev : Engine.SDL_Event) : bool :=
  match ev with
  | Engine.SDL_KEYDOWN Engine.SDL_SCANCODE_W | Engine.SDL_KEYUP Engine.SDL_SCANCODE_W => true
  | _ => false
  end.

(** Key-up events for the eight keys that [onUpdate] reads. *)
Definition eight_keys_up : list Engine.SDL_Event :=
  Engine.SDL_KEYUP <$>
    [ Engine.SDL_SCANCODE_W; Engine.SDL_SCANCODE_UP; Engine.SDL_SCANCODE_S;
      Engine.SDL_SCANCODE_DOWN; Engine.SDL_SCANCODE_A; Engine.SDL_SCANCODE_LEFT;
      Engine.SDL_SCANCODE_D; Engine.SDL_SCANCODE_RIGHT ].

(** *** The editor's scene *)

(** Every component of [e] names [e] as its owner. *)
Definition owned (e : Entity) : Prop :=
  Forall (fun c => owner c = id e) (components e).

(** The entity has a [Transform] and owns its components. *)
Definition sound (e : Entity) : Prop := is_Some (getComponent Transform e) /\ owned e.

(** The table is in order, every entity is sound, and the selection, if
    any, is the key of an entity of the world. *)
Definition editor_ok (ed : Editor.Editor2) : Prop :=
  world_ok (Editor.world ed) /\
  Forall sound (all (Editor.world ed)) /\
  match Editor.selected ed with
  | Some k => k ∈ keys_of (Editor.world ed)
  | None => True
  end.

(** The entity that the Add Entity button creates under key [k]. *)
Definition added_entity (k : EntityId) : Entity :=
  {| id := k;
     components :=
       [ {| owner := k;
            payload := PTransform {| x := 50; y := 50; w := 32; h := 32; angle := 0 |} |} ] |}.

(** The value a [DragFloat] leaves in a field that held [old]. *)
Definition dragged (v : option Q) (old : Q) : Q :=
  match v with Some new => new | None => old end.

(** The point [sp] lies in the rectangle of [tr], borders included. *)
Definition covers (tr : Transform) (sp : Q * Q) : Prop :=
  (x tr <= sp.1 /\ sp.1 <= x tr + w tr /\ y tr <= sp.2 /\ sp.2 <= y tr + h tr)%Q.

(** A frame of the viewport panel in which the pointer drags at [mp] and
    no button is pressed. *)
Definition ui_drag (p s mp : Q * Q) : Editor.ViewportInput :=
  {| Editor.play_clicked := false; Editor.spawn_clicked := false;
     Editor.item_min := p; Editor.item_size := s; Editor.dragging := Some mp |}.

(** The velocity of the first entity after a key goes down, and after it
    goes up. *)
Definition after_keydown (sym : Editor.Keycode) (v : Velocity) : Velocity :=
  match sym with
  | Editor.SDLK_w => with_vy (-200) v
  | Editor.SDLK_s => with_vy 200 v
  | Editor.SDLK_a => with_vx (-200) v
  | Editor.SDLK_d => with_vx 200 v
  | Editor.SDLK_other => v
  end.

Definition after_keyup (sym : Editor.Keycode) (v : Velocity) : Velocity :=
  match sym with
  | Editor.SDLK_w | Editor.SDLK_s => with_vy 0 v
  | Editor.SDLK_a | Editor.SDLK_d => with_vx 0 v
  | Editor.SDLK_other => v
  end.

(** Hierarchy panel: only Add Entity pressed, only Delete Selected pressed. *)
Definition hierarchy_add : Editor.HierarchyInput :=
  {| Editor.row_clicked := fun _ => false; Editor.add_clicked := true;
     Editor.delete_clicked := false |}.
Definition hierarchy_delete : Editor.HierarchyInput :=
  {| Editor.row_clicked := fun _ => false; Editor.add_clicked := false;
     Editor.delete_clicked := true |}.

(** A player of 64x64 at the origin under a target as wide as the world
    of [Editor.main_cfg]. *)
Definition wide_target : Editor.Editor2 :=
  {| Editor.world :=
       {| nextId := 3;
          entities :=
            [ {| id := 1;
                 components :=
                   [ {| owner := 1;
                        payload := PTransform {| x := 0; y := 0; w := 64; h := 64;
                                                 angle := 0 |} |} ] |};
              {| id := 2;
                 components :=
                   [ {| owner := 2;
                        payload := PTransform {| x := 0; y := 0; w := 1280; h := 32;
                                                 angle := 0 |} |} ] |} ] |};
     Editor.selected := None; Editor.playing := true; Editor.score := 0 |}.

(** * Properties *)

(** ** Numbers *)

Lemma Qltb_lt a b : Qltb a b = true <-> (a < b)%Q.
Proof.
  unfold Qltb. rewrite negb_true_iff, <- not_true_iff_false, Qle_bool_iff.
  split; [apply Qnot_le_lt | apply Qlt_not_le].
Qed.

Lemma Qltb_ge a b : Qltb a b = false <-> (b <= a)%Q.
Proof. unfold Qltb. rewrite negb_false_iff. apply Qle_bool_iff. Qed.

Lemma Qgtb_lt a b : Qgtb a b = true <-> (b < a)%Q.
Proof. apply Qltb_lt. Qed.

Lemma Qgtb_le a b : Qgtb a b = false <-> (a <= b)%Q.
Proof. apply Qltb_ge. Qed.

Lemma to_int_inject z : to_int (inject_Z z) = z.
Proof. unfold to_int. simpl. apply Z.quot_1_r. Qed.

(** Truncation drops less than one unit. *)
Lemma to_int_upper q : (q < inject_Z (to_int q + 1))%Q.
Proof.
  destruct q as [n d]. unfold to_int, Qlt. simpl.
  pose proof (Z.quot_rem' n (Z.pos d)) as E.
  pose proof (Z.rem_bound_abs n (Z.pos d) ltac:(lia)).
  nia.
Qed.

Lemma imod_pos r n : 0 <= r -> 0 < n ->
  exists v, imod r n = Some v /\ v = Z.rem r n /\ 0 <= v < n.
Proof.
  intros Hr Hn. unfold imod. destruct (Z.eqb_spec n 0) as [->|_]; [lia|].
  eexists; split; [reflexivity|]. split; [reflexivity|].
  apply Z.rem_bound_pos; lia.
Qed.

Lemma fdiv_nonzero a b : ~ (b == 0)%Q -> fdiv a b = Some (a / b)%Q.
Proof.
  intros Hb. unfold fdiv. destruct (Qeq_bool b 0) eqn:E; [|reflexivity].
  apply Qeq_bool_iff in E. contradiction.
Qed.

(** ** Components *)

Section ComponentFacts.

Context (T : Type) `{Kind T}.

Lemma first_of_app_hit (cs cs' : list Component) (t : T) :
  first_of T cs = Some t -> first_of T (cs ++ cs') = Some t.
Proof.
  induction cs as [|c cs IH]; simpl; [discriminate|].
  destruct (downcast (payload c)); auto.
Qed.

Lemma first_of_app_miss (cs cs' : list Component) :
  first_of T cs = None -> first_of T (cs ++ cs') = first_of T cs'.
Proof.
  induction cs as [|c cs IH]; simpl; [reflexivity|].
  destruct (downcast (payload c)); [discriminate | auto].
Qed.

(** [getComponent] returns the match with the least index. *)
Lemma first_of_spec (cs : list Component) (t : T) :
  first_of T cs = Some t <->
  exists i c, cs !! i = Some c /\ downcast (payload c) = Some t /\
    forall j c', (j < i)%nat -> cs !! j = Some c' -> downcast (T:=T) (payload c') = None.
Proof.
  induction cs as [|c cs IH]; simpl.
  - split; [discriminate | intros (i & c & Hi & _); destruct i; discriminate].
  - destruct (downcast (payload c)) as [t0|] eqn:Ec.
    + split.
      * intros [= ->]. exists O, c. repeat split; auto. intros j c' Hj. lia.
      * intros (i & c1 & Hi & Hc1 & Hbefore). destruct i as [|i].
        -- simpl in Hi. injection Hi as <-. congruence.
        -- specialize (Hbefore O c ltac:(lia) eq_refl). congruence.
    + rewrite IH. split.
      * intros (i & c1 & Hi & Hc1 & Hbefore). exists (S i), c1. repeat split; auto.
        intros [|j] c' Hj Hc'; simpl in Hc'.
        -- injection Hc' as <-. exact Ec.
        -- apply (Hbefore j); [lia | exact Hc'].
      * intros (i & c1 & Hi & Hc1 & Hbefore). destruct i as [|i].
        -- simpl in Hi. injection Hi as <-. congruence.
        -- exists i, c1. repeat split; auto.
           intros j c' Hj Hc'. apply (Hbefore (S j)); [lia | exact Hc'].
Qed.

Lemma first_of_write (f : T -> T) (cs : list Component) :
  first_of T (write_first T f cs) = f <$> first_of T cs.
Proof.
  induction cs as [|c cs IH]; simpl; [reflexivity|].
  destruct (downcast (payload c)) as [t|] eqn:Ec; simpl.
  - by rewrite downcast_upcast.
  - by rewrite Ec.
Qed.

Lemma write_first_miss (f : T -> T) (cs : list Component) :
  first_of T cs = None -> write_first T f cs = cs.
Proof.
  induction cs as [|c cs IH]; simpl; [reflexivity|].
  destruct (downcast (payload c)); [discriminate|]. intros E. by rewrite IH.
Qed.

Lemma length_write_first (f : T -> T) (cs : list Component) :
  length (write_first T f cs) = length cs.
Proof.
  induction cs as [|c cs IH]; simpl; [reflexivity|].
  destruct (downcast (payload c)); simpl; auto.
Qed.

Lemma get_modify (f : T -> T) (e : Entity) :
  getComponent T (modify T f e) = f <$> getComponent T e.
Proof. apply first_of_write. Qed.

Lemma get_add (e : Entity) :
  getComponent T (addComponent T e) =
  match getComponent T e with Some t => Some t | None => Some fresh end.
Proof.
  unfold getComponent, addComponent; simpl.
  destruct (first_of T (components e)) as [t|] eqn:E.
  - by apply first_of_app_hit.
  - rewrite first_of_app_miss by done. simpl. by rewrite downcast_upcast.
Qed.

(** A write through the pointer leaves the components behind the first
    match as they are. *)
Lemma write_first_app (f : T -> T) (cs cs' : list Component) (t : T) :
  first_of T cs = Some t ->
  write_first T f (cs ++ cs') = write_first T f cs ++ cs'.
Proof.
  induction cs as [|c cs IH]; simpl; [discriminate|].
  destruct (downcast (payload c)); [reflexivity|].
  intros E. by rewrite IH.
Qed.

End ComponentFacts.

Lemma first_of_write_other (T U : Type) `{Kind T} `{Kind U} (f : T -> T)
    (cs : list Component) :
  unrelated T U -> first_of U (write_first T f cs) = first_of U cs.
Proof.
  intros HTU. induction cs as [|c cs IH]; simpl; [reflexivity|].
  destruct (downcast (T:=T) (payload c)) as [t|] eqn:Ec; simpl.
  - rewrite HTU. apply upcast_downcast in Ec. rewrite <- Ec. by rewrite HTU.
  - by rewrite IH.
Qed.

Lemma get_modify_other (T U : Type) `{Kind T} `{Kind U} (f : T -> T) (e : Entity) :
  unrelated T U -> getComponent U (modify T f e) = getComponent U e.
Proof. intros. by apply first_of_write_other. Qed.

Lemma unrelated_Transform_Velocity : unrelated Transform Velocity.
Proof. by intros t. Qed.
Lemma unrelated_Transform_Sprite : unrelated Transform Sprite.
Proof. by intros t. Qed.
Lemma unrelated_Velocity_Transform : unrelated Velocity Transform.
Proof. by intros t. Qed.
Lemma unrelated_Velocity_Sprite : unrelated Velocity Sprite.
Proof. by intros t. Qed.

Create HintDb ecs.
#[local] Hint Resolve unrelated_Transform_Velocity unrelated_Transform_Sprite
  unrelated_Velocity_Transform unrelated_Velocity_Sprite : ecs.

(** C10. [addComponent] neither rejects nor overwrites: the vector keeps
    every component it had and gains the new one at the back, so two calls
    for one kind store two components; [getComponent] returns the match of
    least index, which is the earliest added, whatever follows it; and a
    write through the returned pointer leaves the later duplicates alone. *)
Theorem addComponent_keeps_first (T : Type) `{Kind T} (e : Entity) :
  let c := {| owner := id e; payload := upcast (fresh (T:=T)) |} in
  components (addComponent T (addComponent T e)) = components e ++ [c; c] /\
  getComponent T (addComponent T (addComponent T e)) =
    match getComponent T e with Some t => Some t | None => Some fresh end /\
  (forall t later, getComponent T e = Some t ->
     first_of T (components e ++ later) = Some t) /\
  (forall t, getComponent T e = Some t <->
     exists i c, components e !! i = Some c /\ downcast (payload c) = Some t /\
       forall j c', (j < i)%nat -> components e !! j = Some c' ->
                    downcast (T:=T) (payload c') = None) /\
  (forall f : T -> T,
     let e1 := modify T f (addComponent T e) in
     getComponent T (addComponent T e1) = getComponent T e1 /\
     components (modify T f (addComponent T e1))
       = components (modify T f e1) ++ [c]).
Proof.
  intros c. split; [|split; [|split; [|split]]].
  - unfold addComponent; simpl. by rewrite <- app_assoc.
  - rewrite !get_add. by destruct (getComponent T e).
  - intros t later Ht. by apply first_of_app_hit.
  - intros t. apply first_of_spec.
  - intros f e1. split.
    + rewrite get_add. subst e1. rewrite get_modify, get_add.
      by destruct (getComponent T e).
    + assert (is_Some (getComponent T e1)) as [t Ht].
      { subst e1. rewrite get_modify, get_add. destruct (getComponent T e); eauto. }
      unfold modify, addComponent; simpl.
      rewrite (write_first_app T f _ _ t Ht).
      subst e1. reflexivity.
Qed.

Lemma addComponent_keeps_first_witness :
  let e := addComponent Velocity {| id := 7; components := [] |} in
  getComponent Velocity e = Some fresh /\
  first_of Velocity (components e ++ [ {| owner := 7;
      payload := PVelocity {| vx := 3; vy := 4 |} |} ]) = Some fresh.
Proof.
  intros e. split; [reflexivity|].
  destruct (addComponent_keeps_first Velocity e) as (_ & _ & Hfirst & _).
  apply Hfirst. reflexivity.
Defined.

(** ** Collision test *)

Lemma aabbIntersect_true (a b : Transform) :
  aabbIntersect a b = true <->
  (x b <= x a + w a /\ x a <= x b + w b /\ y b <= y a + h a /\ y a <= y b + h b)%Q.
Proof.
  unfold aabbIntersect.
  rewrite negb_true_iff, !orb_false_iff, !Qltb_ge, !Qgtb_le. tauto.
Qed.

(** C8. The test is symmetric for every pair of transforms, a rectangle
    of non-negative width and height intersects itself, and rectangles
    that only share an edge (a vertical or a horizontal one) intersect. *)
Theorem aabbIntersect_symmetric_reflexive_touching :
  (forall a b, aabbIntersect a b = aabbIntersect b a) /\
  (forall a, (0 <= w a)%Q -> (0 <= h a)%Q -> aabbIntersect a a = true) /\
  (forall a b, (0 <= w a)%Q -> (0 <= w b)%Q ->
     (x a + w a == x b)%Q -> (y b <= y a + h a)%Q -> (y a <= y b + h b)%Q ->
     aabbIntersect a b = true) /\
  (forall a b, (0 <= h a)%Q -> (0 <= h b)%Q ->
     (y a + h a == y b)%Q -> (x b <= x a + w a)%Q -> (x a <= x b + w b)%Q ->
     aabbIntersect a b = true).
Proof.
  split; [|split; [|split]].
  - intros a b. unfold aabbIntersect, Qgtb. f_equal.
    destruct (Qltb (x a + w a) (x b)), (Qltb (x b + w b) (x a)),
      (Qltb (y a + h a) (y b)), (Qltb (y b + h b) (y a)); reflexivity.
  - intros a Hw Hh. apply aabbIntersect_true. repeat split; lra.
  - intros a b Hwa Hwb Hx Hy1 Hy2. apply aabbIntersect_true. repeat split; lra.
  - intros a b Hha Hhb Hy Hx1 Hx2. apply aabbIntersect_true. repeat split; lra.
Qed.

Lemma aabbIntersect_symmetric_reflexive_touching_witness :
  let a := {| x := 0; y := 0; w := 10; h := 10; angle := 0 |} in
  let b := {| x := 10; y := 5; w := 4; h := 4; angle := 0 |} in
  aabbIntersect a a = true /\ aabbIntersect a b = true.
Proof.
  intros a b.
  destruct aabbIntersect_symmetric_reflexive_touching as (_ & Hrefl & Hedge & _).
  split.
  - apply Hrefl; vm_compute; discriminate.
  - apply Hedge; vm_compute; (reflexivity || discriminate).
Defined.

(** ** Viewport mapping *)

Lemma inject_Z_nonzero z : z <> 0 -> ~ (inject_Z z == 0)%Q.
Proof. unfold Qeq. simpl. lia. Qed.

(** The rectangle that [uiViewport] hands to [drawSceneToViewport] is the
    rectangle of the item when that one lies on whole pixels. *)
Lemma view_of_pixels (r : Editor.SDL_Rect) :
  Editor.view_of (inject_Z (Editor.rect_x r), inject_Z (Editor.rect_y r))
                 (inject_Z (Editor.rect_w r), inject_Z (Editor.rect_h r)) = r.
Proof. destruct r. unfold Editor.view_of. simpl. by rewrite !to_int_inject. Qed.

(** C4. For a viewport rectangle [r] of positive width and height (and a
    world of positive extent), a screen point taken to world coordinates
    by the formula of [uiViewport] and back by the scale and offset of
    [drawSceneToViewport] is the point itself; both divisions are by
    non-zero numbers. Exact on rationals. *)
Theorem viewport_round_trip (cfg : EngineConfig) (r : Editor.SDL_Rect) (mp : Q * Q) :
  0 < width cfg -> 0 < height cfg ->
  0 < Editor.rect_w r -> 0 < Editor.rect_h r ->
  let p := (inject_Z (Editor.rect_x r), inject_Z (Editor.rect_y r)) in
  let s := (inject_Z (Editor.rect_w r), inject_Z (Editor.rect_h r)) in
  exists wp sp,
    Editor.screen_to_world cfg p s mp = Some wp /\
    Editor.world_to_screen cfg (Editor.view_of p s) wp = Some sp /\
    (sp.1 == mp.1)%Q /\ (sp.2 == mp.2)%Q.
Proof.
  intros HW HH Hw Hh p s.
  assert (~ (inject_Z (width cfg) == 0)%Q) as HW0 by (apply inject_Z_nonzero; lia).
  assert (~ (inject_Z (height cfg) == 0)%Q) as HH0 by (apply inject_Z_nonzero; lia).
  assert (~ (inject_Z (Editor.rect_w r) == 0)%Q) as Hw0 by (apply inject_Z_nonzero; lia).
  assert (~ (inject_Z (Editor.rect_h r) == 0)%Q) as Hh0 by (apply inject_Z_nonzero; lia).
  subst p s. rewrite view_of_pixels.
  unfold Editor.screen_to_world, Editor.world_to_screen, Editor.viewport_scale; simpl.
  rewrite !fdiv_nonzero by assumption. simpl.
  eexists _, _. split; [reflexivity|]. split; [reflexivity|]. simpl.
  split; field; auto.
Qed.

Lemma viewport_round_trip_witness :
  exists wp sp,
    Editor.screen_to_world Editor.main_cfg (100 : Q, 50 : Q) (640 : Q, 360 : Q)
      (300 : Q, 200 : Q) = Some wp /\
    Editor.world_to_screen Editor.main_cfg
      {| Editor.rect_x := 100; Editor.rect_y := 50;
         Editor.rect_w := 640; Editor.rect_h := 360 |} wp = Some sp /\
    (sp.1 == 300)%Q /\ (sp.2 == 200)%Q.
Proof.
  apply (viewport_round_trip Editor.main_cfg
           {| Editor.rect_x := 100; Editor.rect_y := 50;
              Editor.rect_w := 640; Editor.rect_h := 360 |} (300 : Q, 200 : Q));
    reflexivity.
Defined.

(** ** The editor: play and pause *)

Section PauseFacts.

Variable cfg : EngineConfig.
Variable sqrtf : Q -> Q.
Variable slot : Slot.
Variable texman_load : string -> Texture.

Lemma update_paused (dt : Q) (g : Rng) (ed : Editor.Editor2) :
  Editor.playing ed = false -> Editor.update cfg sqrtf dt g ed = Some (ed, g).
Proof. intros E. unfold Editor.update. by rewrite E. Qed.

Lemma poll_events_paused (evs : list Editor.SDL_Event) (running : bool)
    (ed : Editor.Editor2) :
  Editor.playing ed = false ->
  exists running', Editor.poll_events evs (running, ed) = Some (running', ed).
Proof.
  intros E. revert running. induction evs as [|ev evs IH]; intros running; simpl.
  - by exists running.
  - destruct ev; simpl; unfold Editor.on_keydown, Editor.on_keyup;
      rewrite ?E; simpl; apply IH.
Qed.

Lemma frame_paused (evs : list Editor.SDL_Event) (dt : Q) (p s : Q * Q)
    (g : Rng) (running : bool) (ed : Editor.Editor2) :
  Editor.playing ed = false ->
  exists running',
    Editor.frame cfg sqrtf slot texman_load evs dt (Editor.ui_idle p s) g (running, ed)
    = Some ((running', ed), g).
Proof.
  intros E. destruct (poll_events_paused evs running ed E) as [r' Hr'].
  exists r'. unfold Editor.frame. rewrite Hr'. simpl.
  rewrite update_paused by done. reflexivity.
Qed.

Lemma run_paused (inputs : list (list Editor.SDL_Event * Q * Editor.ViewportInput))
    (g : Rng) (running : bool) (ed : Editor.Editor2) :
  Editor.playing ed = false ->
  Forall (fun i => exists p s, i.2 = Editor.ui_idle p s) inputs ->
  exists running',
    Editor.run cfg sqrtf slot texman_load inputs g (running, ed)
    = Some ((running', ed), g).
Proof.
  intros E Hidle. revert running.
  induction Hidle as [|[[evs dt] ui] inputs (p & s & Hui) _ IH]; intros running; simpl.
  - by exists running.
  - destruct running; [|by exists false].
    simpl in Hui. subst ui.
    destruct (frame_paused evs dt p s g true ed E) as [r' Hr']. rewrite Hr'. simpl.
    apply IH.
Qed.

(** C7. Pressing Pause while playing changes the flag and nothing else;
    while paused [update] returns the editor as it got it, for every [dt],
    and so does every frame of the loop whatever keyboard events arrive
    (world, score, selection and generator untouched); pressing Play
    afterwards gives back the editor that was paused. *)
Theorem pause_toggle_preserves (ed : Editor.Editor2) (p s : Q * Q) (g : Rng) :
  Editor.playing ed = true ->
  exists paused,
    Editor.uiViewport cfg slot texman_load (Editor.ui_play p s) g ed = Some (paused, g) /\
    Editor.playing paused = false /\
    Editor.world paused = Editor.world ed /\
    Editor.score paused = Editor.score ed /\
    Editor.selected paused = Editor.selected ed /\
    (forall dt g', Editor.update cfg sqrtf dt g' paused = Some (paused, g')) /\
    (forall inputs g' running,
       Forall (fun i => exists p' s', i.2 = Editor.ui_idle p' s') inputs ->
       exists running',
         Editor.run cfg sqrtf slot texman_load inputs g' (running, paused)
         = Some ((running', paused), g')) /\
    Editor.uiViewport cfg slot texman_load (Editor.ui_play p s) g paused = Some (ed, g).
Proof.
  intros E. exists (Editor.with_playing false ed).
  split; [|split; [|split; [|split; [|split; [|split; [|split]]]]]].
  - unfold Editor.uiViewport. simpl. by rewrite E.
  - reflexivity.
  - reflexivity.
  - reflexivity.
  - reflexivity.
  - intros dt g'. by apply update_paused.
  - intros inputs g' running Hidle. by apply run_paused.
  - unfold Editor.uiViewport. simpl. destruct ed; simpl in *. by subst.
Qed.

End PauseFacts.

(** ** The chase *)

Section ChaseFacts.

Variable sqrtf : Q -> Q.

Lemma editor_chase_near (dt : Q) (pt et : Transform) :
  (chase_dist sqrtf pt et <= 0.001)%Q -> Editor.chase sqrtf dt pt et = Some et.
Proof.
  intros Hd. unfold Editor.chase. fold (chase_dx pt et) (chase_dy pt et). fold (chase_dist sqrtf pt et).
  apply Qgtb_le in Hd. by rewrite Hd.
Qed.

Lemma editor_chase_far (dt : Q) (pt et : Transform) :
  (0.001 < chase_dist sqrtf pt et)%Q ->
  Editor.chase sqrtf dt pt et =
  Some (with_y (y et + chase_dy pt et / chase_dist sqrtf pt et * 100 * dt)
          (with_x (x et + chase_dx pt et / chase_dist sqrtf pt et * 100 * dt) et)).
Proof.
  intros Hd. unfold Editor.chase. fold (chase_dx pt et) (chase_dy pt et). fold (chase_dist sqrtf pt et).
  assert (~ (chase_dist sqrtf pt et == 0)%Q) as Hnz by lra.
  apply Qgtb_lt in Hd. rewrite Hd. by rewrite !fdiv_nonzero.
Qed.

Lemma engine_chase_near (pt et : Transform) :
  (chase_dist sqrtf pt et <= 0.001)%Q -> Engine.chase sqrtf pt et = Some et.
Proof.
  intros Hd. unfold Engine.chase. fold (chase_dx pt et) (chase_dy pt et). fold (chase_dist sqrtf pt et).
  apply Qgtb_le in Hd. by rewrite Hd.
Qed.

Lemma engine_chase_far (pt et : Transform) :
  (0.001 < chase_dist sqrtf pt et)%Q ->
  Engine.chase sqrtf pt et =
  Some (with_y (y et + chase_dy pt et / chase_dist sqrtf pt et * 1.5)
          (with_x (x et + chase_dx pt et / chase_dist sqrtf pt et * 1.5) et)).
Proof.
  intros Hd. unfold Engine.chase. fold (chase_dx pt et) (chase_dy pt et). fold (chase_dist sqrtf pt et).
  assert (~ (chase_dist sqrtf pt et == 0)%Q) as Hnz by lra.
  apply Qgtb_lt in Hd. rewrite Hd. by rewrite !fdiv_nonzero.
Qed.

(** The chase statement never divides by zero. *)
Lemma editor_chase_total (dt : Q) (pt et : Transform) :
  exists et', Editor.chase sqrtf dt pt et = Some et' /\ w et' = w et /\ h et' = h et.
Proof.
  destruct (Qlt_le_dec 0.001 (chase_dist sqrtf pt et)) as [Hd|Hd].
  - rewrite editor_chase_far by done. eauto.
  - rewrite editor_chase_near by done. eauto.
Qed.

Lemma engine_chase_total (pt et : Transform) :
  exists et', Engine.chase sqrtf pt et = Some et' /\ w et' = w et /\ h et' = h et.
Proof.
  destruct (Qlt_le_dec 0.001 (chase_dist sqrtf pt et)) as [Hd|Hd].
  - rewrite engine_chase_far by done. eauto.
  - rewrite engine_chase_near by done. eauto.
Qed.


End ChaseFacts.

(** ** Writes to entities of a world *)

Section WorldFacts.

Context (T : Type) `{Kind T}.

Lemma all_at_entity (i j : nat) (f : Entity -> Entity) (wd : World) :
  all (at_entity i f wd) !! j =
  if decide (i = j) then f <$> all wd !! i else all wd !! j.
Proof. unfold all, at_entity; simpl. apply list_lookup_alter. Qed.

Lemma all_at_entity_ne (i j : nat) (f : Entity -> Entity) (wd : World) :
  i <> j -> all (at_entity i f wd) !! j = all wd !! j.
Proof. intros. unfold all, at_entity; simpl. by apply list_lookup_alter_ne. Qed.

Lemma component_at_write (i : nat) (f : T -> T) (wd : World) :
  component_at T i (at_entity i (modify T f) wd) = f <$> component_at T i wd.
Proof.
  unfold component_at, all, at_entity; simpl. rewrite list_lookup_alter_eq.
  destruct (entities wd !! i); simpl; [apply get_modify | reflexivity].
Qed.

Lemma component_at_write_ne (i j : nat) (f : Entity -> Entity) (wd : World) :
  i <> j -> component_at T j (at_entity i f wd) = component_at T j wd.
Proof. intros. unfold component_at. by rewrite all_at_entity_ne. Qed.

Lemma component_at_write_other (U : Type) `{Kind U} (i j : nat) (f : T -> T)
    (wd : World) :
  unrelated T U ->
  component_at U j (at_entity i (modify T f) wd) = component_at U j wd.
Proof.
  intros HTU. unfold component_at. rewrite all_at_entity.
  destruct (decide (i = j)) as [->|]; [|reflexivity].
  destruct (all wd !! j); simpl; [by apply get_modify_other | reflexivity].
Qed.

End WorldFacts.

Lemma rand_below_ok (n : Z) (g : Rng) :
  rng_ok g -> 0 < n ->
  exists v g',
    rand_below n g = Some (v, g') /\
    v = Z.rem (draws g (cursor g)) n /\ 0 <= v < n /\
    draws g' = draws g /\ cursor g' = S (cursor g) /\ rng_ok g'.
Proof.
  intros Hg Hn. unfold rand_below, rand.
  destruct (imod_pos (draws g (cursor g)) n (Hg _) Hn) as (v & -> & Hv & Hrange).
  simpl. eexists _, _. split; [reflexivity|]. repeat split; auto; lia.
Qed.

(** A position drawn below [limit - (int)size] keeps the rectangle inside
    [0, limit]. *)
Lemma relocated_fits (v limit : Z) (size : Q) :
  0 <= v < limit - to_int size ->
  (0 <= inject_Z v /\ inject_Z v <= inject_Z limit - size /\
   inject_Z v + size <= inject_Z limit)%Q.
Proof.
  intros Hv. pose proof (to_int_upper size) as Hup.
  assert (inject_Z v + inject_Z (to_int size + 1) <= inject_Z limit)%Q as Hz.
  { rewrite <- inject_Z_plus. rewrite <- Zle_Qle. lia. }
  assert (0 <= inject_Z v)%Q by (change 0%Q with (inject_Z 0); rewrite <- Zle_Qle; lia).
  repeat split; lra.
Qed.

Lemma relocated_within_intro (cfg : EngineConfig) (r1 r2 : Z) (old : Transform) :
  0 <= r1 -> 0 <= r2 ->
  to_int (w old) < width cfg -> to_int (h old) < height cfg ->
  relocated_within cfg r1 r2 old
    (with_y (inject_Z (Z.rem r2 (height cfg - to_int (h old))))
       (with_x (inject_Z (Z.rem r1 (width cfg - to_int (w old)))) old)).
Proof.
  intros H1 H2 Hw Hh.
  pose proof (relocated_fits (Z.rem r1 (width cfg - to_int (w old))) (width cfg) (w old)
                ltac:(apply Z.rem_bound_pos; lia)) as (? & ? & ?).
  pose proof (relocated_fits (Z.rem r2 (height cfg - to_int (h old))) (height cfg) (h old)
                ltac:(apply Z.rem_bound_pos; lia)) as (? & ? & ?).
  unfold relocated_within, in_bounds; simpl. tauto.
Qed.

(** ** Pickup *)

Lemma position_Some (k : EntityId) (l : list Entity) (i : nat) :
  position k l = Some i -> exists e, l !! i = Some e /\ id e = k.
Proof.
  revert i. induction l as [|e l IH]; intros i; simpl; [discriminate|].
  destruct (Z.eqb_spec (id e) k) as [Hk|Hk].
  - intros [= <-]. eauto.
  - destruct (position k l) as [i'|]; simpl; [|discriminate].
    intros [= <-]. simpl. by apply IH.
Qed.

Lemma position_alter (k : EntityId) (i : nat) (f : Entity -> Entity) (l : list Entity) :
  (forall e, id (f e) = id e) -> position k (alter f i l) = position k l.
Proof.
  intros Hf. revert i. induction l as [|e l IH]; intros i; [reflexivity|].
  destruct i as [|i].
  - simpl. by rewrite Hf.
  - change (alter f (S i) (e :: l)) with (e :: alter f i l). simpl. by rewrite IH.
Qed.

Section EngineWorldFacts.

Context (T : Type) `{Kind T}.

Lemma position_write_to (k k' : EntityId) (f : T -> T) (wd : World) :
  position k' (all (Engine.write_to T k f wd)) = position k' (all wd).
Proof.
  unfold Engine.write_to. destruct (position k (all wd)); [|reflexivity].
  unfold all, at_entity; simpl. by apply position_alter.
Qed.

Lemma component_of_write (k : EntityId) (f : T -> T) (wd : World) :
  Engine.component_of T k (Engine.write_to T k f wd) = f <$> Engine.component_of T k wd.
Proof.
  unfold Engine.component_of. rewrite position_write_to.
  unfold Engine.write_to. destruct (position k (all wd)) as [i|]; simpl; [|reflexivity].
  apply component_at_write.
Qed.

Lemma component_of_write_ne (U : Type) `{Kind U} (k k' : EntityId) (f : T -> T)
    (wd : World) :
  k <> k' ->
  Engine.component_of U k' (Engine.write_to T k f wd) = Engine.component_of U k' wd.
Proof.
  intros Hk. unfold Engine.component_of. rewrite position_write_to.
  destruct (position k' (all wd)) as [j|] eqn:Ej; simpl; [|reflexivity].
  unfold Engine.write_to. destruct (position k (all wd)) as [i|] eqn:Ei; [|reflexivity].
  apply component_at_write_ne. intros ->.
  apply position_Some in Ei as (e & He & <-). apply position_Some in Ej as (e' & He' & <-).
  congruence.
Qed.

Lemma component_of_write_other (U : Type) `{Kind U} (k k' : EntityId) (f : T -> T)
    (wd : World) :
  unrelated T U ->
  Engine.component_of U k' (Engine.write_to T k f wd) = Engine.component_of U k' wd.
Proof.
  intros HTU. unfold Engine.component_of. rewrite position_write_to.
  destruct (position k' (all wd)) as [j|] eqn:Ej; simpl; [|reflexivity].
  unfold Engine.write_to. destruct (position k (all wd)) as [i|] eqn:Ei; [|reflexivity].
  by apply component_at_write_other.
Qed.

End EngineWorldFacts.

Section PickupFacts.

Variable cfg : EngineConfig.

(** The editor's pickup block when the test succeeds. *)
Lemma editor_pickup_hit (p t : nat) (g : Rng) (ed : Editor.Editor2) (pt tt : Transform) :
  component_at Transform p (Editor.world ed) = Some pt ->
  component_at Transform t (Editor.world ed) = Some tt ->
  aabbIntersect pt tt = true ->
  rng_ok g ->
  to_int (w tt) < width cfg -> to_int (h tt) < height cfg ->
  exists ed' g' tt',
    Editor.pickup cfg p t g ed = Some (ed', g') /\
    Editor.score ed' = Editor.score ed + 1 /\
    component_at Transform t (Editor.world ed') = Some tt' /\
    relocated_within cfg (draws g (cursor g)) (draws g (S (cursor g))) tt tt' /\
    (forall j, j <> t -> all (Editor.world ed') !! j = all (Editor.world ed) !! j) /\
    Editor.playing ed' = Editor.playing ed /\
    Editor.selected ed' = Editor.selected ed /\
    cursor g' = S (S (cursor g)) /\ draws g' = draws g /\
    (forall i, component_at Velocity i (Editor.world ed')
               = component_at Velocity i (Editor.world ed)).
Proof.
  intros Hp Ht Hhit Hg Hw Hh.
  destruct (rand_below_ok (width cfg - to_int (w tt)) g Hg ltac:(lia))
    as (v1 & g1 & E1 & Hv1 & Hr1 & Hd1 & Hc1 & Hg1).
  destruct (rand_below_ok (height cfg - to_int (h tt)) g1 Hg1 ltac:(lia))
    as (v2 & g2 & E2 & Hv2 & Hr2 & Hd2 & Hc2 & Hg2).
  unfold Editor.pickup. rewrite Hp, Ht. simpl. rewrite Hhit. simpl.
  rewrite Ht. simpl. rewrite E1. simpl.
  rewrite component_at_write, Ht. simpl. rewrite E2. simpl.
  eexists _, _, _. split; [reflexivity|]. simpl.
  split; [reflexivity|].
  split; [by rewrite !component_at_write, Ht|]. simpl.
  rewrite Hv1, Hv2, Hc1, Hd1 in *.
  split; [by apply relocated_within_intro|].
  split; [intros j Hj; unfold all; simpl; by rewrite !list_lookup_alter_ne|].
  split; [reflexivity|]. split; [reflexivity|].
  split; [congruence|]. split; [congruence|].
  intros i. by rewrite !component_at_write_other by apply unrelated_Transform_Velocity.
Qed.

Lemma editor_pickup_miss (p t : nat) (g : Rng) (ed : Editor.Editor2) (pt tt : Transform) :
  component_at Transform p (Editor.world ed) = Some pt ->
  component_at Transform t (Editor.world ed) = Some tt ->
  aabbIntersect pt tt = false ->
  Editor.pickup cfg p t g ed = Some (ed, g).
Proof.
  intros Hp Ht Hmiss. unfold Editor.pickup. rewrite Hp, Ht. simpl. by rewrite Hmiss.
Qed.

Lemma engine_relocate_ok (k : EntityId) (g : Rng) (d : Engine.Demo) (tr : Transform) :
  Engine.component_of Transform k (Engine.world d) = Some tr ->
  rng_ok g -> to_int (w tr) < width cfg -> to_int (h tr) < height cfg ->
  exists d' g' tr',
    Engine.relocate cfg k g d = Some (d', g') /\
    Engine.component_of Transform k (Engine.world d') = Some tr' /\
    relocated_within cfg (draws g (cursor g)) (draws g (S (cursor g))) tr tr' /\
    (forall k', k <> k' ->
       Engine.component_of Transform k' (Engine.world d')
       = Engine.component_of Transform k' (Engine.world d)) /\
    Engine.score d' = Engine.score d /\
    Engine.player d' = Engine.player d /\ Engine.target d' = Engine.target d /\
    Engine.enemy d' = Engine.enemy d /\
    rng_ok g' /\ cursor g' = S (S (cursor g)) /\ draws g' = draws g.
Proof.
  intros Hk Hg Hw Hh.
  destruct (rand_below_ok (width cfg - to_int (w tr)) g Hg ltac:(lia))
    as (v1 & g1 & E1 & Hv1 & Hr1 & Hd1 & Hc1 & Hg1).
  destruct (rand_below_ok (height cfg - to_int (h tr)) g1 Hg1 ltac:(lia))
    as (v2 & g2 & E2 & Hv2 & Hr2 & Hd2 & Hc2 & Hg2).
  unfold Engine.relocate. rewrite Hk. simpl. rewrite E1. simpl.
  rewrite component_of_write, Hk. simpl. rewrite E2. simpl.
  eexists _, _, _. split; [reflexivity|]. simpl.
  split; [by rewrite !component_of_write, Hk|]. simpl.
  rewrite Hv1, Hv2, Hc1, Hd1 in *.
  split; [by apply relocated_within_intro|].
  split; [intros k' Hk'; by rewrite !component_of_write_ne|].
  repeat split; auto; congruence.
Qed.

(** The engine's pickup block when the test succeeds. *)
Lemma engine_pickup_hit (g : Rng) (d : Engine.Demo) (pt tt et : Transform) :
  Engine.component_of Transform (Engine.player d) (Engine.world d) = Some pt ->
  Engine.component_of Transform (Engine.target d) (Engine.world d) = Some tt ->
  Engine.component_of Transform (Engine.enemy d) (Engine.world d) = Some et ->
  Engine.target d <> Engine.enemy d ->
  aabbIntersect pt tt = true ->
  rng_ok g ->
  to_int (w tt) < width cfg -> to_int (h tt) < height cfg ->
  to_int (w et) < width cfg -> to_int (h et) < height cfg ->
  exists d' g' tt' et',
    Engine.pickup cfg g d = Some (d', g') /\
    Engine.score d' = Engine.score d + 1 /\
    Engine.component_of Transform (Engine.target d) (Engine.world d') = Some tt' /\
    relocated_within cfg (draws g (cursor g)) (draws g (S (cursor g))) tt tt' /\
    Engine.component_of Transform (Engine.enemy d) (Engine.world d') = Some et' /\
    relocated_within cfg (draws g (S (S (cursor g)))) (draws g (S (S (S (cursor g)))))
      et et'.
Proof.
  intros Hp Ht He Hne Hhit Hg Hwt Hht Hwe Hhe.
  unfold Engine.pickup. rewrite Hp, Ht. simpl. rewrite Hhit.
  destruct (engine_relocate_ok (Engine.target d) g
              (Engine.with_score (Engine.score d + 1) d) tt Ht Hg Hwt Hht)
    as (d1 & g1 & tt' & E1 & Ht' & Hrel & Hother
        & Hs1 & Hp1 & Ht1 & He1 & Hg1 & Hc1 & Hd1).
  simpl in E1. rewrite E1. simpl.
  assert (Engine.component_of Transform (Engine.enemy d1) (Engine.world d1) = Some et) as He'.
  { rewrite He1. simpl. rewrite Hother by done. exact He. }
  destruct (engine_relocate_ok (Engine.enemy d1) g1 d1 et He' Hg1 Hwe Hhe)
    as (d2 & g2 & et' & E2 & Het' & Hrel2 & Hother2 & Hs2 & _).
  rewrite E2. exists d2, g2, tt', et'.
  split; [reflexivity|]. split; [by rewrite Hs2, Hs1|].
  split. { rewrite Hother2; [exact Ht'|]. rewrite He1. simpl. congruence. }
  rewrite He1 in Het'. simpl in Het'. rewrite Hc1, Hd1 in Hrel2.
  split; [exact Hrel|]. split; [exact Het'|]. exact Hrel2.
Qed.

(** C5 (as amended). When the rectangles of player and target intersect
    and the target is smaller than the world ([(int)w < width] and
    [(int)h < height]), one pickup check adds exactly 1 to the score and
    moves the target to
    [(rand() % (width - (int)w), rand() % (height - (int)h))], for the next
    two values of [rand()]: its size is kept, its top-left lies in
    [0, width - w] x [0, height - h] and its rectangle in the world. In
    the editor nothing else changes; the engine's check relocates the
    enemy the same way, which is to be smaller than the world too. *)
Theorem pickup_scores_and_relocates :
  (forall (p t : nat) (g : Rng) (ed : Editor.Editor2) (pt tt : Transform),
     component_at Transform p (Editor.world ed) = Some pt ->
     component_at Transform t (Editor.world ed) = Some tt ->
     aabbIntersect pt tt = true ->
     rng_ok g ->
     to_int (w tt) < width cfg -> to_int (h tt) < height cfg ->
     exists ed' g' tt',
       Editor.pickup cfg p t g ed = Some (ed', g') /\
       Editor.score ed' = Editor.score ed + 1 /\
       component_at Transform t (Editor.world ed') = Some tt' /\
       relocated_within cfg (draws g (cursor g)) (draws g (S (cursor g))) tt tt' /\
       (forall j, j <> t -> all (Editor.world ed') !! j = all (Editor.world ed) !! j) /\
       Editor.playing ed' = Editor.playing ed /\
       Editor.selected ed' = Editor.selected ed) /\
  (forall (g : Rng) (d : Engine.Demo) (pt tt et : Transform),
     Engine.component_of Transform (Engine.player d) (Engine.world d) = Some pt ->
     Engine.component_of Transform (Engine.target d) (Engine.world d) = Some tt ->
     Engine.component_of Transform (Engine.enemy d) (Engine.world d) = Some et ->
     Engine.target d <> Engine.enemy d ->
     aabbIntersect pt tt = true ->
     rng_ok g ->
     to_int (w tt) < width cfg -> to_int (h tt) < height cfg ->
     to_int (w et) < width cfg -> to_int (h et) < height cfg ->
     exists d' g' tt' et',
       Engine.pickup cfg g d = Some (d', g') /\
       Engine.score d' = Engine.score d + 1 /\
       Engine.component_of Transform (Engine.target d) (Engine.world d') = Some tt' /\
       relocated_within cfg (draws g (cursor g)) (draws g (S (cursor g))) tt tt' /\
       Engine.component_of Transform (Engine.enemy d) (Engine.world d') = Some et' /\
       relocated_within cfg (draws g (S (S (cursor g))))
         (draws g (S (S (S (cursor g))))) et et').
Proof.
  split.
  - intros p t g ed pt tt Hp Ht Hhit Hg Hw Hh.
    destruct (editor_pickup_hit p t g ed pt tt Hp Ht Hhit Hg Hw Hh)
      as (ed' & g' & tt' & ? & ? & ? & ? & ? & ? & ? & _).
    exists ed', g', tt'. tauto.
  - intros g d pt tt et. apply engine_pickup_hit.
Qed.

End PickupFacts.

(** ** Creating entities and spawning the demo scene *)

Lemma position_None (k : EntityId) (l : list Entity) :
  position k l = None <-> Forall (fun e => id e <> k) l.
Proof.
  induction l as [|e l IH]; simpl.
  - split; [constructor | reflexivity].
  - rewrite Forall_cons. destruct (Z.eqb_spec (id e) k) as [Hk|Hk].
    + split; [discriminate | tauto].
    + destruct (position k l); simpl.
      * split; [discriminate|]. intros [_ Hl]. apply IH in Hl. discriminate.
      * split; [|reflexivity]. intros _. split; [done|]. by apply IH.
Qed.

Lemma insert_at_perm {A : Type} (i : nat) (a : A) (l : list A) :
  insert_at i a l ≡ₚ a :: l.
Proof.
  unfold insert_at. rewrite <- Permutation_middle. by rewrite take_drop.
Qed.

Lemma insert_at_three {A : Type} (i1 i2 i3 : nat) (a b c : A) :
  insert_at i3 c (insert_at i2 b (insert_at i1 a [])) ≡ₚ [a; b; c].
Proof.
  rewrite insert_at_perm. rewrite (insert_at_perm i2). rewrite (insert_at_perm i1).
  change [c; b; a] with (reverse [a; b; c]). apply reverse_Permutation.
Qed.

Lemma alter_insert_at {A : Type} (f : A -> A) (i : nat) (a : A) (l : list A) :
  (i <= length l)%nat -> alter f i (insert_at i a l) = insert_at i (f a) l.
Proof.
  intros Hi. unfold insert_at.
  replace i with (length (take i l) + 0)%nat at 1 by (rewrite length_take; lia).
  by rewrite alter_app_r.
Qed.

Lemma rand_below_nonzero (n : Z) (g : Rng) :
  n <> 0 ->
  rand_below n g = Some (Z.rem (draws g (cursor g)) n,
                         {| draws := draws g; cursor := S (cursor g) |}).
Proof.
  intros Hn. unfold rand_below, rand, imod.
  by destruct (Z.eqb_spec n 0) as [?|_].
Qed.

Section CreateFacts.

Variable slot : Slot.

Lemma createEntity_fresh (wd : World) :
  Forall (fun e => id e <> nextId wd) (entities wd) ->
  createEntity slot wd =
  ({| nextId := (nextId wd + 1) mod 2 ^ 32;
      entities := insert_at (landing slot wd) {| id := nextId wd; components := [] |}
                    (entities wd) |}, landing slot wd).
Proof.
  intros Hfresh. apply position_None in Hfresh.
  unfold createEntity. by rewrite Hfresh.
Qed.

Lemma at_entity_inserted (i : nat) (f : Entity -> Entity) (k : EntityId) (e : Entity)
    (l : list Entity) :
  (i <= length l)%nat ->
  at_entity i f {| nextId := k; entities := insert_at i e l |}
  = {| nextId := k; entities := insert_at i (f e) l |}.
Proof. intros Hi. unfold at_entity; simpl. by rewrite alter_insert_at. Qed.

End CreateFacts.

(** Rewrites the first [createEntity] on an explicit world whose keys
    differ from [nextId], then the writes to the new entity. *)
Ltac fresh_create slot :=
  match goal with
  | |- context [createEntity slot (Build_World ?n ?l)] =>
      rewrite (createEntity_fresh slot (Build_World n l))
        by (cbn [nextId entities World0];
            repeat first [ apply List.Forall_nil
                         | rewrite insert_at_perm
                         | apply Forall_cons; split; [vm_compute; intros [=]|] ])
  end;
  cbv beta iota zeta;
  rewrite !at_entity_inserted by apply Nat.le_min_r.

Ltac next_rand :=
  rewrite rand_below_nonzero by lia; cbn [mbind option_bind];
  cbv beta iota zeta;
  rewrite !at_entity_inserted by apply Nat.le_min_r.

Section SpawnFacts.

Variable cfg : EngineConfig.
Variable slot : Slot.
Variable texman_load : string -> Texture.

(** [spawnDemoScene] succeeds and builds the same world for every editor. *)
Lemma spawnDemoScene_result (g : Rng) :
  48 < width cfg -> 48 < height cfg ->
  exists wd,
    (forall ed,
       Editor.spawnDemoScene cfg slot texman_load g ed =
       Some ({| Editor.world := wd; Editor.selected := None;
                Editor.playing := Editor.playing ed; Editor.score := 0 |},
             {| draws := draws g; cursor := (4 + cursor g)%nat |})) /\
    nextId wd = 4 /\
    all wd ≡ₚ [ demo_player cfg texman_load;
                demo_target cfg texman_load (draws g (cursor g))
                  (draws g (1 + cursor g)%nat);
                demo_enemy cfg texman_load (draws g (2 + cursor g)%nat)
                  (draws g (3 + cursor g)%nat) ].
Proof.
  intros HW HH. eexists. split; [intros ed|].
  - unfold Editor.spawnDemoScene.
    rewrite (createEntity_fresh slot World0) by constructor.
    cbv beta iota zeta.
    rewrite !at_entity_inserted by apply Nat.le_min_r.
    fresh_create slot. next_rand. next_rand.
    fresh_create slot. next_rand. next_rand.
    reflexivity.
  - split; [reflexivity|].
    cbn [all entities World0]. rewrite insert_at_three. reflexivity.
Qed.

Lemma demo_positions_in_bounds (r1 r2 k : Z) :
  0 <= r1 -> 0 <= r2 -> 0 < k -> k < width cfg -> k < height cfg ->
  in_bounds cfg {| x := inject_Z (Z.rem r1 (width cfg - k));
                   y := inject_Z (Z.rem r2 (height cfg - k));
                   w := inject_Z k; h := inject_Z k; angle := 0 |}.
Proof.
  intros H1 H2 Hk HW HH.
  pose proof (relocated_fits (Z.rem r1 (width cfg - k)) (width cfg) (inject_Z k)) as Hx.
  pose proof (relocated_fits (Z.rem r2 (height cfg - k)) (height cfg) (inject_Z k)) as Hy.
  rewrite to_int_inject in Hx, Hy.
  destruct Hx as (? & ? & ?); [apply Z.rem_bound_pos; lia|].
  destruct Hy as (? & ? & ?); [apply Z.rem_bound_pos; lia|].
  unfold in_bounds; simpl. tauto.
Qed.

End SpawnFacts.

(** C2 (as amended). Pressing Spawn Demo, whatever the editor held
    before and whether it was playing or paused, replaces the world by a
    new one with the three entities of the demo scene (keys 1, 2, 3; the
    player 64x64 centred on the world's centre, the target 32x32 and the
    enemy 48x48 at positions drawn with [rand()] that keep them inside the
    world), clears the selection and sets the score to 0; the play flag is
    left as it was. *)
Theorem spawn_demo_rebuilds_scene (cfg : EngineConfig) (slot : Slot)
    (texman_load : string -> Texture) (g : Rng) (p s : Q * Q) :
  48 < width cfg -> 48 < height cfg -> rng_ok g ->
  let player_e := demo_player cfg texman_load in
  let target_e :=
    demo_target cfg texman_load (draws g (cursor g)) (draws g (1 + cursor g)%nat) in
  let enemy_e :=
    demo_enemy cfg texman_load (draws g (2 + cursor g)%nat) (draws g (3 + cursor g)%nat) in
  exists wd tp tt te,
    (forall ed,
       Editor.uiViewport cfg slot texman_load (Editor.ui_spawn p s) g ed =
       Some ({| Editor.world := wd; Editor.selected := None;
                Editor.playing := Editor.playing ed; Editor.score := 0 |},
             {| draws := draws g; cursor := (4 + cursor g)%nat |})) /\
    nextId wd = 4 /\
    all wd ≡ₚ [player_e; target_e; enemy_e] /\
    getComponent Transform player_e = Some tp /\
    w tp = 64%Q /\ h tp = 64%Q /\
    (x tp + w tp / 2 == inject_Z (Z.quot (width cfg) 2))%Q /\
    (y tp + h tp / 2 == inject_Z (Z.quot (height cfg) 2))%Q /\
    is_Some (getComponent Sprite player_e) /\
    is_Some (getComponent Velocity player_e) /\
    getComponent Transform target_e = Some tt /\
    w tt = 32%Q /\ h tt = 32%Q /\ in_bounds cfg tt /\
    is_Some (getComponent Sprite target_e) /\
    getComponent Velocity target_e = None /\
    getComponent Transform enemy_e = Some te /\
    w te = 48%Q /\ h te = 48%Q /\ in_bounds cfg te /\
    is_Some (getComponent Sprite enemy_e) /\
    getComponent Velocity enemy_e = None.
Proof.
  intros HW HH Hg player_e target_e enemy_e.
  destruct (spawnDemoScene_result cfg slot texman_load g HW HH) as (wd & Hspawn & Hnext & Hall).
  exists wd. eexists _, _, _.
  split; [|split; [exact Hnext|split; [exact Hall|]]].
  { intros ed. unfold Editor.uiViewport. simpl. by rewrite Hspawn. }
  split; [reflexivity|]. split; [reflexivity|]. split; [reflexivity|].
  split. { simpl. unfold Z.sub. rewrite inject_Z_plus, inject_Z_opp. change (inject_Z 32) with 32%Q. field. }
  split. { simpl. unfold Z.sub. rewrite inject_Z_plus, inject_Z_opp. change (inject_Z 32) with 32%Q. field. }
  split; [by eexists|]. split; [by eexists|].
  split; [reflexivity|]. split; [reflexivity|]. split; [reflexivity|].
  split. { apply (demo_positions_in_bounds cfg _ _ 32); (apply Hg || lia). }
  split; [by eexists|]. split; [reflexivity|].
  split; [reflexivity|]. split; [reflexivity|]. split; [reflexivity|].
  split. { apply (demo_positions_in_bounds cfg _ _ 48); (apply Hg || lia). }
  split; [by eexists|]. reflexivity.
Qed.

Lemma spawn_demo_rebuilds_scene_witness :
  exists wd,
    Editor.uiViewport Editor.main_cfg newest_first no_textures
      (Editor.ui_spawn (0%Q, 0%Q) (640%Q, 360%Q)) (replay [0; 0; 700; 336]) Editor2_0
    = Some ({| Editor.world := wd; Editor.selected := None;
               Editor.playing := false; Editor.score := 0 |},
            {| draws := draws (replay [0; 0; 700; 336]); cursor := 4 |}) /\
    nextId wd = 4.
Proof.
  destruct (spawn_demo_rebuilds_scene Editor.main_cfg newest_first no_textures
              (replay [0; 0; 700; 336]) (0%Q, 0%Q) (640%Q, 360%Q))
    as (wd & tp & tt & te & Hspawn & Hnext & _).
  - reflexivity.
  - reflexivity.
  - intros n. unfold replay; simpl.
    do 4 (destruct n as [|n]; [vm_compute; discriminate|]).
    destruct n; vm_compute; discriminate.
  - exists wd. split; [apply (Hspawn Editor2_0) | exact Hnext].
Defined.

(** C2, as stated, fails: Spawn Demo pressed while playing leaves the
    editor playing. *)
Lemma spawn_demo_keeps_playing :
  exists ed' g',
    Editor.uiViewport Editor.main_cfg newest_first no_textures
      (Editor.ui_spawn (0%Q, 0%Q) (640%Q, 360%Q)) (replay [0; 0; 700; 336])
      (Editor.with_playing true Editor2_0) = Some (ed', g') /\
    Editor.playing ed' = true /\ Editor.score ed' = 0 /\ Editor.selected ed' = None.
Proof. eexists _, _. split; [reflexivity|]. repeat split. Qed.

(** ** The simulation step of the editor *)

Section ClampFacts.
Variable cfg : EngineConfig.

Lemma editor_clamp_size (tr : Transform) :
  w (Editor.clamp cfg tr) = w tr /\ h (Editor.clamp cfg tr) = h tr /\
  angle (Editor.clamp cfg tr) = angle tr.
Proof.
  unfold Editor.clamp.
  repeat match goal with |- context [if ?b then _ else _] => destruct b end; simpl; auto.
Qed.

Lemma editor_clamp_in_bounds (tr : Transform) :
  (w tr <= inject_Z (width cfg))%Q -> (h tr <= inject_Z (height cfg))%Q ->
  in_bounds cfg (Editor.clamp cfg tr).
Proof.
  intros Hw Hh. unfold Editor.clamp, in_bounds.
  destruct (Qltb (x tr) 0) eqn:E1; simpl;
  [apply Qltb_lt in E1 | apply Qltb_ge in E1];
  (destruct (Qltb (y tr) 0) eqn:E2; simpl;
   [apply Qltb_lt in E2 | apply Qltb_ge in E2]);
  (match goal with |- context [Qgtb ?a ?b] => destruct (Qgtb a b) eqn:E3 end; simpl;
   [apply Qgtb_lt in E3 | apply Qgtb_le in E3]);
  (match goal with |- context [Qgtb ?a ?b] => destruct (Qgtb a b) eqn:E4 end; simpl;
   [apply Qgtb_lt in E4 | apply Qgtb_le in E4]);
  simpl in *; repeat split; lra.
Qed.

Lemma editor_move_in_bounds (dt : Q) (v : Velocity) (tr : Transform) :
  (w tr <= inject_Z (width cfg))%Q -> (h tr <= inject_Z (height cfg))%Q ->
  in_bounds cfg (Editor.move cfg dt v tr).
Proof. intros. unfold Editor.move. by apply editor_clamp_in_bounds. Qed.

Lemma editor_move_size (dt : Q) (v : Velocity) (tr : Transform) :
  w (Editor.move cfg dt v tr) = w tr /\ h (Editor.move cfg dt v tr) = h tr.
Proof.
  unfold Editor.move.
  destruct (editor_clamp_size (with_y (y (with_x (x tr + vx v * dt) tr) + vy v * dt)
                                 (with_x (x tr + vx v * dt) tr))) as (-> & -> & _).
  auto.
Qed.

Lemma editor_integrate_transform (dt : Q) (ent : Entity) :
  getComponent Transform (Editor.integrate cfg dt ent) =
  match getComponent Velocity ent with
  | Some v => Editor.move cfg dt v <$> getComponent Transform ent
  | None => getComponent Transform ent
  end.
Proof.
  unfold Editor.integrate.
  destruct (getComponent Transform ent) as [tr|] eqn:Et;
    destruct (getComponent Velocity ent) as [v|] eqn:Ev; simpl; auto.
  by rewrite get_modify, Et.
Qed.

Lemma editor_integrate_other (U : Type) `{Kind U} (dt : Q) (ent : Entity) :
  unrelated Transform U ->
  getComponent U (Editor.integrate cfg dt ent) = getComponent U ent.
Proof.
  intros HU. unfold Editor.integrate.
  destruct (getComponent Transform ent); [|reflexivity].
  destruct (getComponent Velocity ent); [|reflexivity].
  by apply get_modify_other.
Qed.

Lemma all_physics (dt : Q) (wd : World) (i : nat) :
  all (Editor.physics cfg dt wd) !! i = Editor.integrate cfg dt <$> all wd !! i.
Proof. unfold Editor.physics, all; simpl. apply list_lookup_fmap. Qed.

End ClampFacts.

(** A role found by the loop was already set or belongs to an entity of
    the list that the heuristic gives that role. *)
Lemma find_roles_from_sound (l : list Entity) : forall (i : nat) (r r' : Editor.Roles),
  Editor.find_roles_from i l r = Some r' ->
  forall k j, role_in r' k = Some j ->
    role_in r k = Some j \/ ((i <= j)%nat /\ plays l (j - i) k).
Proof.
  induction l as [|ent l IH]; intros i r r' Hf k j Hj; simpl in Hf.
  - injection Hf as <-. by left.
  - destruct (getComponent Sprite ent) as [sp|] eqn:Es.
    + destruct (getComponent Transform ent) as [tr|] eqn:Et; simpl in Hf; [|discriminate].
      destruct (IH _ _ _ Hf k j Hj) as [Hold|[Hle Hplays]].
      * assert (role_in r k = Some j \/ (j = i /\ classify tr = k)) as [?|[-> Hc]].
        { unfold classify. destruct (Qgtb (w tr) 48); [|destruct (Qgtb (w tr) 40)];
            destruct k; simpl in Hold |- *; auto; injection Hold as <-; auto. }
        -- by left.
        -- right. split; [lia|]. rewrite Nat.sub_diag.
           exists ent, tr. simpl. rewrite Es. eauto.
      * right. split; [lia|].
        destruct Hplays as (e' & tr' & Hl & ?). exists e', tr'. split; [|done].
        replace (j - i)%nat with (S (j - S i)) by lia. exact Hl.
    + destruct (IH _ _ _ Hf k j Hj) as [Hold|[Hle Hplays]]; [by left|].
      right. split; [lia|].
      destruct Hplays as (e' & tr' & Hl & ?). exists e', tr'. split; [|done].
      replace (j - i)%nat with (S (j - S i)) by lia. exact Hl.
Qed.

Lemma find_roles_sound (wd : World) (r : Editor.Roles) (k : Role) (j : nat) :
  Editor.find_roles wd = Some r -> role_in r k = Some j -> plays (all wd) j k.
Proof.
  intros Hf Hj.
  destruct (find_roles_from_sound _ _ _ _ Hf k j Hj) as [Hold|[_ Hp]].
  - destruct k; discriminate.
  - by rewrite Nat.sub_0_r in Hp.
Qed.

Lemma plays_functional (l : list Entity) (i : nat) (k k' : Role) :
  plays l i k -> plays l i k' -> k = k'.
Proof.
  intros (e & tr & He & _ & Ht & <-) (e' & tr' & He' & _ & Ht' & <-). congruence.
Qed.

Lemma find_roles_from_total (l : list Entity) : forall (i : nat) (r : Editor.Roles),
  sprites_have_transforms l -> is_Some (Editor.find_roles_from i l r).
Proof.
  induction l as [|ent l IH]; intros i r Hl; simpl; [by eexists|].
  apply Forall_cons in Hl as [Hent Hl].
  destruct (getComponent Sprite ent) as [sp|] eqn:Es.
  - destruct Hent as [tr ->]; [by eexists|]. simpl. by apply IH.
  - by apply IH.
Qed.

Section StepFacts.
Variable cfg : EngineConfig.
Variable sqrtf : Q -> Q.

(** The chase and catch block never fails on distinct entities that
    have transforms. *)
Lemma chase_and_catch_spec (dt : Q) (p e : nat) (ed : Editor.Editor2) (pt et : Transform) :
  p <> e ->
  component_at Transform p (Editor.world ed) = Some pt ->
  component_at Transform e (Editor.world ed) = Some et ->
  exists et',
    Editor.chase sqrtf dt pt et = Some et' /\ w et' = w et /\ h et' = h et /\
    Editor.chase_and_catch cfg sqrtf dt p e ed =
    Some (if aabbIntersect pt et' then after_catch cfg p (after_chase e et' ed)
          else after_chase e et' ed).
Proof.
  intros Hpe Hp He. assert (e <> p) as Hep by congruence.
  destruct (editor_chase_total sqrtf dt pt et) as (et' & Hc & Hw & Hh).
  exists et'. split; [exact Hc|]. split; [exact Hw|]. split; [exact Hh|].
  unfold Editor.chase_and_catch. rewrite Hp, He. cbn [mbind option_bind].
  rewrite Hc. cbn [mbind option_bind Editor.world Editor.with_world].
  rewrite (component_at_write_ne Transform e p) by done. rewrite Hp. cbn [mbind option_bind].
  rewrite component_at_write, He. cbn [mbind option_bind fmap option_fmap option_map].
  by destruct (aabbIntersect pt et').
Qed.

Lemma after_chase_lookup (e : nat) (et' : Transform) (ed : Editor.Editor2) (j : nat) :
  j <> e -> all (Editor.world (after_chase e et' ed)) !! j = all (Editor.world ed) !! j.
Proof.
  intros. unfold after_chase. cbn [Editor.world Editor.with_world].
  by apply all_at_entity_ne.
Qed.

Lemma after_catch_lookup (p : nat) (ed : Editor.Editor2) (j : nat) :
  j <> p -> all (Editor.world (after_catch cfg p ed)) !! j = all (Editor.world ed) !! j.
Proof.
  intros. unfold after_catch.
  cbn [Editor.world Editor.with_world Editor.with_score].
  by rewrite !all_at_entity_ne.
Qed.

Lemma after_catch_player (p : nat) (ed : Editor.Editor2) (pt : Transform) :
  component_at Transform p (Editor.world ed) = Some pt ->
  component_at Transform p (Editor.world (after_catch cfg p ed)) = Some (recentred cfg pt).
Proof.
  intros Hp. unfold after_catch.
  cbn [Editor.world Editor.with_world Editor.with_score].
  by rewrite !component_at_write, Hp.
Qed.

(** [update] while playing, phase by phase. *)
Lemma update_playing (dt : Q) (g : Rng) (ed : Editor.Editor2) :
  Editor.playing ed = true ->
  Editor.update cfg sqrtf dt g ed =
  (let ed := Editor.with_world (Editor.physics cfg dt (Editor.world ed)) ed in
   r ← Editor.find_roles (Editor.world ed);
   ed ← match Editor.player r, Editor.enemy r with
        | Some p, Some e => Editor.chase_and_catch cfg sqrtf dt p e ed
        | _, _ => Some ed
        end;
   match Editor.player r, Editor.target r with
   | Some p, Some t => Editor.pickup cfg p t g ed
   | _, _ => Some (ed, g)
   end).
Proof. intros E. unfold Editor.update. by rewrite E. Qed.


(** The loop gives an entity one role only. *)
Lemma roles_distinct (wd : World) (r : Editor.Roles) (k k' : Role) (i : nat) :
  Editor.find_roles wd = Some r ->
  role_in r k = Some i -> role_in r k' = Some i -> k = k'.
Proof.
  intros Hr Hk Hk'. eapply plays_functional; eapply find_roles_sound; eauto.
Qed.

Lemma role_has_transform (wd : World) (r : Editor.Roles) (k : Role) (i : nat) :
  Editor.find_roles wd = Some r -> role_in r k = Some i ->
  exists tr, component_at Transform i wd = Some tr /\ classify tr = k.
Proof.
  intros Hr Hk. destruct (find_roles_sound wd r k i Hr Hk) as (ent & tr & He & _ & Ht & Hc).
  exists tr. split; [|exact Hc]. unfold component_at. by rewrite He.
Qed.

(** A step of the editor in which the catch test succeeds. *)
Lemma editor_catch_step (dt : Q) (g : Rng) (ed : Editor.Editor2)
    (r : Editor.Roles) (p e : nat) (pt et et' : Transform) :
  Editor.playing ed = true ->
  let wd1 := Editor.physics cfg dt (Editor.world ed) in
  Editor.find_roles wd1 = Some r ->
  Editor.player r = Some p -> Editor.enemy r = Some e ->
  component_at Transform p wd1 = Some pt ->
  component_at Transform e wd1 = Some et ->
  Editor.chase sqrtf dt pt et = Some et' ->
  aabbIntersect pt et' = true ->
  rng_ok g ->
  exists ed1,
    Editor.chase_and_catch cfg sqrtf dt p e (Editor.with_world wd1 ed) = Some ed1 /\
    Editor.score ed1 = 0 /\
    component_at Transform p (Editor.world ed1) = Some (recentred cfg pt) /\
    component_at Transform e (Editor.world ed1) = Some et' /\
    (forall j, j <> p -> j <> e -> all (Editor.world ed1) !! j = all wd1 !! j) /\
    ((forall t tt, Editor.target r = Some t -> component_at Transform t wd1 = Some tt ->
        aabbIntersect (recentred cfg pt) tt = true ->
        to_int (w tt) < width cfg /\ to_int (h tt) < height cfg) ->
     exists ed' g',
       Editor.update cfg sqrtf dt g ed = Some (ed', g') /\
       component_at Transform p (Editor.world ed') = Some (recentred cfg pt) /\
       Editor.score ed' = (if picks_up r wd1 (recentred cfg pt) then 1 else 0) /\
       (forall j, Editor.target r <> Some j ->
          all (Editor.world ed') !! j = all (Editor.world ed1) !! j) /\
       (forall t, Editor.target r = Some t -> picks_up r wd1 (recentred cfg pt) = true ->
          exists tt tt',
            component_at Transform t wd1 = Some tt /\
            component_at Transform t (Editor.world ed') = Some tt' /\
            relocated_within cfg (draws g (cursor g)) (draws g (S (cursor g))) tt tt')).
Proof.
  intros Hplay wd1 Hr Hpr Her Hp He Hc Hhit Hg.
  assert (p <> e) as Hpe.
  { intros ->. by pose proof (roles_distinct wd1 r Player Enemy e Hr Hpr Her). }
  destruct (chase_and_catch_spec dt p e (Editor.with_world wd1 ed) pt et Hpe Hp He)
    as (et0 & Hc0 & _ & _ & Hcc).
  rewrite Hc in Hc0. injection Hc0 as <-. rewrite Hhit in Hcc.
  set (ed1 := after_catch cfg p (after_chase e et' (Editor.with_world wd1 ed))) in *.
  assert (component_at Transform p (Editor.world ed1) = Some (recentred cfg pt)) as Hp1.
  { apply after_catch_player. unfold after_chase.
    cbn [Editor.world Editor.with_world].
    rewrite (component_at_write_ne Transform e p) by congruence. exact Hp. }
  assert (forall j, j <> p -> all (Editor.world ed1) !! j
            = all (Editor.world (after_chase e et' (Editor.with_world wd1 ed))) !! j) as Hother.
  { intros j Hj. by apply after_catch_lookup. }
  assert (Editor.update cfg sqrtf dt g ed =
          match Editor.target r with
          | Some t => Editor.pickup cfg p t g ed1
          | None => Some (ed1, g)
          end) as Hup.
  { rewrite update_playing by done. cbn zeta.
    cbn [Editor.world Editor.with_world]. fold wd1. rewrite Hr.
    cbn [mbind option_bind]. rewrite Hpr, Her. fold wd1 in Hcc. rewrite Hcc.
    cbn [mbind option_bind]. reflexivity. }
  exists ed1. 
  assert (Editor.score ed1 = 0) as Hs1 by reflexivity.
  assert (component_at Transform e (Editor.world ed1) = Some et') as He1.
  { unfold component_at. rewrite Hother by congruence. unfold after_chase.
    cbn [Editor.world Editor.with_world].
    change (component_at Transform e
              (at_entity e (modify Transform (fun _ => et')) wd1) = Some et').
    by rewrite component_at_write, He. }
  assert (forall j, j <> p -> j <> e -> all (Editor.world ed1) !! j = all wd1 !! j) as Hrest.
  { intros j Hjp Hje. rewrite Hother by done. by rewrite after_chase_lookup. }
  split; [exact Hcc|]. split; [exact Hs1|]. split; [exact Hp1|].
  split; [exact He1|]. split; [exact Hrest|].
  intros Hfit. unfold picks_up. rewrite Hup.
  destruct (Editor.target r) as [t|] eqn:Htr.
  - destruct (role_has_transform wd1 r Target t Hr Htr) as (tt & Ht & _).
    assert (t <> p) as Htp.
    { intros ->. by pose proof (roles_distinct wd1 r Target Player p Hr Htr Hpr). }
    assert (t <> e) as Hte.
    { intros ->. by pose proof (roles_distinct wd1 r Target Enemy e Hr Htr Her). }
    assert (component_at Transform t (Editor.world ed1) = Some tt) as Ht1.
    { unfold component_at. rewrite Hrest by done. exact Ht. }
    rewrite Ht. destruct (aabbIntersect (recentred cfg pt) tt) eqn:Hpick.
    + destruct (Hfit t tt eq_refl Ht Hpick) as [Hw Hh].
      destruct (editor_pickup_hit cfg p t g ed1 (recentred cfg pt) tt Hp1 Ht1 Hpick Hg Hw Hh)
        as (ed' & g' & tt' & Hpk & Hsc & Ht' & Hrel & Hoth & _).
      exists ed', g'. split; [exact Hpk|].
      split; [|split; [|split]].
      * unfold component_at. rewrite Hoth by congruence. exact Hp1.
      * rewrite Hsc, Hs1. reflexivity.
      * intros j Hj. apply Hoth. congruence.
      * intros t0 [= <-] _. by exists tt, tt'.
    + rewrite (editor_pickup_miss cfg p t g ed1 (recentred cfg pt) tt Hp1 Ht1 Hpick).
      exists ed1, g. repeat split; auto. intros t0 _ [=].
  - exists ed1, g. repeat split; auto. intros t0 [=].
Qed.

End StepFacts.

(** ** Bounds after a step *)

Lemma to_int_le q : (0 <= q)%Q -> (inject_Z (to_int q) <= q)%Q.
Proof.
  destruct q as [n d]. unfold to_int, Qle. simpl. intros Hn.
  pose proof (Z.quot_rem' n (Z.pos d)) as E.
  pose proof (Z.rem_bound_pos n (Z.pos d) ltac:(lia) ltac:(lia)). nia.
Qed.

Lemma smaller_to_int (cfg : EngineConfig) (tr : Transform) :
  smaller cfg tr -> to_int (w tr) < width cfg /\ to_int (h tr) < height cfg.
Proof.
  intros (Hw0 & Hw & Hh0 & Hh).
  pose proof (to_int_le (w tr) Hw0). pose proof (to_int_le (h tr) Hh0).
  split; rewrite Zlt_Qlt; lra.
Qed.

Lemma component_at_Some (T : Type) `{Kind T} (i : nat) (wd : World) (t : T) :
  component_at T i wd = Some t <->
  exists ent, all wd !! i = Some ent /\ getComponent T ent = Some t.
Proof.
  unfold component_at. destruct (all wd !! i) as [ent|]; simpl.
  - split; [eauto|]. by intros (ent' & [= <-] & ?).
  - split; [discriminate|]. by intros (ent' & [=] & ?).
Qed.

Section StepBounds.
Variable cfg : EngineConfig.
Variable sqrtf : Q -> Q.

Lemma component_at_physics_transform (dt : Q) (wd : World) (i : nat) :
  component_at Transform i (Editor.physics cfg dt wd) =
  match component_at Velocity i wd with
  | Some v => Editor.move cfg dt v <$> component_at Transform i wd
  | None => component_at Transform i wd
  end.
Proof.
  unfold component_at. rewrite all_physics.
  destruct (all wd !! i) as [ent|]; simpl; [|reflexivity].
  rewrite editor_integrate_transform. by destruct (getComponent Velocity ent).
Qed.

Lemma component_at_physics_other (U : Type) `{Kind U} (dt : Q) (wd : World) (i : nat) :
  unrelated Transform U ->
  component_at U i (Editor.physics cfg dt wd) = component_at U i wd.
Proof.
  intros HU. unfold component_at. rewrite all_physics.
  destruct (all wd !! i) as [ent|]; simpl; [|reflexivity].
  by apply editor_integrate_other.
Qed.

(** After the integration loop an entity with a velocity is in the world. *)
Lemma physics_clamps (dt : Q) (wd : World) (i : nat) (tr : Transform) :
  component_at Transform i (Editor.physics cfg dt wd) = Some tr ->
  is_Some (component_at Velocity i (Editor.physics cfg dt wd)) ->
  (w tr <= inject_Z (width cfg))%Q -> (h tr <= inject_Z (height cfg))%Q ->
  in_bounds cfg tr.
Proof.
  rewrite component_at_physics_transform.
  rewrite component_at_physics_other by auto with ecs.
  intros Ht [v Hv] Hw Hh. rewrite Hv in Ht.
  destruct (component_at Transform i wd) as [tr0|]; simpl in Ht; [|discriminate].
  injection Ht as <-.
  destruct (editor_move_size cfg dt v tr0) as [Ew Eh]. rewrite Ew in Hw. rewrite Eh in Hh.
  by apply editor_move_in_bounds.
Qed.

Lemma physics_keeps_size (dt : Q) (wd : World) (i : nat) (tr : Transform) :
  component_at Transform i (Editor.physics cfg dt wd) = Some tr ->
  exists tr0, component_at Transform i wd = Some tr0 /\ w tr = w tr0 /\ h tr = h tr0.
Proof.
  rewrite component_at_physics_transform.
  destruct (component_at Velocity i wd) as [v|];
    destruct (component_at Transform i wd) as [tr0|]; simpl; try discriminate.
  - intros [= <-]. exists tr0. destruct (editor_move_size cfg dt v tr0). auto.
  - intros [= <-]. eauto.
Qed.

Lemma physics_keeps_sprites (dt : Q) (wd : World) :
  sprites_have_transforms (all wd) ->
  sprites_have_transforms (all (Editor.physics cfg dt wd)).
Proof.
  unfold sprites_have_transforms, Editor.physics, all; simpl.
  intros Hl. apply Forall_fmap. eapply Forall_impl; [exact Hl|].
  intros ent Hent. simpl. rewrite editor_integrate_other by auto with ecs.
  intros Hs. specialize (Hent Hs). rewrite editor_integrate_transform.
  destruct Hent as [tr ->]. destruct (getComponent Velocity ent); by eexists.
Qed.


(** What the chase and catch block leaves alone: every velocity, every
    size, and the transforms of all but the enemy and a player put back. *)
Lemma chase_and_catch_frame (dt : Q) (p e : nat) (ed : Editor.Editor2) (pt et : Transform) :
  p <> e ->
  component_at Transform p (Editor.world ed) = Some pt ->
  component_at Transform e (Editor.world ed) = Some et ->
  exists ed1,
    Editor.chase_and_catch cfg sqrtf dt p e ed = Some ed1 /\
    (forall i, component_at Velocity i (Editor.world ed1)
               = component_at Velocity i (Editor.world ed)) /\
    (forall i, i <> e ->
       component_at Transform i (Editor.world ed1)
       = component_at Transform i (Editor.world ed) \/
       (i = p /\ component_at Transform i (Editor.world ed1) = Some (recentred cfg pt))) /\
    (forall i tr1, component_at Transform i (Editor.world ed1) = Some tr1 ->
       exists tr0, component_at Transform i (Editor.world ed) = Some tr0 /\
                   w tr1 = w tr0 /\ h tr1 = h tr0).
Proof.
  intros Hpe Hp He. assert (e <> p) as Hep by congruence.
  destruct (chase_and_catch_spec cfg sqrtf dt p e ed pt et Hpe Hp He)
    as (et' & _ & Hw & Hh & ->).
  assert (forall i, component_at Velocity i (Editor.world (after_chase e et' ed))
            = component_at Velocity i (Editor.world ed)) as HV1.
  { intros i. unfold after_chase. cbn [Editor.world Editor.with_world].
    apply component_at_write_other. auto with ecs. }
  assert (forall i, i <> e ->
            component_at Transform i (Editor.world (after_chase e et' ed))
            = component_at Transform i (Editor.world ed)) as HT1.
  { intros i Hi. unfold after_chase. cbn [Editor.world Editor.with_world].
    by apply component_at_write_ne. }
  assert (component_at Transform e (Editor.world (after_chase e et' ed)) = Some et') as HE1.
  { unfold after_chase. cbn [Editor.world Editor.with_world].
    by rewrite component_at_write, He. }
  assert (forall i tr1,
            component_at Transform i (Editor.world (after_chase e et' ed)) = Some tr1 ->
            exists tr0, component_at Transform i (Editor.world ed) = Some tr0 /\
                        w tr1 = w tr0 /\ h tr1 = h tr0) as HS1.
  { intros i tr1 Hi. destruct (decide (i = e)) as [->|Hie].
    - rewrite HE1 in Hi. injection Hi as <-. eauto.
    - rewrite HT1 in Hi by done. eauto. }
  destruct (aabbIntersect pt et'); eexists; (split; [reflexivity|]).
  - set (ed1 := after_chase e et' ed) in *.
    assert (forall i, i <> p ->
              component_at Transform i (Editor.world (after_catch cfg p ed1))
              = component_at Transform i (Editor.world ed1)) as HT2.
    { intros i Hi. unfold component_at. by rewrite after_catch_lookup. }
    assert (component_at Transform p (Editor.world (after_catch cfg p ed1))
            = Some (recentred cfg pt)) as HP2.
    { apply after_catch_player. rewrite HT1 by done. exact Hp. }
    split; [|split].
    + intros i. rewrite <- HV1. unfold after_catch.
      cbn [Editor.world Editor.with_world Editor.with_score].
      by rewrite !component_at_write_other by apply unrelated_Transform_Velocity.
    + intros i Hie. destruct (decide (i = p)) as [->|Hip].
      * right. by split.
      * left. rewrite HT2 by done. by apply HT1.
    + intros i tr1 Hi. destruct (decide (i = p)) as [->|Hip].
      * rewrite HP2 in Hi. injection Hi as <-. exists pt. by repeat split.
      * rewrite HT2 in Hi by done. by apply HS1.
  - split; [exact HV1|]. split; [|exact HS1].
    intros i Hie. left. by apply HT1.
Qed.


(** The bounds after one step of the editor. *)
Lemma editor_step_bounds (dt : Q) (g : Rng) (ed : Editor.Editor2) :
  Editor.playing ed = true -> rng_ok g ->
  sprites_have_transforms (all (Editor.world ed)) ->
  (forall i tr, component_at Transform i (Editor.world ed) = Some tr -> smaller cfg tr) ->
  exists ed' g' r,
    Editor.update cfg sqrtf dt g ed = Some (ed', g') /\
    Editor.find_roles (Editor.physics cfg dt (Editor.world ed)) = Some r /\
    forall i tr,
      component_at Transform i (Editor.world ed') = Some tr ->
      is_Some (component_at Velocity i (Editor.world ed')) ->
      in_bounds cfg tr \/ Editor.enemy r = Some i \/
      (Editor.player r = Some i /\ x tr = inject_Z (Editor.center_x cfg) /\
       y tr = inject_Z (Editor.center_y cfg)).
Proof.
  intros Hplay Hg Hspr Hsmall.
  set (wd1 := Editor.physics cfg dt (Editor.world ed)).
  destruct (find_roles_from_total (all wd1) O Editor.no_roles
              (physics_keeps_sprites dt _ Hspr)) as [r Hr].
  change (Editor.find_roles wd1 = Some r) in Hr.
  assert (forall i tr1, component_at Transform i wd1 = Some tr1 -> smaller cfg tr1) as Hsmall1.
  { intros i tr1 Hi. destruct (physics_keeps_size dt _ i tr1 Hi) as (tr0 & H0 & Hw & Hh).
    specialize (Hsmall i tr0 H0). unfold smaller in *. by rewrite Hw, Hh. }
  assert (forall i tr1, component_at Transform i wd1 = Some tr1 ->
            is_Some (component_at Velocity i wd1) -> in_bounds cfg tr1) as Hclamped.
  { intros i tr1 Hi Hv. destruct (Hsmall1 i tr1 Hi) as (_ & ? & _ & ?).
    apply (physics_clamps dt (Editor.world ed) i); auto; lra. }
  (* the chase and the catch test *)
  assert (exists ed1,
    match Editor.player r, Editor.enemy r with
    | Some p, Some e => Editor.chase_and_catch cfg sqrtf dt p e (Editor.with_world wd1 ed)
    | _, _ => Some (Editor.with_world wd1 ed)
    end = Some ed1 /\
    (forall i, component_at Velocity i (Editor.world ed1) = component_at Velocity i wd1) /\
    (forall i, Editor.enemy r <> Some i ->
       component_at Transform i (Editor.world ed1) = component_at Transform i wd1 \/
       (Editor.player r = Some i /\ exists pt,
          component_at Transform i (Editor.world ed1) = Some (recentred cfg pt))) /\
    (forall i tr1, component_at Transform i (Editor.world ed1) = Some tr1 ->
       exists tr0, component_at Transform i wd1 = Some tr0 /\
                   w tr1 = w tr0 /\ h tr1 = h tr0))
    as (ed1 & Hphase2 & HV & HT & HS).
  { destruct (Editor.player r) as [p|] eqn:Hpr; [destruct (Editor.enemy r) as [e|] eqn:Her|].
    - assert (p <> e) as Hpe.
      { intros ->. by pose proof (roles_distinct wd1 r Player Enemy e Hr Hpr Her). }
      destruct (role_has_transform wd1 r Player p Hr Hpr) as (pt & Hp & _).
      destruct (role_has_transform wd1 r Enemy e Hr Her) as (et & He & _).
      destruct (chase_and_catch_frame dt p e (Editor.with_world wd1 ed) pt et Hpe Hp He)
        as (ed1 & Hcc & HV & HT & HS).
      exists ed1. split; [exact Hcc|]. split; [exact HV|]. split; [|exact HS].
      intros i Hi. destruct (HT i ltac:(congruence)) as [?|[-> ?]]; [by left|].
      right. split; [reflexivity|]. by exists pt.
    - exists (Editor.with_world wd1 ed). repeat split; eauto.
    - exists (Editor.with_world wd1 ed). repeat split; eauto. }
  (* the pickup test *)
  assert (exists ed' g',
    match Editor.player r, Editor.target r with
    | Some p, Some t => Editor.pickup cfg p t g ed1
    | _, _ => Some (ed1, g)
    end = Some (ed', g') /\
    (forall i, component_at Velocity i (Editor.world ed')
               = component_at Velocity i (Editor.world ed1)) /\
    (forall i tr, component_at Transform i (Editor.world ed') = Some tr ->
       component_at Transform i (Editor.world ed1) = Some tr \/ in_bounds cfg tr))
    as (ed' & g' & Hphase3 & HV' & HT').
  { destruct (Editor.player r) as [p|] eqn:Hpr; [destruct (Editor.target r) as [t|] eqn:Htr|].
    - assert (exists pt1, component_at Transform p (Editor.world ed1) = Some pt1) as [pt1 Hp1].
      { destruct (role_has_transform wd1 r Player p Hr Hpr) as (pt & Hp & _).
        destruct (decide (Editor.enemy r = Some p)) as [Hen|Hen].
        - by pose proof (roles_distinct wd1 r Player Enemy p Hr Hpr Hen).
        - destruct (HT p Hen) as [->|[_ [pt0 ->]]]; eauto. }
      assert (exists tt1, component_at Transform t (Editor.world ed1) = Some tt1 /\
                          smaller cfg tt1) as (tt1 & Ht1 & Hsm).
      { destruct (role_has_transform wd1 r Target t Hr Htr) as (tt0 & Ht & _).
        destruct (decide (Editor.enemy r = Some t)) as [Hen|Hen].
        - by pose proof (roles_distinct wd1 r Target Enemy t Hr Htr Hen).
        - destruct (HT t Hen) as [E|[E _]].
          + rewrite Ht in E. exists tt0. split; [exact E|]. by apply (Hsmall1 t).
          + injection E as ->.
            by pose proof (roles_distinct wd1 r Target Player t Hr Htr Hpr). }
      destruct (aabbIntersect pt1 tt1) eqn:Hpick.
      + destruct (smaller_to_int cfg tt1 Hsm) as [Hw Hh].
        destruct (editor_pickup_hit cfg p t g ed1 pt1 tt1 Hp1 Ht1 Hpick Hg Hw Hh)
          as (ed' & g' & tt' & Hpk & _ & Ht' & Hrel & Hoth & _ & _ & _ & _ & HV').
        exists ed', g'. split; [exact Hpk|]. split; [exact HV'|].
        intros i tr Hi. destruct (decide (i = t)) as [->|Hit].
        * right. rewrite Ht' in Hi. injection Hi as <-. apply Hrel.
        * left. unfold component_at in *. by rewrite <- Hoth.
      + rewrite (editor_pickup_miss cfg p t g ed1 pt1 tt1 Hp1 Ht1 Hpick).
        exists ed1, g. repeat split; auto.
    - exists ed1, g. repeat split; auto.
    - exists ed1, g. repeat split; auto. }
  exists ed', g', r. split; [|split; [exact Hr|]].
  { rewrite update_playing by done. cbn zeta.
    cbn [Editor.world Editor.with_world]. fold wd1. rewrite Hr.
    cbn [mbind option_bind]. rewrite Hphase2. cbn [mbind option_bind]. exact Hphase3. }
  intros i tr Hi Hv.
  destruct (HT' i tr Hi) as [Hi1|Hin]; [|by left].
  destruct (decide (Editor.enemy r = Some i)) as [Hen|Hen]; [by right; left|].
  destruct (HT i Hen) as [E|[Hpl [pt E]]].
  - left. apply (Hclamped i tr); [congruence|]. by rewrite <- HV, <- HV'.
  - right. right. split; [exact Hpl|]. rewrite E in Hi1. by injection Hi1 as <-.
Qed.

End StepBounds.

(** ** What a step leaves alone *)

Lemma same_shape_refl (wd : World) : same_shape wd wd.
Proof. by split. Qed.

Lemma same_shape_trans (wd1 wd2 wd3 : World) :
  same_shape wd1 wd2 -> same_shape wd2 wd3 -> same_shape wd1 wd3.
Proof.
  intros [L12 H12] [L23 H23]. split; [congruence|].
  intros i. destruct (H12 i) as (? & ? & ?), (H23 i) as (? & ? & ?).
  repeat split; congruence.
Qed.

Lemma same_shape_write (j : nat) (f : Transform -> Transform) (wd : World) :
  (forall t, component_at Transform j wd = Some t -> size_of (f t) = size_of t) ->
  same_shape wd (at_entity j (modify Transform f) wd).
Proof.
  intros Hf. split.
  - unfold all, at_entity; simpl. apply length_alter.
  - intros i. split; [|split].
    + apply component_at_write_other, unrelated_Transform_Sprite.
    + apply component_at_write_other, unrelated_Transform_Velocity.
    + destruct (decide (j = i)) as [->|Hji].
      * rewrite component_at_write.
        destruct (component_at Transform i wd) as [t|] eqn:Et; simpl; [|reflexivity].
        by rewrite Hf.
      * by rewrite component_at_write_ne.
Qed.

Section ShapeFacts.
Variable cfg : EngineConfig.
Variable sqrtf : Q -> Q.

Lemma same_shape_physics (dt : Q) (wd : World) :
  same_shape wd (Editor.physics cfg dt wd).
Proof.
  split.
  - unfold Editor.physics, all; simpl. apply length_fmap.
  - intros i. split; [|split].
    + apply component_at_physics_other, unrelated_Transform_Sprite.
    + apply component_at_physics_other, unrelated_Transform_Velocity.
    + rewrite component_at_physics_transform.
      destruct (component_at Velocity i wd) as [v|]; [|reflexivity].
      destruct (component_at Transform i wd) as [t|]; simpl; [|reflexivity].
      unfold size_of. by destruct (editor_move_size cfg dt v t) as [-> ->].
Qed.

Lemma same_shape_chase_and_catch (dt : Q) (p e : nat) (ed ed1 : Editor.Editor2) :
  Editor.chase_and_catch cfg sqrtf dt p e ed = Some ed1 ->
  same_shape (Editor.world ed) (Editor.world ed1) /\
  Editor.playing ed1 = Editor.playing ed.
Proof.
  unfold Editor.chase_and_catch.
  destruct (component_at Transform p (Editor.world ed)) as [pt|]; [|discriminate].
  destruct (component_at Transform e (Editor.world ed)) as [et|] eqn:He; [|discriminate].
  cbn [mbind option_bind].
  destruct (editor_chase_total sqrtf dt pt et) as (et' & -> & Hw & Hh).
  cbn [mbind option_bind Editor.world Editor.with_world].
  set (wd1 := at_entity e (modify Transform (fun _ => et')) (Editor.world ed)).
  assert (same_shape (Editor.world ed) wd1) as H1.
  { apply same_shape_write. intros t Ht. rewrite He in Ht. injection Ht as <-.
    unfold size_of. by rewrite Hw, Hh. }
  destruct (component_at Transform p wd1) as [pt1|]; [|discriminate].
  destruct (component_at Transform e wd1) as [et1|]; [|discriminate].
  cbn [mbind option_bind].
  destruct (aabbIntersect pt1 et1); intros [= <-]; (split; [|reflexivity]).
  - cbn [Editor.world Editor.with_world Editor.with_score].
    eapply same_shape_trans; [exact H1|].
    eapply same_shape_trans; by apply same_shape_write.
  - exact H1.
Qed.

Lemma rand_below_draws (n : Z) (g g' : Rng) (v : Z) :
  rand_below n g = Some (v, g') -> draws g' = draws g.
Proof.
  unfold rand_below, rand. destruct (imod (draws g (cursor g)) n); simpl; [|discriminate].
  by intros [= _ <-].
Qed.

Lemma same_shape_pickup (p t : nat) (g g' : Rng) (ed ed' : Editor.Editor2) :
  Editor.pickup cfg p t g ed = Some (ed', g') ->
  same_shape (Editor.world ed) (Editor.world ed') /\
  Editor.playing ed' = Editor.playing ed /\ draws g' = draws g.
Proof.
  unfold Editor.pickup.
  destruct (component_at Transform p (Editor.world ed)) as [pt|]; [|discriminate].
  destruct (component_at Transform t (Editor.world ed)) as [tt|] eqn:Ht; [|discriminate].
  cbn [mbind option_bind].
  destruct (aabbIntersect pt tt).
  - cbn [mbind option_bind Editor.world Editor.with_world Editor.with_score].
    rewrite Ht. cbn [mbind option_bind].
    destruct (rand_below (width cfg - to_int (w tt)) g) as [[r1 g1]|] eqn:E1; [|discriminate].
    cbn [mbind option_bind Editor.world Editor.with_world].
    rewrite component_at_write, Ht.
    cbn [fmap option_fmap option_map mbind option_bind].
    destruct (rand_below _ g1) as [[r2 g2]|] eqn:E2; [|discriminate].
    cbn [mbind option_bind Editor.world Editor.with_world].
    intros [= <- <-]. cbn [Editor.world Editor.playing Editor.with_world].
    split; [|split; [reflexivity|]].
    + eapply same_shape_trans; by apply same_shape_write.
    + apply rand_below_draws in E1, E2. congruence.
  - intros [= <- <-]. split; [apply same_shape_refl|]. by split.
Qed.

(** A step moves entities and changes nothing else of the world. *)
Lemma same_shape_update (dt : Q) (g g' : Rng) (ed ed' : Editor.Editor2) :
  Editor.update cfg sqrtf dt g ed = Some (ed', g') ->
  same_shape (Editor.world ed) (Editor.physics cfg dt (Editor.world ed)) /\
  (Editor.playing ed = true ->
   same_shape (Editor.physics cfg dt (Editor.world ed)) (Editor.world ed')) /\
  same_shape (Editor.world ed) (Editor.world ed') /\
  Editor.playing ed' = Editor.playing ed /\ draws g' = draws g.
Proof.
  intros Hup. split; [apply same_shape_physics|].
  destruct (Editor.playing ed) eqn:Hplay.
  - rewrite update_playing in Hup by done. cbn zeta in Hup.
    cbn [Editor.world Editor.with_world] in Hup.
    set (wd1 := Editor.physics cfg dt (Editor.world ed)) in *.
    destruct (Editor.find_roles wd1) as [r|]; [|discriminate].
    cbn [mbind option_bind] in Hup.
    assert (exists ed1,
      match Editor.player r, Editor.enemy r with
      | Some p, Some e => Editor.chase_and_catch cfg sqrtf dt p e (Editor.with_world wd1 ed)
      | _, _ => Some (Editor.with_world wd1 ed)
      end = Some ed1 /\ same_shape wd1 (Editor.world ed1) /\
      Editor.playing ed1 = true) as (ed1 & E1 & Hs1 & Hp1).
    { destruct (Editor.player r) as [p|]; [destruct (Editor.enemy r) as [e|]|].
      - destruct (Editor.chase_and_catch cfg sqrtf dt p e (Editor.with_world wd1 ed))
          as [ed1|] eqn:Ecc; [|discriminate].
        apply same_shape_chase_and_catch in Ecc as [? ?]. exists ed1.
        split; [reflexivity|]. split; [done|]. cbn in *. congruence.
      - exists (Editor.with_world wd1 ed). split; [reflexivity|]. split; [apply same_shape_refl|done].
      - exists (Editor.with_world wd1 ed). split; [reflexivity|]. split; [apply same_shape_refl|done]. }
    rewrite E1 in Hup. cbn [mbind option_bind] in Hup.
    assert (same_shape (Editor.world ed1) (Editor.world ed') /\
            Editor.playing ed' = Editor.playing ed1 /\ draws g' = draws g) as (Hs2 & Hp2 & Hd).
    { destruct (Editor.player r) as [p|]; [destruct (Editor.target r) as [t|]|].
      - by apply same_shape_pickup in Hup.
      - injection Hup as <- <-. split; [apply same_shape_refl|]. by split.
      - injection Hup as <- <-. split; [apply same_shape_refl|]. by split. }
    assert (same_shape wd1 (Editor.world ed')) by (eapply same_shape_trans; eauto).
    split; [done|]. split; [|split; congruence].
    eapply same_shape_trans; [apply same_shape_physics|]. done.
  - rewrite update_paused in Hup by done. injection Hup as <- <-.
    split; [discriminate|]. split; [apply same_shape_refl|]. by split.
Qed.

End ShapeFacts.

Lemma component_at_lookup (T : Type) `{Kind T} (i : nat) (wd : World) (ent : Entity) :
  all wd !! i = Some ent -> component_at T i wd = getComponent T ent.
Proof. intros He. unfold component_at. by rewrite He. Qed.

Lemma same_shape_entities (wd wd' : World) :
  same_shape wd wd' ->
  Forall2 (fun e e' =>
             getComponent Sprite e' = getComponent Sprite e /\
             size_of <$> getComponent Transform e' = size_of <$> getComponent Transform e)
    (all wd) (all wd').
Proof.
  intros [Hlen Hshape]. apply Forall2_same_length_lookup. split; [done|].
  intros i e e' He He'. destruct (Hshape i) as (Hs & _ & Ht).
  rewrite (component_at_lookup Sprite i wd e He),
    (component_at_lookup Sprite i wd' e' He') in Hs.
  rewrite (component_at_lookup Transform i wd e He),
    (component_at_lookup Transform i wd' e' He') in Ht.
  by split.
Qed.

(** The role loop looks at sprites and widths only. *)
Lemma find_roles_shape (wd wd' : World) :
  same_shape wd wd' -> Editor.find_roles wd' = Editor.find_roles wd.
Proof.
  intros Hs. apply same_shape_entities in Hs. unfold Editor.find_roles.
  generalize Editor.no_roles. generalize O.
  induction Hs as [|e e' l l' [Hsp Htr] _ IH]; intros i r; simpl; [reflexivity|].
  rewrite Hsp. destruct (getComponent Sprite e); [|apply IH].
  destruct (getComponent Transform e') as [t'|], (getComponent Transform e) as [t|];
    simpl in *; try discriminate; [|reflexivity].
  injection Htr as -> _. apply IH.
Qed.

Lemma sprites_have_transforms_shape (wd wd' : World) :
  same_shape wd wd' ->
  sprites_have_transforms (all wd) -> sprites_have_transforms (all wd').
Proof.
  intros Hs Hl. apply same_shape_entities in Hs. unfold sprites_have_transforms in *.
  induction Hs as [|e e' l l' [Hsp Htr] _ IH]; [constructor|].
  apply Forall_cons in Hl as [He Hl]. constructor; [|by apply IH].
  rewrite Hsp. intros Hs'. specialize (He Hs'). destruct He as [t Ht].
  rewrite Ht in Htr. destruct (getComponent Transform e'); [by eexists|discriminate].
Qed.

Lemma smaller_shape (cfg : EngineConfig) (wd wd' : World) :
  same_shape wd wd' ->
  (forall i tr, component_at Transform i wd = Some tr -> smaller cfg tr) ->
  (forall i tr, component_at Transform i wd' = Some tr -> smaller cfg tr).
Proof.
  intros [_ Hs] Hsm i tr' Hi. destruct (Hs i) as (_ & _ & Ht). rewrite Hi in Ht.
  destruct (component_at Transform i wd) as [tr|] eqn:E; [|discriminate].
  injection Ht as Hw Hh. specialize (Hsm i tr E). unfold smaller in *.
  by rewrite Hw, Hh.
Qed.

Section Steps.
Variable cfg : EngineConfig.
Variable sqrtf : Q -> Q.

(** The bounds after any number of steps of the editor. *)
Lemma editor_steps_bounds (dts : list Q) : forall (g : Rng) (ed : Editor.Editor2),
  Editor.playing ed = true -> rng_ok g ->
  sprites_have_transforms (all (Editor.world ed)) ->
  (forall i tr, component_at Transform i (Editor.world ed) = Some tr -> smaller cfg tr) ->
  exists ed' g',
    Editor.steps cfg sqrtf dts g ed = Some (ed', g') /\
    Editor.playing ed' = true /\
    (dts <> [] ->
     exists r,
       Editor.find_roles (Editor.world ed') = Some r /\
       forall i tr,
         component_at Transform i (Editor.world ed') = Some tr ->
         is_Some (component_at Velocity i (Editor.world ed')) ->
         in_bounds cfg tr \/ Editor.enemy r = Some i \/
         (Editor.player r = Some i /\ x tr = inject_Z (Editor.center_x cfg) /\
          y tr = inject_Z (Editor.center_y cfg))).
Proof.
  induction dts as [|dt dts IH]; intros g ed Hplay Hg Hspr Hsm.
  - exists ed, g. by repeat split.
  - destruct (editor_step_bounds cfg sqrtf dt g ed Hplay Hg Hspr Hsm)
      as (ed1 & g1 & r & Hup & Hr & Hb).
    destruct (same_shape_update cfg sqrtf dt g g1 ed ed1 Hup)
      as (_ & Hs1 & Hs & Hp1 & Hd).
    specialize (Hs1 Hplay).
    assert (Editor.playing ed1 = true) as Hplay1 by congruence.
    assert (rng_ok g1) as Hg1 by (intros n; rewrite Hd; apply Hg).
    destruct (IH g1 ed1 Hplay1 Hg1
                (sprites_have_transforms_shape _ _ Hs Hspr)
                (smaller_shape cfg _ _ Hs Hsm)) as (ed' & g' & Hsteps & Hplay' & Hcl).
    exists ed', g'. cbn [Editor.steps]. rewrite Hup. cbn [mbind option_bind].
    split; [exact Hsteps|]. split; [exact Hplay'|]. intros _.
    destruct dts as [|dt' dts'].
    + cbn [Editor.steps] in Hsteps. injection Hsteps as <- <-.
      exists r. split; [|exact Hb]. rewrite (find_roles_shape _ _ Hs1). exact Hr.
    + by apply Hcl.
Qed.

End Steps.

(** ** The engine's step *)

Section EngineStep.
Variable cfg : EngineConfig.

Lemma engine_clamp_editor (tr : Transform) : Engine.clamp cfg tr = Editor.clamp cfg tr.
Proof. reflexivity. Qed.

Lemma engine_move_in_bounds (v : Velocity) (tr : Transform) :
  (w tr <= inject_Z (width cfg))%Q -> (h tr <= inject_Z (height cfg))%Q ->
  in_bounds cfg (Engine.move cfg v tr).
Proof. intros. unfold Engine.move. rewrite engine_clamp_editor. by apply editor_clamp_in_bounds. Qed.

Lemma engine_move_size (v : Velocity) (tr : Transform) :
  w (Engine.move cfg v tr) = w tr /\ h (Engine.move cfg v tr) = h tr.
Proof.
  unfold Engine.move. rewrite engine_clamp_editor.
  destruct (editor_clamp_size cfg (with_y (y (with_x (x tr + vx v) tr) + vy v)
                                     (with_x (x tr + vx v) tr))) as (-> & -> & _).
  auto.
Qed.

(** After [physicsSystem] an entity with a velocity is in the world. *)
Lemma physicsSystem_clamps (wd : World) (i : nat) (tr : Transform) :
  component_at Transform i (Engine.physicsSystem cfg wd) = Some tr ->
  is_Some (component_at Velocity i (Engine.physicsSystem cfg wd)) ->
  (w tr <= inject_Z (width cfg))%Q -> (h tr <= inject_Z (height cfg))%Q ->
  in_bounds cfg tr.
Proof.
  unfold component_at, Engine.physicsSystem, all; simpl. rewrite list_lookup_fmap.
  destruct (entities wd !! i) as [ent|]; simpl; [|discriminate].
  unfold Engine.integrate.
  destruct (getComponent Transform ent) as [tr0|] eqn:Et;
    destruct (getComponent Velocity ent) as [v|] eqn:Ev.
  - rewrite get_modify, Et. simpl. intros [= <-] _ Hw Hh.
    destruct (engine_move_size v tr0) as [Ew Eh]. rewrite Ew in Hw. rewrite Eh in Hh.
    by apply engine_move_in_bounds.
  - rewrite Ev. by intros _ [? [=]].
  - rewrite Et. discriminate.
  - rewrite Et. discriminate.
Qed.

(** The engine's catch block when the test succeeds. *)
Lemma engine_catch_reset_hit (g : Rng) (d : Engine.Demo) (pt et : Transform) :
  Engine.component_of Transform (Engine.player d) (Engine.world d) = Some pt ->
  Engine.component_of Transform (Engine.enemy d) (Engine.world d) = Some et ->
  Engine.player d <> Engine.enemy d ->
  aabbIntersect pt et = true ->
  rng_ok g ->
  to_int (w et) < width cfg -> to_int (h et) < height cfg ->
  exists d' g' pt' et',
    Engine.catch_reset cfg g d = Some (d', g') /\
    Engine.score d' = 0 /\
    Engine.component_of Transform (Engine.player d) (Engine.world d') = Some pt' /\
    pt' = with_y (inject_Z (Z.quot (height cfg) 2))
            (with_x (inject_Z (width cfg) / 2)%Q pt) /\
    Engine.component_of Transform (Engine.enemy d) (Engine.world d') = Some et' /\
    relocated_within cfg (draws g (cursor g)) (draws g (S (cursor g))) et et'.
Proof.
  intros Hp He Hne Hhit Hg Hw Hh.
  unfold Engine.catch_reset. rewrite Hp, He. cbn [mbind option_bind]. rewrite Hhit.
  cbv zeta.
  set (d1 := Engine.with_world _ (Engine.with_world _ (Engine.with_score 0 d))).
  assert (Engine.component_of Transform (Engine.enemy d1) (Engine.world d1) = Some et) as He1.
  { subst d1. cbn [Engine.world Engine.with_world Engine.with_score Engine.enemy Engine.player].
    rewrite !component_of_write_ne by done. exact He. }
  assert (Engine.component_of Transform (Engine.player d) (Engine.world d1)
          = Some (with_y (inject_Z (Z.quot (height cfg) 2))
                    (with_x (inject_Z (width cfg) / 2)%Q pt))) as Hp1.
  { subst d1. cbn [Engine.world Engine.with_world Engine.with_score Engine.enemy Engine.player].
    by rewrite !component_of_write, Hp. }
  destruct (engine_relocate_ok cfg (Engine.enemy d1) g d1 et He1 Hg Hw Hh)
    as (d2 & g2 & et' & E2 & Het' & Hrel & Hother & Hs & _).
  rewrite E2. eexists d2, g2, _, et'.
  split; [reflexivity|]. split; [by rewrite Hs|].
  split; [rewrite Hother by (intros E; apply Hne; symmetry; exact E); exact Hp1|]. split; [reflexivity|].
  split; [exact Het'|exact Hrel].
Qed.

End EngineStep.

(** ** Claims on the simulation step *)

Lemma rng_ok_replay (l : list Z) : Forall (fun r => 0 <= r) l -> rng_ok (replay l).
Proof.
  intros Hl n. unfold replay; simpl. revert n.
  induction Hl as [|r l Hr _ IH]; intros [|n]; simpl; auto; lia.
Qed.

(** C1 (as amended). Only the velocity integration clamps. In the editor,
    in a world whose transforms are smaller than the world and where no
    sprite lacks a transform, any number of steps while playing succeed,
    and after the last of them every entity that has a [Transform] and a
    [Velocity] lies inside [0, width] x [0, height], unless that step moved
    it after the clamp: as the enemy of the chase, which is not clamped, or
    as the player put back at (width/2 - 32, height/2 - 32). In both files
    the integration loop leaves every entity with a [Transform] and a
    [Velocity] that fits the world inside it. *)
Theorem clamp_keeps_velocity_entities_in_bounds (cfg : EngineConfig) (sqrtf : Q -> Q) :
  (forall (dts : list Q) (g : Rng) (ed : Editor.Editor2),
     dts <> [] ->
     Editor.playing ed = true -> rng_ok g ->
     sprites_have_transforms (all (Editor.world ed)) ->
     (forall i tr, component_at Transform i (Editor.world ed) = Some tr ->
                   smaller cfg tr) ->
     exists ed' g' r,
       Editor.steps cfg sqrtf dts g ed = Some (ed', g') /\
       Editor.find_roles (Editor.world ed') = Some r /\
       forall i tr,
         component_at Transform i (Editor.world ed') = Some tr ->
         is_Some (component_at Velocity i (Editor.world ed')) ->
         in_bounds cfg tr \/ Editor.enemy r = Some i \/
         (Editor.player r = Some i /\ x tr = inject_Z (Editor.center_x cfg) /\
          y tr = inject_Z (Editor.center_y cfg))) /\
  (forall (dt : Q) (wd : World) (i : nat) (tr : Transform),
     component_at Transform i (Editor.physics cfg dt wd) = Some tr ->
     is_Some (component_at Velocity i (Editor.physics cfg dt wd)) ->
     (w tr <= inject_Z (width cfg))%Q -> (h tr <= inject_Z (height cfg))%Q ->
     in_bounds cfg tr) /\
  (forall (wd : World) (i : nat) (tr : Transform),
     component_at Transform i (Engine.physicsSystem cfg wd) = Some tr ->
     is_Some (component_at Velocity i (Engine.physicsSystem cfg wd)) ->
     (w tr <= inject_Z (width cfg))%Q -> (h tr <= inject_Z (height cfg))%Q ->
     in_bounds cfg tr).
Proof.
  split; [|split].
  - intros dts g ed Hdts Hplay Hg Hspr Hsm.
    destruct (editor_steps_bounds cfg sqrtf dts g ed Hplay Hg Hspr Hsm)
      as (ed' & g' & Hsteps & _ & Hlast).
    destruct (Hlast Hdts) as (r & Hr & Hb). by exists ed', g', r.
  - apply physics_clamps.
  - apply physicsSystem_clamps.
Qed.

Lemma clamp_keeps_velocity_entities_in_bounds_witness :
  exists ed' g' r,
    Editor.steps Editor.main_cfg sqrt_approx [0.016; 8; 0.016]%Q (replay [])
      (scene 0 0 700 336) = Some (ed', g') /\
    Editor.find_roles (Editor.world ed') = Some r /\
    forall i tr,
      component_at Transform i (Editor.world ed') = Some tr ->
      is_Some (component_at Velocity i (Editor.world ed')) ->
      in_bounds Editor.main_cfg tr \/ Editor.enemy r = Some i \/
      (Editor.player r = Some i /\ x tr = inject_Z (Editor.center_x Editor.main_cfg) /\
       y tr = inject_Z (Editor.center_y Editor.main_cfg)).
Proof.
  apply (proj1 (clamp_keeps_velocity_entities_in_bounds Editor.main_cfg sqrt_approx)).
  - discriminate.
  - reflexivity.
  - apply rng_ok_replay. constructor.
  - repeat constructor; intros _; by eexists.
  - intros [|[|[|i]]] tr; simpl; intros [= <-]; vm_compute; intuition discriminate.
Defined.

(** C1, as stated, fails: from the scene that [spawnDemoScene] builds, one
    step while playing with [dt = 8] carries the enemy, which the chase
    moves and nothing clamps, to x = -100. *)
Lemma enemy_leaves_world :
  exists ed g ed' g' et,
    Editor.spawnDemoScene Editor.main_cfg newest_first no_textures
      (replay [0; 0; 700; 336]) Editor2_0 = Some (ed, g) /\
    Editor.update Editor.main_cfg sqrt_approx 8 g (Editor.with_playing true ed)
      = Some (ed', g') /\
    component_at Transform 0 (Editor.world ed') = Some et /\
    (x et == -100)%Q /\ ~ in_bounds Editor.main_cfg et.
Proof.
  eexists _, _, _, _, _.
  split; [reflexivity|]. split; [vm_compute; reflexivity|].
  split; [vm_compute; reflexivity|]. split; [vm_compute; reflexivity|].
  intros (Hx & _). vm_compute in Hx. by apply Hx.
Qed.

(** C3 (as amended). Editor: when, in a step while playing, the rectangle
    of the player intersects that of the enemy as the chase left it, the
    catch test sets the score to 0 and the player's position to
    (width/2 - 32, height/2 - 32) and moves no other entity, whatever the
    target is. The pickup test runs after it in the same step: unless the
    player put back there touches a target with [(int)w >= width] or
    [(int)h >= height], the step returns with the player at that position
    and with score 0, or with score 1 when the player put back there
    intersects the target, which is then relocated inside the world.
    Engine: the catch test sets the score to 0 and relocates an enemy
    smaller than the world inside the world. *)
Theorem catch_resets_score_and_player (cfg : EngineConfig) (sqrtf : Q -> Q) :
  (forall (dt : Q) (g : Rng) (ed : Editor.Editor2) (r : Editor.Roles) (p e : nat)
          (pt et et' : Transform),
     Editor.playing ed = true ->
     let wd1 := Editor.physics cfg dt (Editor.world ed) in
     Editor.find_roles wd1 = Some r ->
     Editor.player r = Some p -> Editor.enemy r = Some e ->
     component_at Transform p wd1 = Some pt ->
     component_at Transform e wd1 = Some et ->
     Editor.chase sqrtf dt pt et = Some et' ->
     aabbIntersect pt et' = true ->
     rng_ok g ->
     exists ed1,
       Editor.chase_and_catch cfg sqrtf dt p e (Editor.with_world wd1 ed) = Some ed1 /\
       Editor.score ed1 = 0 /\
       component_at Transform p (Editor.world ed1) = Some (recentred cfg pt) /\
       component_at Transform e (Editor.world ed1) = Some et' /\
       (forall j, j <> p -> j <> e -> all (Editor.world ed1) !! j = all wd1 !! j) /\
       ((forall t tt, Editor.target r = Some t -> component_at Transform t wd1 = Some tt ->
           aabbIntersect (recentred cfg pt) tt = true ->
           to_int (w tt) < width cfg /\ to_int (h tt) < height cfg) ->
        exists ed' g',
          Editor.update cfg sqrtf dt g ed = Some (ed', g') /\
          component_at Transform p (Editor.world ed') = Some (recentred cfg pt) /\
          Editor.score ed' = (if picks_up r wd1 (recentred cfg pt) then 1 else 0) /\
          (forall j, Editor.target r <> Some j ->
             all (Editor.world ed') !! j = all (Editor.world ed1) !! j) /\
          (forall t, Editor.target r = Some t ->
             picks_up r wd1 (recentred cfg pt) = true ->
             exists tt tt',
               component_at Transform t wd1 = Some tt /\
               component_at Transform t (Editor.world ed') = Some tt' /\
               relocated_within cfg (draws g (cursor g)) (draws g (S (cursor g)))
                 tt tt'))) /\
  (forall (g : Rng) (d : Engine.Demo) (pt et : Transform),
     Engine.component_of Transform (Engine.player d) (Engine.world d) = Some pt ->
     Engine.component_of Transform (Engine.enemy d) (Engine.world d) = Some et ->
     Engine.player d <> Engine.enemy d ->
     aabbIntersect pt et = true ->
     rng_ok g ->
     to_int (w et) < width cfg -> to_int (h et) < height cfg ->
     exists d' g' et',
       Engine.catch_reset cfg g d = Some (d', g') /\
       Engine.score d' = 0 /\
       Engine.component_of Transform (Engine.enemy d) (Engine.world d') = Some et' /\
       relocated_within cfg (draws g (cursor g)) (draws g (S (cursor g))) et et').
Proof.
  split.
  - apply editor_catch_step.
  - intros g d pt et Hp He Hne Hhit Hg Hw Hh.
    destruct (engine_catch_reset_hit cfg g d pt et Hp He Hne Hhit Hg Hw Hh)
      as (d' & g' & pt' & et' & Hc & Hs & _ & _ & He' & Hrel).
    by exists d', g', et'.
Qed.

Lemma catch_resets_score_and_player_witness :
  exists ed1 ed' g' tt',
    Editor.score (scene_moved 600 320 5 620 340 610 330) = 5 /\
    component_at Transform 2 (Editor.world (scene_moved 600 320 5 620 340 610 330))
    = Some {| x := 600; y := 320; w := 64; h := 64; angle := 0 |} /\
    Editor.chase_and_catch Editor.main_cfg sqrt_approx 0.01 2 0
      (Editor.with_world
         (Editor.physics Editor.main_cfg 0.01
            (Editor.world (scene_moved 600 320 5 620 340 610 330)))
         (scene_moved 600 320 5 620 340 610 330)) = Some ed1 /\
    Editor.score ed1 = 0 /\
    component_at Transform 2 (Editor.world ed1)
    = Some {| x := 608; y := 328; w := 64; h := 64; angle := 0 |} /\
    Editor.update Editor.main_cfg sqrt_approx 0.01 (replay [100; 200])
      (scene_moved 600 320 5 620 340 610 330) = Some (ed', g') /\
    Editor.score ed' = 1 /\
    component_at Transform 2 (Editor.world ed')
    = Some {| x := 608; y := 328; w := 64; h := 64; angle := 0 |} /\
    component_at Transform 1 (Editor.world ed') = Some tt' /\
    in_bounds Editor.main_cfg tt'.
Proof.
  edestruct (proj1 (catch_resets_score_and_player Editor.main_cfg sqrt_approx)
               0.01%Q (replay [100; 200]) (scene_moved 600 320 5 620 340 610 330)
               {| Editor.player := Some 2%nat; Editor.enemy := Some 0%nat;
                  Editor.target := Some 1%nat |} 2%nat 0%nat)
    as (ed1 & Hcc & Hs1 & Hp1 & _ & _ & Hstep).
  - reflexivity.
  - vm_compute; reflexivity.
  - reflexivity.
  - reflexivity.
  - vm_compute; reflexivity.
  - vm_compute; reflexivity.
  - vm_compute; reflexivity.
  - vm_compute; reflexivity.
  - apply rng_ok_replay. repeat constructor; lia.
  - destruct Hstep as (ed' & g' & Hup & Hp' & Hs' & _ & Hrel).
    { intros t tt [= <-]. vm_compute. intros [= <-] _. split; reflexivity. }
    destruct (Hrel 1%nat eq_refl) as (tt & tt' & _ & Ht' & Hin).
    { vm_compute; reflexivity. }
    exists ed1, ed', g', tt'.
    split; [reflexivity|]. split; [vm_compute; reflexivity|].
    split; [exact Hcc|]. split; [exact Hs1|]. split; [exact Hp1|].
    split; [exact Hup|]. split; [rewrite Hs'; vm_compute; reflexivity|].
    split; [exact Hp'|]. split; [exact Ht'|]. apply Hin.
Defined.

(** C3, as stated, fails: in the scene that [spawnDemoScene] builds with
    the target over the world's centre and the enemy on the player, a step
    while playing ends with score 1, not 0: the catch test resets the
    score and the pickup test, which runs after it, counts the target. *)
Lemma catch_then_pickup_scores_one :
  exists ed g ed' g' pt et,
    Editor.spawnDemoScene Editor.main_cfg newest_first no_textures
      (replay [620; 340; 650; 336; 100; 100]) Editor2_0 = Some (ed, g) /\
    component_at Transform 2 (Editor.world ed) = Some pt /\
    component_at Transform 0 (Editor.world ed) = Some et /\
    aabbIntersect pt et = true /\
    Editor.update Editor.main_cfg sqrt_approx 0.01 g
      (Editor.with_score 5 (Editor.with_playing true ed)) = Some (ed', g') /\
    Editor.score ed' = 1.
Proof.
  eexists _, _, _, _, _, _.
  split; [reflexivity|]. split; [reflexivity|]. split; [reflexivity|].
  split; [vm_compute; reflexivity|].
  split; [vm_compute; reflexivity|]. reflexivity.
Qed.

(** The engine's catch test puts the player's top-left corner at
    (width/2, height/2), not at the position (width/2 - 32, height/2 - 32)
    where [main] first placed it. *)
Lemma engine_catch_reset_position (cfg : EngineConfig) (g : Rng) (d : Engine.Demo)
    (pt et : Transform) :
  Engine.component_of Transform (Engine.player d) (Engine.world d) = Some pt ->
  Engine.component_of Transform (Engine.enemy d) (Engine.world d) = Some et ->
  Engine.player d <> Engine.enemy d ->
  aabbIntersect pt et = true ->
  rng_ok g ->
  to_int (w et) < width cfg -> to_int (h et) < height cfg ->
  exists d' g' pt',
    Engine.catch_reset cfg g d = Some (d', g') /\
    Engine.component_of Transform (Engine.player d) (Engine.world d') = Some pt' /\
    x pt' = (inject_Z (width cfg) / 2)%Q /\ y pt' = inject_Z (Z.quot (height cfg) 2).
Proof.
  intros Hp He Hne Hhit Hg Hw Hh.
  destruct (engine_catch_reset_hit cfg g d pt et Hp He Hne Hhit Hg Hw Hh)
    as (d' & g' & pt' & et' & Hc & _ & Hp' & -> & _).
  eexists d', g', _. split; [exact Hc|]. split; [exact Hp'|]. split; reflexivity.
Qed.

(** C5, as stated, fails: in the scene that [spawnDemoScene] builds with
    the target under the player, select the target in the hierarchy and
    drag its Y field to 0 and its H field to 720 in the inspector. The
    target then lies inside the world and still touches the player, and
    the pickup test of the next step computes [rand() % (720 - 720)]: no
    score is counted and no target relocated. *)
Lemma pickup_fails_on_target_as_high_as_world :
  exists ed g ed1 pt tt,
    Editor.spawnDemoScene Editor.main_cfg newest_first no_textures
      (replay [620; 340; 100; 100]) Editor2_0 = Some (ed, g) /\
    Editor.uiInspector no_textures (inspector_stretch 0 720)
      (Editor.uiHierarchy newest_first (hierarchy_click 1) (Editor.with_playing true ed))
    = ed1 /\
    component_at Transform 2 (Editor.world ed1) = Some pt /\
    component_at Transform 1 (Editor.world ed1) = Some tt /\
    tt = {| x := 620; y := 0; w := 32; h := 720; angle := 0 |} /\
    in_bounds Editor.main_cfg tt /\
    aabbIntersect pt tt = true /\
    Editor.pickup Editor.main_cfg 2 1 g ed1 = None /\
    Editor.update Editor.main_cfg sqrt_approx 0.01 g ed1 = None.
Proof.
  eexists _, _, _, _, _.
  split; [reflexivity|]. split; [reflexivity|].
  split; [vm_compute; reflexivity|]. split; [vm_compute; reflexivity|].
  split; [reflexivity|].
  split; [vm_compute; intuition discriminate|].
  split; [vm_compute; reflexivity|].
  split; [vm_compute; reflexivity|]. vm_compute; reflexivity.
Qed.

(** ** Instances of the claims *)

Lemma pause_toggle_preserves_witness :
  exists paused,
    Editor.uiViewport Editor.main_cfg newest_first no_textures
      (Editor.ui_play (0%Q, 0%Q) (640%Q, 360%Q)) (replay []) (scene 0 0 700 336)
    = Some (paused, replay []) /\
    Editor.playing paused = false /\
    Editor.world paused = Editor.world (scene 0 0 700 336) /\
    Editor.update Editor.main_cfg sqrt_approx 8 (replay []) paused
    = Some (paused, replay []) /\
    Editor.uiViewport Editor.main_cfg newest_first no_textures
      (Editor.ui_play (0%Q, 0%Q) (640%Q, 360%Q)) (replay []) paused
    = Some (scene 0 0 700 336, replay []).
Proof.
  destruct (pause_toggle_preserves Editor.main_cfg sqrt_approx newest_first no_textures
              (scene 0 0 700 336) (0%Q, 0%Q) (640%Q, 360%Q) (replay []))
    as (paused & Hpause & Hflag & Hworld & _ & _ & Hupdate & _ & Hplay).
  - reflexivity.
  - exists paused. split; [exact Hpause|]. split; [exact Hflag|].
    split; [exact Hworld|]. split; [apply Hupdate | exact Hplay].
Defined.


Lemma pickup_scores_and_relocates_witness :
  exists ed' g' tt',
    Editor.pickup Editor.main_cfg 2 1 (replay [100; 200]) (scene 620 340 0 0)
    = Some (ed', g') /\
    Editor.score ed' = 1 /\
    component_at Transform 1 (Editor.world ed') = Some tt' /\
    in_bounds Editor.main_cfg tt'.
Proof.
  edestruct (proj1 (pickup_scores_and_relocates Editor.main_cfg)
               2%nat 1%nat (replay [100; 200]) (scene 620 340 0 0))
    as (ed' & g' & tt' & Hpickup & Hscore & Htarget & Hrel & _).
  - reflexivity.
  - reflexivity.
  - vm_compute. reflexivity.
  - apply rng_ok_replay. repeat constructor; lia.
  - vm_compute. reflexivity.
  - vm_compute. reflexivity.
  - exists ed', g', tt'. split; [exact Hpickup|]. split; [exact Hscore|].
    split; [exact Htarget|]. apply Hrel.
Defined.

(** ** Keyboard events *)

Lemma set_first_velocity_spec (f : Velocity -> Velocity) (ed : Editor.Editor2)
    (v : Velocity) :
  component_at Velocity 0 (Editor.world ed) = Some v ->
  exists ed',
    Editor.set_first_velocity f ed = Some ed' /\
    component_at Velocity 0 (Editor.world ed') = Some (f v) /\
    (forall j, j <> O -> all (Editor.world ed') !! j = all (Editor.world ed) !! j) /\
    Editor.selected ed' = Editor.selected ed /\ Editor.score ed' = Editor.score ed.
Proof.
  intros Hv. unfold Editor.set_first_velocity. rewrite Hv. cbn [mbind option_bind].
  eexists. split; [reflexivity|]. cbn [Editor.world Editor.with_world].
  split; [by rewrite component_at_write, Hv|].
  split; [|by split].
  intros j Hj. by apply all_at_entity_ne.
Qed.

(** C9 at its failing input. The key handlers of [main] write to
    [world.all()[0]], whichever entity that is, and never look at the
    selection. In the demo scene on a table that is walked newest first
    the first entity is the enemy, which has no [Velocity]: every W, A, S
    or D event while playing goes through a null pointer, and the player,
    at position 2, is not reached. On a table walked in insertion order
    the first entity is the player and W sets its [vy] to -200. *)
Theorem keydown_writes_first_entity :
  let ed := scene 0 0 700 336 in
  Editor.spawnDemoScene Editor.main_cfg newest_first no_textures
    (replay [0; 0; 700; 336]) Editor2_0
  = Some (Editor.with_playing false ed,
          {| draws := draws (replay [0; 0; 700; 336]); cursor := 4 |}) /\
  Editor.find_roles (Editor.world ed)
  = Some {| Editor.player := Some 2%nat; Editor.enemy := Some 0%nat;
            Editor.target := Some 1%nat |} /\
  component_at Velocity 0 (Editor.world ed) = None /\
  is_Some (component_at Velocity 2 (Editor.world ed)) /\
  Editor.on_keydown Editor.SDLK_w ed = None /\
  Editor.on_keydown Editor.SDLK_s ed = None /\
  Editor.on_keydown Editor.SDLK_a ed = None /\
  Editor.on_keydown Editor.SDLK_d ed = None /\
  Editor.on_keyup Editor.SDLK_w ed = None /\
  Editor.on_keyup Editor.SDLK_s ed = None /\
  Editor.on_keyup Editor.SDLK_a ed = None /\
  Editor.on_keyup Editor.SDLK_d ed = None /\
  exists ed1 g1 ed2,
    Editor.spawnDemoScene Editor.main_cfg insertion_order no_textures
      (replay [0; 0; 700; 336]) Editor2_0 = Some (ed1, g1) /\
    Editor.find_roles (Editor.world ed1)
    = Some {| Editor.player := Some 0%nat; Editor.enemy := Some 2%nat;
              Editor.target := Some 1%nat |} /\
    Editor.on_keydown Editor.SDLK_w (Editor.with_playing true ed1) = Some ed2 /\
    component_at Velocity 0 (Editor.world ed2) = Some {| vx := 0; vy := -200 |}.
Proof.
  intros ed. repeat (split; [first [reflexivity | by eexists]|]).
  eexists _, _, _. repeat split; reflexivity.
Qed.

(** ** Further observations *)

(** An entity without a [Velocity] is never clamped: dragged to the
    corner of the viewport while paused, the target of the demo scene
    lies partly outside the world, and a step while playing leaves it
    there. *)
Lemma dragged_target_stays_outside :
  let p := (100%Q, 50%Q) in
  let s := (640%Q, 360%Q) in
  let drag mp :=
    {| Editor.play_clicked := false; Editor.spawn_clicked := false;
       Editor.item_min := p; Editor.item_size := s; Editor.dragging := Some mp |} in
  exists ed g ed1 ed2 ed3 ed4 tg,
    Editor.spawnDemoScene Editor.main_cfg newest_first no_textures
      (replay [600; 300; 700; 336]) Editor2_0 = Some (ed, g) /\
    Editor.uiViewport Editor.main_cfg newest_first no_textures
      (drag (405%Q, 205%Q)) g ed = Some (ed1, g) /\
    Editor.selected ed1 = Some 2 /\
    Editor.uiViewport Editor.main_cfg newest_first no_textures
      (drag p) g ed1 = Some (ed2, g) /\
    Editor.uiViewport Editor.main_cfg newest_first no_textures
      (Editor.ui_play p s) g ed2 = Some (ed3, g) /\
    Editor.update Editor.main_cfg sqrt_approx 0.016 g ed3 = Some (ed4, g) /\
    component_at Transform 1 (Editor.world ed4) = Some tg /\
    (x tg == -16)%Q /\ (y tg == -16)%Q /\ ~ in_bounds Editor.main_cfg tg.
Proof.
  intros p s drag. eexists _, _, _, _, _, _, _.
  split; [reflexivity|]. split; [vm_compute; reflexivity|].
  split; [reflexivity|]. split; [vm_compute; reflexivity|].
  split; [vm_compute; reflexivity|]. split; [vm_compute; reflexivity|].
  split; [vm_compute; reflexivity|].
  split; [vm_compute; reflexivity|]. split; [vm_compute; reflexivity|].
  intros (Hx & _). vm_compute in Hx. by apply Hx.
Qed.

(** [uiViewport] draws into the item's rectangle truncated to whole
    pixels and maps the pointer with the untruncated one: for an item at
    a fractional position the two mappings are not inverse. *)
Lemma fractional_item_rectangle_shifts :
  let p := (0.5%Q, 0%Q) in
  let s := (200.5%Q, 150%Q) in
  exists wp sp,
    Editor.screen_to_world Editor.main_cfg p s (100%Q, 75%Q) = Some wp /\
    Editor.world_to_screen Editor.main_cfg (Editor.view_of p s) wp = Some sp /\
    (sp.1 < 99.5)%Q.
Proof.
  intros p s. eexists _, _. split; [reflexivity|]. split; [reflexivity|].
  vm_compute. reflexivity.
Qed.

(** The engine reads its key table with [at]: in the first frame, before
    any key event, the table is empty and [onUpdate] throws. Once the
    eight keys it reads have been seen, W held down gives the player the
    velocity (0, -4). *)
Lemma engine_update_needs_keys :
  exists d g,
    Engine.setup Engine.main_cfg newest_first no_textures (replay [0; 0; 700; 336])
    = Some (d, g) /\
    Engine.frame Engine.main_cfg sqrt_approx [] g d = None /\
    exists d' g',
      Engine.frame Engine.main_cfg sqrt_approx
        [ Engine.SDL_KEYDOWN Engine.SDL_SCANCODE_W;
          Engine.SDL_KEYUP Engine.SDL_SCANCODE_S;
          Engine.SDL_KEYUP Engine.SDL_SCANCODE_A;
          Engine.SDL_KEYUP Engine.SDL_SCANCODE_D;
          Engine.SDL_KEYUP Engine.SDL_SCANCODE_UP;
          Engine.SDL_KEYUP Engine.SDL_SCANCODE_DOWN;
          Engine.SDL_KEYUP Engine.SDL_SCANCODE_LEFT;
          Engine.SDL_KEYUP Engine.SDL_SCANCODE_RIGHT ] g d = Some (d', g') /\
      Engine.component_of Velocity (Engine.player d') (Engine.world d')
      = Some {| vx := 0; vy := - (4) |}.
Proof.
  eexists _, _. split; [reflexivity|]. split; [vm_compute; reflexivity|].
  eexists _, _. split; vm_compute; reflexivity.
Qed.

(** * The rest of the two programs *)

(** ** The entity table *)

Lemma keys_fresh (wd : World) :
  world_ok wd -> Forall (fun e => id e <> nextId wd) (entities wd).
Proof.
  intros (_ & Hlt & _). unfold keys_of in Hlt. rewrite Forall_fmap in Hlt.
  eapply Forall_impl; [exact Hlt|]. simpl. intros e He. lia.
Qed.

Lemma lookup_insert_at {A : Type} (i : nat) (a : A) (l : list A) :
  (i <= length l)%nat -> insert_at i a l !! i = Some a.
Proof.
  intros Hi. unfold insert_at. apply list_lookup_middle. rewrite length_take. lia.
Qed.

(** In a table with distinct keys the entity of key [k] is at one place. *)
Lemma position_lookup (k : EntityId) (l : list Entity) (i : nat) (e : Entity) :
  NoDup (id <$> l) -> l !! i = Some e -> id e = k -> position k l = Some i.
Proof.
  intros Hnd Hi Hk. destruct (position k l) as [j|] eqn:Ej.
  - apply position_Some in Ej as (e' & Hj & Hk'). f_equal.
    apply (NoDup_lookup _ _ _ k Hnd); rewrite list_lookup_fmap.
    + by rewrite Hj; simpl; rewrite Hk'.
    + by rewrite Hi; simpl; rewrite Hk.
  - apply position_None in Ej. rewrite Forall_forall in Ej.
    exfalso. apply (Ej e); [|done]. by eapply list_elem_of_lookup_2.
Qed.

Lemma entity_with_Some (k : EntityId) (wd : World) (e : Entity) :
  entity_with k wd = Some e -> e ∈ entities wd /\ id e = k.
Proof.
  unfold entity_with. destruct (position k (entities wd)) as [i|] eqn:Ei; [|discriminate].
  simpl. intros Hi. apply position_Some in Ei as (e' & Hi' & Hk).
  assert (e' = e) as -> by congruence. split; [|done]. by eapply list_elem_of_lookup_2.
Qed.

Lemma entity_with_elem (k : EntityId) (wd : World) (e : Entity) :
  NoDup (keys_of wd) -> e ∈ entities wd -> id e = k -> entity_with k wd = Some e.
Proof.
  intros Hnd He Hk. apply list_elem_of_lookup in He as [i Hi].
  unfold entity_with. by rewrite (position_lookup k _ i e Hnd Hi Hk).
Qed.

Lemma entity_with_None (k : EntityId) (wd : World) :
  entity_with k wd = None <-> k ∉ keys_of wd.
Proof.
  unfold entity_with, keys_of. split.
  - intros Hnone Hin. apply list_elem_of_fmap in Hin as (e & -> & He).
    destruct (position (id e) (entities wd)) as [i|] eqn:Ei.
    + apply position_Some in Ei as (e' & Hi & _). simpl in Hnone. congruence.
    + apply position_None in Ei. rewrite Forall_forall in Ei. by apply (Ei e).
  - intros Hnotin. assert (position k (entities wd) = None) as ->; [|done].
    apply position_None, Forall_forall. intros e He Hk. apply Hnotin.
    apply list_elem_of_fmap. eauto.
Qed.

Lemma createEntity_spec (slot : Slot) (wd : World) :
  world_ok wd -> nextId wd + 1 < 2 ^ 32 ->
  let e := {| id := nextId wd; components := [] |} in
  exists i wd',
    createEntity slot wd = (wd', i) /\
    all wd' !! i = Some e /\
    all wd' ≡ₚ e :: all wd /\
    nextId wd' = nextId wd + 1 /\
    world_ok wd'.
Proof.
  intros Hok Hroom e. pose proof (keys_fresh wd Hok) as Hfresh.
  destruct Hok as (Hnd & Hlt & Hmax).
  rewrite (createEntity_fresh slot wd Hfresh). eexists _, _. split; [reflexivity|].
  cbn [all entities nextId].
  assert ((nextId wd + 1) mod 2 ^ 32 = nextId wd + 1) as -> by (apply Z.mod_small; lia).
  split; [apply lookup_insert_at, Nat.le_min_r|].
  split; [apply insert_at_perm|]. split; [reflexivity|].
  unfold world_ok, keys_of; cbn [entities nextId].
  rewrite insert_at_perm, fmap_cons. cbn [id].
  split; [|split; [|lia]].
  - apply NoDup_cons. split; [|exact Hnd].
    intros Hin. rewrite Forall_forall in Hlt. apply Hlt in Hin. lia.
  - apply Forall_cons. split; [lia|].
    eapply Forall_impl; [exact Hlt|]. simpl. intros k Hk. lia.
Qed.

(** X1. [createEntity] on a table in order with room in the counter: the new
    entity has the key [nextId], which is not [INVALID_ENTITY] and was not in
    use, and no component; it is found under that key and at the place
    returned; every other key finds what it found before; the table grows
    by one, the counter by one, and the table stays in order. *)
Theorem createEntity_hands_out_fresh_key (slot : Slot) (wd : World) :
  world_ok wd -> nextId wd + 1 < 2 ^ 32 ->
  let e := {| id := nextId wd; components := [] |} in
  exists i wd',
    createEntity slot wd = (wd', i) /\
    all wd' !! i = Some e /\
    id e <> INVALID_ENTITY /\ (id e ∉ keys_of wd) /\
    entity_with (id e) wd' = Some e /\
    (forall k, k <> id e -> entity_with k wd' = entity_with k wd) /\
    length (all wd') = S (length (all wd)) /\
    nextId wd' = nextId wd + 1 /\
    world_ok wd'.
Proof.
  intros Hok Hroom e.
  destruct (createEntity_spec slot wd Hok Hroom) as (i & wd' & Ec & Hi & Hperm & Hn & Hok').
  fold e in Hi, Hperm. exists i, wd'. split; [exact Ec|]. split; [exact Hi|].
  pose proof Hok as (Hnd & Hlt & Hmin). pose proof Hok' as (Hnd' & _).
  assert (id e ∉ keys_of wd) as Hnotin.
  { intros Hin. rewrite Forall_forall in Hlt. apply Hlt in Hin. simpl in Hin. lia. }
  split; [unfold INVALID_ENTITY; simpl; lia|]. split; [exact Hnotin|].
  split.
  { apply entity_with_elem; [exact Hnd'| |reflexivity]. by eapply list_elem_of_lookup_2. }
  split.
  { intros k Hk. destruct (entity_with k wd) as [e0|] eqn:E0.
    - apply entity_with_Some in E0 as [Hin Hid].
      apply entity_with_elem; [exact Hnd'| |exact Hid].
      unfold all in Hperm. rewrite Hperm. by right.
    - apply entity_with_None. apply entity_with_None in E0. intros Hin. apply E0.
      unfold keys_of in *. unfold all in Hperm. rewrite Hperm, fmap_cons in Hin.
      apply elem_of_cons in Hin as [Hin|Hin]; [done|exact Hin]. }
  split; [by rewrite Hperm|]. by split.
Qed.

Lemma createEntity_hands_out_fresh_key_witness :
  exists i wd',
    createEntity newest_first World0 = (wd', i) /\
    all wd' !! i = Some {| id := 1; components := [] |} /\ nextId wd' = 2.
Proof.
  destruct (createEntity_hands_out_fresh_key newest_first World0)
    as (i & wd' & Ec & Hi & _ & _ & _ & _ & _ & Hn & _).
  - unfold world_ok, keys_of; simpl. split; [constructor|]. split; [constructor|lia].
  - simpl. lia.
  - exists i, wd'. split; [exact Ec|]. split; [exact Hi|exact Hn].
Defined.

Lemma position_filter_ne (k k' : EntityId) (l : list Entity) :
  k' <> k ->
  (i ← position k' (filter (fun e => id e ≠ k) l); filter (fun e => id e ≠ k) l !! i)
  = (i ← position k' l; l !! i).
Proof.
  intros Hk. induction l as [|e l IH]; [reflexivity|].
  rewrite filter_cons. destruct (decide (id e ≠ k)) as [He|He].
  - simpl. destruct (Z.eqb_spec (id e) k') as [?|?]; [reflexivity|].
    destruct (position k' (filter _ l)) as [i|], (position k' l) as [j|]; simpl in *; done.
  - assert (id e = k) as Hek by (destruct (decide (id e = k)); [done|contradiction]).
    simpl. destruct (Z.eqb_spec (id e) k') as [?|?]; [congruence|].
    rewrite IH. destruct (position k' l); reflexivity.
Qed.

Lemma filter_keys_absent (k : EntityId) (l : list Entity) :
  Forall (fun e => id e <> k) l -> filter (fun e => id e ≠ k) l = l.
Proof.
  induction 1 as [|e l He Hl IH]; [done|].
  rewrite filter_cons. by rewrite decide_True, IH.
Qed.

Lemma filter_key_present (k : EntityId) (l : list Entity) :
  NoDup (id <$> l) -> is_Some (position k l) ->
  S (length (filter (fun e => id e ≠ k) l)) = length l.
Proof.
  induction l as [|e l IH]; intros Hnd [i Hi]; [discriminate|].
  rewrite fmap_cons in Hnd. apply NoDup_cons in Hnd as [Hnotin Hnd].
  rewrite filter_cons. simpl in Hi. destruct (Z.eqb_spec (id e) k) as [Hk|Hk].
  - rewrite decide_False by (intros Hne; by apply Hne).
    rewrite filter_keys_absent; [done|].
    apply Forall_forall. intros e' He' Heq. apply Hnotin.
    rewrite <- Hk in Heq. rewrite <- Heq. apply list_elem_of_fmap. eauto.
  - rewrite decide_True by done. simpl. f_equal. apply IH; [done|].
    destruct (position k l); [eauto | discriminate].
Qed.

Lemma destroyEntity_ok (k : EntityId) (wd : World) :
  world_ok wd -> world_ok (destroyEntity k wd).
Proof.
  intros (Hnd & Hlt & Hn). unfold world_ok, keys_of, destroyEntity in *; cbn [entities nextId].
  split; [|split; [|done]].
  - eapply sublist_NoDup; [exact Hnd|]. apply fmap_sublist, sublist_filter.
  - apply Forall_forall. intros j Hj. rewrite Forall_forall in Hlt. apply Hlt.
    eapply sublist_subseteq; [|exact Hj]. apply fmap_sublist, sublist_filter.
Qed.

(** X2. [destroyEntity(k)] (and the editor's [ents.erase(k)]): afterwards
    key [k] finds nothing and every other key finds what it found before;
    the counter is left alone; an absent key changes nothing; a table in
    order stays in order and, when [k] was present, shrinks by exactly one. *)
Theorem destroyEntity_removes_only_that_key (k : EntityId) (wd : World) :
  entity_with k (destroyEntity k wd) = None /\
  (forall k', k' <> k -> entity_with k' (destroyEntity k wd) = entity_with k' wd) /\
  nextId (destroyEntity k wd) = nextId wd /\
  (entity_with k wd = None -> destroyEntity k wd = wd) /\
  (world_ok wd -> world_ok (destroyEntity k wd)) /\
  (world_ok wd -> is_Some (entity_with k wd) ->
     S (length (all (destroyEntity k wd))) = length (all wd)).
Proof.
  split.
  { unfold entity_with, destroyEntity; cbn [entities].
    assert (position k (filter (fun e => id e ≠ k) (entities wd)) = None) as ->; [|done].
    apply position_None. apply Forall_forall. intros e He.
    apply list_elem_of_filter in He. tauto. }
  split.
  { intros k' Hk. unfold entity_with, destroyEntity; cbn [entities].
    by apply position_filter_ne. }
  split; [reflexivity|].
  split.
  { unfold entity_with. intros Hnone.
    assert (position k (entities wd) = None) as Hp.
    { destruct (position k (entities wd)) as [i|] eqn:Ep; [|done].
      apply position_Some in Ep as (e & He & _). simpl in Hnone. congruence. }
    apply position_None in Hp. unfold destroyEntity. destruct wd as [n l]; simpl in *.
    f_equal. by apply filter_keys_absent. }
  split; [apply destroyEntity_ok|].
  intros (Hnd & _) [e He]. unfold destroyEntity, all; cbn [entities].
  apply filter_key_present; [exact Hnd|].
  unfold entity_with in He. destruct (position k (entities wd)); [eauto | discriminate].
Qed.

Lemma run_ops_spec (slot : Slot) (ops : list WorldOp) : forall (wd : World),
  world_ok wd -> nextId wd + Z.of_nat (creations ops) < 2 ^ 32 ->
  exists wd' ks,
    run_ops slot ops wd = (wd', ks) /\
    world_ok wd' /\
    nextId wd' = nextId wd + Z.of_nat (creations ops) /\
    ks = (fun i => nextId wd + Z.of_nat i) <$> seq 0 (creations ops).
Proof.
  induction ops as [|[|k] ops IH]; intros wd Hok Hroom; simpl in *.
  - eexists _, _. split; [reflexivity|]. split; [done|]. split; [lia | done].
  - destruct (createEntity_spec slot wd Hok ltac:(lia)) as (i & wd1 & Ec & _ & _ & Hn & Hok1).
    rewrite Ec. cbn [fst].
    destruct (IH wd1 Hok1 ltac:(lia)) as (wd' & ks & -> & Hok' & Hn' & Hks).
    eexists _, _. split; [reflexivity|]. split; [done|]. split; [lia|].
    rewrite Z.add_0_r. f_equal. rewrite Hks, <- fmap_S_seq, <- list_fmap_compose.
    apply list_fmap_ext. intros ? j ?. simpl. lia.
  - destruct (IH (destroyEntity k wd) (destroyEntity_ok k wd Hok) Hroom)
      as (wd' & ks & -> & Hok' & Hn' & Hks).
    eexists _, _. split; [reflexivity|]. split; [done|]. split; [exact Hn'|exact Hks].
Qed.

(** X3. Over any sequence of [createEntity] and [destroyEntity] calls on a
    table in order, below 2^32 creations: the keys handed out are the
    successive values of the counter, so they are pairwise distinct, none
    is [INVALID_ENTITY], and none is a key that the table held at the start
    or handed out earlier, whatever was destroyed in between. *)
Theorem keys_never_reused (slot : Slot) (ops : list WorldOp) (wd : World) :
  world_ok wd -> nextId wd + Z.of_nat (creations ops) < 2 ^ 32 ->
  exists wd' ks,
    run_ops slot ops wd = (wd', ks) /\
    world_ok wd' /\
    nextId wd' = nextId wd + Z.of_nat (creations ops) /\
    length ks = creations ops /\
    NoDup ks /\
    Forall (fun k => k <> INVALID_ENTITY /\ nextId wd <= k < nextId wd' /\
                     (k ∉ keys_of wd)) ks.
Proof.
  intros Hok Hroom.
  destruct (run_ops_spec slot ops wd Hok Hroom) as (wd' & ks & Hrun & Hok' & Hn & ->).
  exists wd', ((fun i => nextId wd + Z.of_nat i) <$> seq 0 (creations ops)).
  split; [exact Hrun|]. split; [exact Hok'|]. split; [exact Hn|].
  split; [by rewrite length_fmap, length_seq|].
  split.
  { apply NoDup_fmap_2; [|apply NoDup_seq]. intros a b Hab. lia. }
  destruct Hok as (_ & Hlt & Hmin).
  apply Forall_fmap, Forall_forall. intros j Hj. apply elem_of_seq in Hj. simpl.
  split; [unfold INVALID_ENTITY; lia|]. split; [lia|].
  intros Hin. rewrite Forall_forall in Hlt. apply Hlt in Hin. lia.
Qed.

Lemma keys_never_reused_witness :
  exists wd' ks,
    run_ops newest_first [Create; Create; Destroy 2; Create] World0 = (wd', ks) /\
    nextId wd' = 4 /\ NoDup ks.
Proof.
  destruct (keys_never_reused newest_first [Create; Create; Destroy 2; Create] World0)
    as (wd' & ks & Hrun & _ & Hn & _ & Hnd & _).
  - unfold world_ok, keys_of; simpl. split; [constructor|]. split; [constructor|lia].
  - simpl. lia.
  - exists wd', ks. split; [exact Hrun|]. split; [exact Hn|exact Hnd].
Defined.

(** X4. The counter is an [unsigned int]: with [nextId] at 2^32 - 1 a
    creation wraps it to 0, and the next entity created carries
    [INVALID_ENTITY] as its key. *)
Theorem createEntity_wraps_to_invalid (slot : Slot) (wd : World) :
  nextId wd = 2 ^ 32 - 1 ->
  exists i wd1 j wd2 e,
    createEntity slot wd = (wd1, i) /\ nextId wd1 = INVALID_ENTITY /\
    createEntity slot wd1 = (wd2, j) /\
    all wd2 !! j = Some e /\ id e = INVALID_ENTITY /\ nextId wd2 = 1.
Proof.
  intros Hn.
  assert (forall wd0, exists i wd',
            createEntity slot wd0 = (wd', i) /\
            nextId wd' = (nextId wd0 + 1) mod 2 ^ 32 /\
            all wd' !! i = Some {| id := nextId wd0; components := [] |}) as Hcreate.
  { intros wd0. unfold createEntity.
    destruct (position (nextId wd0) (entities wd0)) as [i|] eqn:Ei.
    - eexists _, _. split; [reflexivity|]. split; [reflexivity|].
      cbn [all entities]. apply list_lookup_insert_eq.
      apply position_Some in Ei as (e & He & _). by eapply lookup_lt_Some.
    - eexists _, _. split; [reflexivity|]. split; [reflexivity|].
      cbn [all entities]. apply lookup_insert_at, Nat.le_min_r. }
  destruct (Hcreate wd) as (i & wd1 & E1 & Hn1 & _).
  destruct (Hcreate wd1) as (j & wd2 & E2 & Hn2 & Hj).
  rewrite Hn in Hn1. change ((2 ^ 32 - 1 + 1) mod 2 ^ 32) with 0 in Hn1.
  rewrite Hn1 in Hn2, Hj. change ((0 + 1) mod 2 ^ 32) with 1 in Hn2.
  exists i, wd1, j, wd2, {| id := 0; components := [] |}.
  repeat split; done.
Qed.

Lemma createEntity_wraps_to_invalid_witness :
  exists i wd1 j wd2 e,
    createEntity newest_first {| nextId := 2 ^ 32 - 1; entities := [] |} = (wd1, i) /\
    nextId wd1 = INVALID_ENTITY /\
    createEntity newest_first wd1 = (wd2, j) /\
    all wd2 !! j = Some e /\ id e = INVALID_ENTITY /\ nextId wd2 = 1.
Proof.
  apply (createEntity_wraps_to_invalid newest_first {| nextId := 2 ^ 32 - 1; entities := [] |}).
  reflexivity.
Defined.

(** ** Texture manager *)

Section TextureCache.
Import TextureManager.

Lemma texture_load_cases (path : string) (io : Answers) (tm : TextureManager) :
  (exists t, load path io tm = (Some t, tm) /\ cache tm !! path = Some (Some t) /\
             is_Some (ren tm)) \/
  (exists t, load path io tm
             = (Some t, {| ren := ren tm; cache := <[path := Some t]> (cache tm) |}) /\
             cache tm !! path = None /\ is_Some (ren tm) /\ is_Some (IMG_Load io) /\
             SDL_CreateTextureFromSurface io = Some t) \/
  (load path io tm = (None, tm) /\
   (ren tm = None \/ cache tm !! path = Some None \/
    (cache tm !! path = None /\
     (IMG_Load io = None \/ SDL_CreateTextureFromSurface io = None)))).
Proof.
  unfold load. destruct (ren tm) as [r|]; [|right; right; by auto].
  destruct (cache tm !! path) as [[t|]|].
  - left. exists t. by eauto.
  - right; right. by auto.
  - destruct (IMG_Load io) as [s|]; [|right; right; naive_solver].
    destruct (SDL_CreateTextureFromSurface io) as [t|]; [|right; right; naive_solver].
    right; left. exists t. repeat split; by eauto.
Qed.

(** X5. [TextureManager::load] caches what it creates: when a call
    returns a texture, that texture is stored under the path, no other
    entry and not the renderer are touched, and every later call for the
    path returns the same texture and changes nothing, whatever the
    libraries would answer then. *)
Theorem texture_load_caches (path : string) (io : Answers) (tm : TextureManager)
    (t : positive) :
  (load path io tm).1 = Some t ->
  let tm' := (load path io tm).2 in
  ren tm' = ren tm /\
  cache tm' !! path = Some (Some t) /\
  (forall p, p <> path -> cache tm' !! p = cache tm !! p) /\
  (forall io', load path io' tm' = (Some t, tm')).
Proof.
  intros Hres tm'. subst tm'.
  destruct (texture_load_cases path io tm)
    as [(t' & E & Hc & Hr)|[(t' & E & Hc & Hr & _)|(E & _)]];
    rewrite E in *; simpl in Hres; [| |discriminate].
  - injection Hres as ->. cbn [snd]. repeat split; [exact Hc|].
    intros io'. unfold load. destruct Hr as [r ->]. unfold Texture in *. by rewrite Hc.
  - injection Hres as ->. cbn [snd ren cache]. split; [reflexivity|].
    split; [apply lookup_insert_eq|]. split; [intros p Hp; by apply lookup_insert_ne|].
    intros io'. unfold load; cbn [ren cache]. destruct Hr as [r ->].
    unfold Texture in *. by rewrite lookup_insert_eq.
Qed.

Lemma texture_load_caches_witness :
  let tm := make (Some 1%positive) in
  let io := {| IMG_Load := Some 5%positive; SDL_CreateTextureFromSurface := Some 7%positive |} in
  let io' := {| IMG_Load := None; SDL_CreateTextureFromSurface := None |} in
  (load "player.png" io tm).1 = Some 7%positive /\
  load "player.png" io' (load "player.png" io tm).2
  = (Some 7%positive, (load "player.png" io tm).2).
Proof.
  intros tm io io'. split; [reflexivity|].
  apply (texture_load_caches "player.png" io tm 7%positive). reflexivity.
Defined.

Lemma loads_snoc (calls : list (string * Answers)) (call : string * Answers)
    (tm : TextureManager) :
  loads (calls ++ [call]) tm = (load call.1 call.2 (loads calls tm)).2.
Proof. unfold loads. by rewrite foldl_app. Qed.

(** X6. After any sequence of [load] calls on a manager built by the
    constructor: the renderer is the one given; the cache holds no null
    pointer; every texture in it was created by a call of the sequence for
    that path, after [IMG_Load] succeeded; with a renderer, every call that
    could create its texture left the path cached; without one the cache
    stays empty. *)
Theorem texture_cache_holds_what_was_created (r : Renderer)
    (calls : list (string * Answers)) :
  let tm := loads calls (make r) in
  ren tm = r /\
  cache_ok (cache tm) /\
  (forall p t, cache tm !! p = Some (Some t) ->
     exists io, (p, io) ∈ calls /\ is_Some (IMG_Load io) /\
                SDL_CreateTextureFromSurface io = Some t) /\
  (forall p io, is_Some r -> (p, io) ∈ calls -> is_Some (IMG_Load io) ->
     is_Some (SDL_CreateTextureFromSurface io) -> is_Some (cache tm !! p)) /\
  (r = None -> cache tm = ∅).
Proof.
  induction calls as [|[p0 io0] calls IH] using rev_ind; intros tm; subst tm.
  - cbn. split; [done|]. split; [intros p; by rewrite lookup_empty|].
    split; [intros p t; by rewrite lookup_empty|].
    split; [|done]. intros p io _ Hin. by apply elem_of_nil in Hin.
  - rewrite loads_snoc. cbn [fst snd].
    destruct IH as (Hren & Hok & Hfrom & Hkept & Hnull).
    remember (loads calls (make r)) as tm eqn:Etm. clear Etm.
    destruct (texture_load_cases p0 io0 tm)
      as [(t' & E & Hc & Hr)|[(t' & E & Hc & Hr & Himg & Htex)|(E & Hwhy)]];
      rewrite E; cbn [snd ren cache].
    + split; [done|]. split; [done|]. split.
      { intros p t Hp. destruct (Hfrom p t Hp) as (io & Hin & ?).
        exists io. split; [|done]. apply elem_of_app. by left. }
      split; [|done]. intros p io Hr' Hin Himg Htex.
      apply elem_of_app in Hin as [Hin|Hin]; [by eapply Hkept|].
      apply list_elem_of_singleton in Hin as [= -> ->]. unfold Texture in *. by rewrite Hc.
    + split; [done|]. split.
      { intros p. destruct (decide (p0 = p)) as [->|Hne].
        - unfold Texture in *. by rewrite lookup_insert_eq.
        - unfold Texture in *. rewrite lookup_insert_ne by done. apply Hok. }
      split.
      { intros p t. destruct (decide (p0 = p)) as [->|Hne].
        - unfold Texture in *. rewrite lookup_insert_eq. intros [= ->].
          exists io0. split; [|done]. apply elem_of_app. right. by apply list_elem_of_singleton.
        - unfold Texture in *. rewrite lookup_insert_ne by done. intros Hp.
          destruct (Hfrom p t Hp) as (io & Hin & ?).
          exists io. split; [|done]. apply elem_of_app. by left. }
      split.
      { intros p io Hr' Hin Himg' Htex'. destruct (decide (p0 = p)) as [->|Hne].
        - unfold Texture in *. by rewrite lookup_insert_eq.
        - unfold Texture in *. rewrite lookup_insert_ne by done.
          apply elem_of_app in Hin as [Hin|Hin]; [by eapply Hkept|].
          apply list_elem_of_singleton in Hin as [= -> ->]. done. }
      intros ->. rewrite Hren in Hr. destruct Hr as [? ?]; congruence.
    + split; [done|]. split; [done|]. split.
      { intros p t Hp. destruct (Hfrom p t Hp) as (io & Hin & ?).
        exists io. split; [|done]. apply elem_of_app. by left. }
      split; [|done]. intros p io Hr' Hin Himg Htex.
      apply elem_of_app in Hin as [Hin|Hin]; [by eapply Hkept|].
      apply list_elem_of_singleton in Hin as [= -> ->].
      destruct Hwhy as [Hn|[Hn|(Hn & [Hf|Hf])]].
      * rewrite Hren in Hn. subst r. destruct Hr' as [? ?]; congruence.
      * by apply Hok in Hn.
      * rewrite Hf in Himg. destruct Himg as [? ?]; congruence.
      * rewrite Hf in Htex. destruct Htex as [? ?]; congruence.
Qed.

End TextureCache.

(** ** Font manager *)

Lemma to_string_inj (n m : Z) : to_string n = to_string m -> n = m.
Proof.
  unfold to_string. intros Hs.
  assert (Z.to_int n = Z.to_int m) as Hd.
  { apply (f_equal NilEmpty.int_of_string) in Hs. rewrite !NilEmpty.isi in Hs. congruence. }
  apply (f_equal Z.of_int) in Hd. by rewrite !DecimalZ.of_to in Hd.
Qed.

Lemma string_of_uint_no_hash (d : Decimal.uint) :
  occurs "#" (NilEmpty.string_of_uint d) = false.
Proof. induction d; simpl; auto. Qed.

Lemma to_string_no_hash (n : Z) : occurs "#" (to_string n) = false.
Proof.
  unfold to_string. destruct (Z.to_int n); simpl; apply string_of_uint_no_hash.
Qed.

Lemma occurs_app (c : ascii) (s1 s2 : string) :
  occurs c (s1 +:+ s2) = occurs c s1 || occurs c s2.
Proof.
  induction s1 as [|c' s1 IH]; [reflexivity|].
  change (String c' s1 +:+ s2) with (String c' (s1 +:+ s2)). simpl.
  by rewrite IH, orb_assoc.
Qed.

Lemma split_at_last_hash (p1 p2 s1 s2 : string) :
  occurs "#" s1 = false -> occurs "#" s2 = false ->
  p1 +:+ "#" +:+ s1 = p2 +:+ "#" +:+ s2 -> p1 = p2 /\ s1 = s2.
Proof.
  intros H1 H2. revert p2. induction p1 as [|c p1 IH]; intros [|c' p2] Heq.
  - change (String "#" s1 = String "#" s2) in Heq. by injection Heq as ->.
  - change (String "#" s1 = String c' (p2 +:+ "#" +:+ s2)) in Heq.
    injection Heq as <- ->. rewrite occurs_app in H1. simpl in H1.
    by rewrite orb_true_r in H1.
  - change (String c (p1 +:+ "#" +:+ s1) = String "#" s2) in Heq.
    injection Heq as -> <-. rewrite occurs_app in H2. simpl in H2.
    by rewrite orb_true_r in H2.
  - change (String c (p1 +:+ "#" +:+ s1) = String c' (p2 +:+ "#" +:+ s2)) in Heq.
    injection Heq as -> Heq. by destruct (IH p2 Heq) as [-> ->].
Qed.

Lemma font_key_inj (p1 p2 : string) (n1 n2 : Z) :
  Engine.FontManager.key p1 n1 = Engine.FontManager.key p2 n2 -> p1 = p2 /\ n1 = n2.
Proof.
  unfold Engine.FontManager.key. intros Heq.
  apply split_at_last_hash in Heq as [-> Hs]; try apply to_string_no_hash.
  split; [done|]. by apply to_string_inj.
Qed.

Section FontCache.
Import Engine.FontManager.

(** X7. [FontManager::load] keys its cache with [path + "#" + size]: two
    different pairs of path and size never share a key, also when the path
    holds a [#]; so loading one font neither changes what is cached for
    another, nor what a load of the other returns; and a font once loaded is
    returned again without asking [TTF_OpenFont]. *)
Theorem font_sizes_kept_apart (p1 p2 : string) (n1 n2 : Z) (a1 a2 : Engine.Font)
    (fm : FontManager) :
  (key p1 n1 = key p2 n2 -> p1 = p2 /\ n1 = n2) /\
  ((p1, n1) <> (p2, n2) ->
     cache (load p1 n1 a1 fm).2 !! key p2 n2 = cache fm !! key p2 n2 /\
     (load p2 n2 a2 (load p1 n1 a1 fm).2).1 = (load p2 n2 a2 fm).1) /\
  (forall f, (load p1 n1 a1 fm).1 = Some f ->
     load p1 n1 a2 (load p1 n1 a1 fm).2 = (Some f, (load p1 n1 a1 fm).2)).
Proof.
  split; [apply font_key_inj|].
  split.
  - intros Hne.
    assert (key p1 n1 <> key p2 n2) as Hk.
    { intros Hk. apply font_key_inj in Hk as [-> ->]. by apply Hne. }
    assert (cache (load p1 n1 a1 fm).2 !! key p2 n2 = cache fm !! key p2 n2) as Hc.
    { unfold load; cbv zeta. destruct (cache fm !! key p1 n1) as [f|]; [reflexivity|].
      destruct a1 as [f|]; [|reflexivity]. cbn [snd cache]. by apply lookup_insert_ne. }
    split; [exact Hc|]. unfold load at 1 3; cbv zeta. rewrite Hc.
    destruct (cache fm !! key p2 n2); [reflexivity|]. destruct a2; reflexivity.
  - intros f Hf. unfold load in *; cbv zeta in *.
    destruct (cache fm !! key p1 n1) as [f'|] eqn:Ec; cbn [fst snd] in *.
    + subst f'. unfold Engine.Font in *. by rewrite Ec.
    + destruct a1 as [f'|]; cbn [fst snd cache] in *; [|discriminate].
      injection Hf as ->. unfold Engine.Font in *. by rewrite lookup_insert_eq.
Qed.

End FontCache.

(** ** Audio manager *)

Section Audio.
Import Engine.AudioManager.

(** X8. [AudioManager] keeps sound effects and music apart: [loadSfx]
    leaves the music cache alone and [loadMusic] the effects cache, also
    for one and the same path, and the two calls give the same results and
    the same manager in either order. *)
Theorem sfx_and_music_caches_independent (p1 p2 : string) (c : Engine.Chunk)
    (m : Engine.Music) (am : AudioManager) :
  mus (loadSfx p1 c am).2 = mus am /\
  sfx (loadMusic p2 m am).2 = sfx am /\
  (loadMusic p2 m (loadSfx p1 c am).2).1 = (loadMusic p2 m am).1 /\
  (loadSfx p1 c (loadMusic p2 m am).2).1 = (loadSfx p1 c am).1 /\
  (loadMusic p2 m (loadSfx p1 c am).2).2 = (loadSfx p1 c (loadMusic p2 m am).2).2.
Proof.
  unfold loadSfx, loadMusic.
  destruct (sfx am !! p1) as [c'|] eqn:Es, (mus am !! p2) as [m'|] eqn:Em;
    destruct c as [c0|], m as [m0|]; cbn [fst snd sfx mus];
    rewrite ?Es, ?Em; cbn [fst snd sfx mus]; repeat split; reflexivity.
Qed.

End Audio.

(** ** Loading the demo assets *)

Section Assets.
Import TextureManager.

Lemma texture_load_lookup (p0 p : string) (io : Answers) (tm : TextureManager) :
  is_Some (ren tm) -> cache tm !! p0 = None ->
  ren (load p0 io tm).2 = ren tm /\
  cache (load p0 io tm).2 !! p =
    if decide (p = p0) then created io else cache tm !! p.
Proof.
  intros [r Hr] Hc. unfold load, created. rewrite Hr. unfold Texture in *. rewrite Hc.
  destruct (IMG_Load io) as [s|], (SDL_CreateTextureFromSurface io) as [t|];
    cbn [snd ren cache]; (split; [done|]);
    destruct (decide (p = p0)) as [->|Hne]; try done.
  - apply lookup_insert_eq.
  - by apply lookup_insert_ne.
Qed.

(** X9. [loadDemoAssets] on a fresh manager with a renderer leaves in the
    cache exactly those of the four demo files for which [IMG_Load] and
    [SDL_CreateTextureFromSurface] both succeeded, each with its texture. *)
Theorem loadDemoAssets_fills_cache (io : string -> Answers) (r : positive) (p : string) :
  cache (Editor.loadDemoAssets io (make (Some r))) !! p =
  if decide (p ∈ ["player.png"; "target.png"; "enemy.png"; "bg.png"])
  then created (io p) else None.
Proof.
  unfold Editor.loadDemoAssets.
  set (tm0 := make (Some r)).
  destruct (texture_load_lookup "player.png" p (io "player.png") tm0) as [Hr1 H1];
    [by eexists | apply lookup_empty |].
  set (tm1 := (load "player.png" (io "player.png") tm0).2) in *.
  assert (forall q, q <> "player.png" -> cache tm1 !! q = None) as N1.
  { intros q Hq.
    destruct (texture_load_lookup "player.png" q (io "player.png") tm0) as [_ H];
      [by eexists | apply lookup_empty |].
    fold tm1 in H. rewrite H. rewrite decide_False by done. apply lookup_empty. }
  destruct (texture_load_lookup "target.png" p (io "target.png") tm1) as [Hr2 H2];
    [rewrite Hr1; by eexists | by apply N1 |].
  set (tm2 := (load "target.png" (io "target.png") tm1).2) in *.
  assert (forall q, q <> "player.png" -> q <> "target.png" -> cache tm2 !! q = None) as N2.
  { intros q Hq Hq'.
    destruct (texture_load_lookup "target.png" q (io "target.png") tm1) as [_ H];
      [rewrite Hr1; by eexists | by apply N1 |].
    fold tm2 in H. rewrite H. rewrite decide_False by done. by apply N1. }
  destruct (texture_load_lookup "enemy.png" p (io "enemy.png") tm2) as [Hr3 H3];
    [rewrite Hr2, Hr1; by eexists | by apply N2 |].
  set (tm3 := (load "enemy.png" (io "enemy.png") tm2).2) in *.
  assert (forall q, q <> "player.png" -> q <> "target.png" -> q <> "enemy.png" ->
                    cache tm3 !! q = None) as N3.
  { intros q Hq Hq' Hq''.
    destruct (texture_load_lookup "enemy.png" q (io "enemy.png") tm2) as [_ H];
      [rewrite Hr2, Hr1; by eexists | by apply N2 |].
    fold tm3 in H. rewrite H. rewrite decide_False by done. by apply N2. }
  destruct (texture_load_lookup "bg.png" p (io "bg.png") tm3) as [Hr4 H4];
    [rewrite Hr3, Hr2, Hr1; by eexists | by apply N3 |].
  rewrite H4, H3, H2, H1.
  destruct (decide (p = "bg.png")) as [->|Hbg]; [reflexivity|].
  destruct (decide (p = "enemy.png")) as [->|Hen]; [reflexivity|].
  destruct (decide (p = "target.png")) as [->|Hta]; [reflexivity|].
  destruct (decide (p = "player.png")) as [->|Hpl]; [reflexivity|].
  rewrite decide_False; [apply lookup_empty|].
  rewrite !elem_of_cons, elem_of_nil. tauto.
Qed.

End Assets.

(** ** Frame timing *)

Lemma u32_elapsed (start elapsed : Z) :
  0 <= elapsed < 2 ^ 32 -> u32 (u32 (start + elapsed) - start) = elapsed.
Proof.
  intros He. unfold u32. rewrite Zminus_mod_idemp_l.
  replace (start + elapsed - start) with elapsed by lia. by apply Z.mod_small.
Qed.

(** X10. The editor's [dt = (now - last) / 1000.0f] on [Uint32] ticks is
    the time elapsed between the two readings (less than 2^32 ms) in
    seconds, never negative, also when [SDL_GetTicks()] wrapped around
    between them. *)
Theorem editor_dt_survives_tick_wrap (last elapsed : Z) :
  0 <= elapsed < 2 ^ 32 ->
  let now := u32 (last + elapsed) in
  Editor.dt_of last now = (inject_Z elapsed / 1000)%Q /\
  (0 <= Editor.dt_of last now)%Q.
Proof.
  intros He now. unfold Editor.dt_of. subst now. rewrite u32_elapsed by done.
  split; [reflexivity|].
  assert (0 <= inject_Z elapsed)%Q by (change 0%Q with (inject_Z 0); rewrite <- Zle_Qle; lia).
  apply Qle_shift_div_l; [reflexivity | lra].
Qed.

Lemma editor_dt_survives_tick_wrap_witness :
  let last := 2 ^ 32 - 5 in
  let now := u32 (last + 16) in
  now = 11 /\ Editor.dt_of last now = (inject_Z 16 / 1000)%Q.
Proof.
  intros last now. split; [reflexivity|].
  apply (editor_dt_survives_tick_wrap last 16). lia.
Defined.

Lemma frame_caps (d frameStart elapsed : Z) :
  0 <= elapsed < 2 ^ 31 -> - 2 ^ 31 <= d < 2 ^ 31 ->
  let ticks := u32 (frameStart + elapsed) in
  Engine.frame_cap d frameStart ticks
    = (if elapsed <? d then Some (d - elapsed) else None) /\
  Editor.frame_cap d frameStart ticks
    = (if elapsed <? d then Some (d - elapsed) else None).
Proof.
  intros He Hd ticks. unfold Engine.frame_cap, Editor.frame_cap. subst ticks.
  rewrite u32_elapsed by lia.
  assert (to_i32 elapsed = elapsed) as ->.
  { unfold to_i32. destruct (Z.ltb_spec elapsed (2 ^ 31)); lia. }
  rewrite Z.gtb_ltb. destruct (Z.ltb_spec elapsed d); [|done].
  assert (u32 (d - elapsed) = d - elapsed) as -> by (apply Z.mod_small; lia). done.
Qed.

(** X11. The frame cap of both loops, for a loop body that took [elapsed]
    milliseconds (less than 2^31) on a tick counter that may have wrapped: with
    [targetFPS = 0] computing [frameDelay] divides by zero; otherwise
    [frameDelay] is [1000 / targetFPS] truncated, a shorter frame is padded
    by [SDL_Delay(frameDelay - elapsed)], a longer one is not delayed, and a
    [targetFPS] above 1000 or below 0 never delays. *)
Theorem frame_cap_pads_short_frames (cfg : EngineConfig) (frameStart elapsed : Z) :
  0 <= elapsed < 2 ^ 31 ->
  let ticks := u32 (frameStart + elapsed) in
  (targetFPS cfg = 0 -> Engine.frameDelay cfg = None /\ Editor.frameDelay cfg = None) /\
  (targetFPS cfg <> 0 ->
     let d := Z.quot 1000 (targetFPS cfg) in
     Engine.frameDelay cfg = Some d /\ Editor.frameDelay cfg = Some d /\
     Engine.frame_cap d frameStart ticks
       = (if elapsed <? d then Some (d - elapsed) else None) /\
     Editor.frame_cap d frameStart ticks
       = (if elapsed <? d then Some (d - elapsed) else None) /\
     (1000 < targetFPS cfg \/ targetFPS cfg < 0 ->
        Engine.frame_cap d frameStart ticks = None /\
        Editor.frame_cap d frameStart ticks = None)).
Proof.
  intros He ticks. unfold Engine.frameDelay, Editor.frameDelay, idiv. split.
  - intros ->. done.
  - intros Hfps. set (d := Z.quot 1000 (targetFPS cfg)).
    destruct (Z.eqb_spec (targetFPS cfg) 0) as [?|_]; [done|].
    assert (-1000 <= d <= 1000) as Hd.
    { assert (Z.abs d <= 1000); [|lia]. subst d.
      rewrite <- Z.quot_abs by done. apply Z.quot_le_upper_bound; [lia|].
      change (Z.abs 1000) with 1000. nia. }
    destruct (frame_caps d frameStart elapsed He ltac:(lia)) as [E1 E2]. fold ticks in E1, E2.
    split; [done|]. split; [done|]. split; [exact E1|]. split; [exact E2|].
    intros Hbig. rewrite E1, E2.
    assert (d <= 0) as Hd0.
    { subst d. destruct Hbig as [Hbig|Hneg].
      - rewrite Z.quot_small by lia. lia.
      - replace (targetFPS cfg) with (- (- targetFPS cfg)) by lia.
        rewrite Z.quot_opp_r by lia.
        pose proof (Z.quot_pos 1000 (- targetFPS cfg) ltac:(lia) ltac:(lia)). lia. }
    destruct (Z.ltb_spec elapsed d); [lia|done].
Qed.

Lemma frame_cap_pads_short_frames_witness :
  Engine.frameDelay Engine.main_cfg = Some 16 /\
  Engine.frame_cap 16 (2 ^ 32 - 2) (u32 (2 ^ 32 - 2 + 5)) = Some 11 /\
  Editor.frame_cap 16 (2 ^ 32 - 2) (u32 (2 ^ 32 - 2 + 5)) = Some 11.
Proof.
  destruct (frame_cap_pads_short_frames Engine.main_cfg (2 ^ 32 - 2) 5 ltac:(lia))
    as [_ H].
  destruct (H ltac:(discriminate)) as (H1 & _ & H2 & H3 & _).
  split; [exact H1|]. split; [exact H2|exact H3].
Defined.

(** ** Worlds that differ in positions only *)

Lemma moved_refl (e : Entity) : moved e e.
Proof. by repeat split. Qed.

Lemma moved_trans (e1 e2 e3 : Entity) : moved e1 e2 -> moved e2 e3 -> moved e1 e3.
Proof.
  intros (Hi & Ht & Hv & Hs & Ho) (Hi' & Ht' & Hv' & Hs' & Ho').
  split; [congruence|]. split; [congruence|]. split; [tauto|].
  split; congruence.
Qed.

Lemma owners_write_first (T : Type) `{Kind T} (f : T -> T) (cs : list Component) :
  owner <$> write_first T f cs = owner <$> cs.
Proof.
  induction cs as [|c cs IH]; [done|]. simpl.
  destruct (downcast (payload c)); [done|]. rewrite !fmap_cons. by rewrite IH.
Qed.

Lemma moved_modify_transform (f : Transform -> Transform) (e : Entity) :
  (forall t, getComponent Transform e = Some t -> size_of (f t) = size_of t) ->
  moved e (modify Transform f e).
Proof.
  intros Hf. split; [reflexivity|]. split.
  - rewrite get_modify. destruct (getComponent Transform e) as [t|]; simpl; [|done].
    by rewrite Hf.
  - split.
    + by rewrite (get_modify_other Transform Velocity) by apply unrelated_Transform_Velocity.
    + split; [|apply owners_write_first].
      by rewrite (get_modify_other Transform Sprite) by apply unrelated_Transform_Sprite.
Qed.


Lemma moved_modify_velocity (f : Velocity -> Velocity) (e : Entity) :
  moved e (modify Velocity f e).
Proof.
  split; [reflexivity|]. split.
  - by rewrite (get_modify_other Velocity Transform) by apply unrelated_Velocity_Transform.
  - split.
    + rewrite get_modify. by rewrite fmap_is_Some.
    + split; [|apply owners_write_first].
      by rewrite (get_modify_other Velocity Sprite) by apply unrelated_Velocity_Sprite.
Qed.

Lemma rearranged_refl (wd : World) : rearranged wd wd.
Proof. split; [done|]. apply Forall2_same_length_lookup. split; [done|].
  intros i e e' H1 H2. assert (e = e') as -> by congruence. apply moved_refl. Qed.

Lemma rearranged_trans (wd1 wd2 wd3 : World) :
  rearranged wd1 wd2 -> rearranged wd2 wd3 -> rearranged wd1 wd3.
Proof.
  intros [Hn H12] [Hn' H23]. split; [congruence|].
  revert H23. generalize (entities wd3). induction H12 as [|e1 e2 l1 l2 He Hl IH];
    intros l3 H23; inversion H23; subst; constructor; eauto using moved_trans.
Qed.

Lemma rearranged_at_entity (i : nat) (f : Entity -> Entity) (wd : World) :
  (forall e, entities wd !! i = Some e -> moved e (f e)) ->
  rearranged wd (at_entity i f wd).
Proof.
  intros Hf. split; [done|]. unfold at_entity; cbn [entities].
  apply Forall2_same_length_lookup. split; [by rewrite length_alter|].
  intros j e e' Hj Hj'. rewrite list_lookup_alter in Hj'.
  destruct (decide (i = j)) as [->|Hne].
  - rewrite Hj in Hj'. injection Hj' as <-. by apply Hf.
  - assert (e = e') as -> by congruence. apply moved_refl.
Qed.

Lemma rearranged_fmap (f : Entity -> Entity) (wd : World) :
  (forall e, moved e (f e)) ->
  rearranged wd {| nextId := nextId wd; entities := f <$> entities wd |}.
Proof.
  intros Hf. split; [done|]. cbn [entities].
  apply Forall2_fmap_r, Forall_Forall2_diag, Forall_forall. auto.
Qed.

Lemma rearranged_position (k : EntityId) (wd wd' : World) :
  rearranged wd wd' -> position k (entities wd') = position k (entities wd).
Proof.
  intros [_ H]. induction H as [|e e' l l' (Hid & _) _ IH]; [done|].
  simpl. rewrite Hid, IH. done.
Qed.

Lemma rearranged_lookup (wd wd' : World) (i : nat) :
  rearranged wd wd' ->
  match entities wd !! i, entities wd' !! i with
  | Some e, Some e' => moved e e'
  | None, None => True
  | _, _ => False
  end.
Proof.
  intros [_ H]. revert i. induction H as [|e e' l l' He _ IH]; intros [|i]; simpl; auto.
  apply IH.
Qed.

Lemma rearranged_keys (wd wd' : World) : rearranged wd wd' -> keys_of wd' = keys_of wd.
Proof.
  intros [_ H]. unfold keys_of. induction H as [|e e' l l' (Hid & _) _ IH]; [done|].
  rewrite !fmap_cons. by rewrite Hid, IH.
Qed.

Lemma rearranged_transform (k : EntityId) (wd wd' : World) :
  rearranged wd wd' ->
  size_of <$> Engine.component_of Transform k wd'
  = size_of <$> Engine.component_of Transform k wd.
Proof.
  intros H. unfold Engine.component_of, all. rewrite (rearranged_position k wd wd' H).
  destruct (position k (entities wd)) as [i|]; [|done]. simpl.
  pose proof (rearranged_lookup wd wd' i H) as Hi. unfold component_at, all.
  destruct (entities wd !! i) as [e|], (entities wd' !! i) as [e'|]; simpl; try done.
  by destruct Hi as (_ & -> & _).
Qed.

Lemma rearranged_velocity (k : EntityId) (wd wd' : World) :
  rearranged wd wd' ->
  is_Some (Engine.component_of Velocity k wd') <->
  is_Some (Engine.component_of Velocity k wd).
Proof.
  intros H. unfold Engine.component_of, all. rewrite (rearranged_position k wd wd' H).
  destruct (position k (entities wd)) as [i|]; [|done]. simpl.
  pose proof (rearranged_lookup wd wd' i H) as Hi. unfold component_at, all.
  destruct (entities wd !! i) as [e|], (entities wd' !! i) as [e'|]; simpl; try done.
  by destruct Hi as (_ & _ & ? & _).
Qed.

Lemma rearranged_write_to_transform (k : EntityId) (f : Transform -> Transform)
    (wd : World) :
  (forall t, size_of (f t) = size_of t) ->
  rearranged wd (Engine.write_to Transform k f wd).
Proof.
  intros Hf. unfold Engine.write_to. destruct (position k (all wd)); [|apply rearranged_refl].
  apply rearranged_at_entity. intros e _. apply moved_modify_transform. auto.
Qed.

Lemma rearranged_write_to_velocity (k : EntityId) (f : Velocity -> Velocity)
    (wd : World) :
  rearranged wd (Engine.write_to Velocity k f wd).
Proof.
  unfold Engine.write_to. destruct (position k (all wd)); [|apply rearranged_refl].
  apply rearranged_at_entity. intros e _. apply moved_modify_velocity.
Qed.

Lemma demo_ok_rearranged (cfg : EngineConfig) (d d' : Engine.Demo) :
  rearranged (Engine.world d) (Engine.world d') ->
  Engine.player d' = Engine.player d -> Engine.target d' = Engine.target d ->
  Engine.enemy d' = Engine.enemy d ->
  demo_ok cfg d -> demo_ok cfg d'.
Proof.
  unfold demo_ok. intros H -> -> -> (Hv & Hp & (tt & Ht & Htt) & (et & He & Het)).
  pose proof (rearranged_transform (Engine.player d) _ _ H) as Ep.
  pose proof (rearranged_transform (Engine.target d) _ _ H) as Et.
  pose proof (rearranged_transform (Engine.enemy d) _ _ H) as Ee.
  split; [by apply (rearranged_velocity _ _ _ H)|].
  split.
  { destruct Hp as [pt Hp]. rewrite Hp in Ep.
    destruct (Engine.component_of Transform (Engine.player d) (Engine.world d'));
      [eauto|discriminate Ep]. }
  unfold relocatable in *. split.
  - rewrite Ht in Et.
    destruct (Engine.component_of Transform (Engine.target d) (Engine.world d')) as [tt'|];
      [|discriminate Et].
    injection Et as Ew Eh. exists tt'. split; [done|]. by rewrite Ew, Eh.
  - rewrite He in Ee.
    destruct (Engine.component_of Transform (Engine.enemy d) (Engine.world d')) as [et'|];
      [|discriminate Ee].
    injection Ee as Ew Eh. exists et'. split; [done|]. by rewrite Ew, Eh.
Qed.

Lemma same_setting_refl (d : Engine.Demo) : same_setting d d.
Proof. by repeat split. Qed.

Lemma same_setting_trans (d1 d2 d3 : Engine.Demo) :
  same_setting d1 d2 -> same_setting d2 d3 -> same_setting d1 d3.
Proof. unfold same_setting. intuition congruence. Qed.

Lemma demo_ok_step (cfg : EngineConfig) (d d' : Engine.Demo) :
  rearranged (Engine.world d) (Engine.world d') -> same_setting d d' ->
  demo_ok cfg d -> demo_ok cfg d'.
Proof. intros H (_ & _ & ? & ? & ?). by apply demo_ok_rearranged. Qed.

(** ** The engine's input block *)

Lemma set_pv_spec (f : Velocity -> Velocity) (d : Engine.Demo) (v : Velocity) :
  Engine.component_of Velocity (Engine.player d) (Engine.world d) = Some v ->
  Engine.component_of Velocity (Engine.player d) (Engine.world (Engine.set_pv f d))
  = Some (f v) /\
  rearranged (Engine.world d) (Engine.world (Engine.set_pv f d)) /\
  (forall k, Engine.component_of Transform k (Engine.world (Engine.set_pv f d))
             = Engine.component_of Transform k (Engine.world d)) /\
  (forall k, k <> Engine.player d ->
             Engine.component_of Velocity k (Engine.world (Engine.set_pv f d))
             = Engine.component_of Velocity k (Engine.world d)) /\
  Engine.input (Engine.set_pv f d) = Engine.input d /\
  Engine.player (Engine.set_pv f d) = Engine.player d /\
  Engine.target (Engine.set_pv f d) = Engine.target d /\
  Engine.enemy (Engine.set_pv f d) = Engine.enemy d /\
  Engine.score (Engine.set_pv f d) = Engine.score d /\
  Engine.running (Engine.set_pv f d) = Engine.running d.
Proof.
  intros Hv. unfold Engine.set_pv; cbn.
  split; [by rewrite component_of_write, Hv|].
  split; [apply rearranged_write_to_velocity|].
  split; [intros k; apply component_of_write_other, unrelated_Velocity_Transform|].
  split; [intros k Hk; by apply component_of_write_ne|done].
Qed.

Lemma engine_steer_spec (d : Engine.Demo) :
  let key := Engine.either_key (Engine.input d) in
  (Engine.component_of Velocity (Engine.player d) (Engine.world d) = None ->
   Engine.steer d = None) /\
  (is_Some (Engine.component_of Velocity (Engine.player d) (Engine.world d)) ->
   match key Engine.SDL_SCANCODE_W Engine.SDL_SCANCODE_UP,
         key Engine.SDL_SCANCODE_S Engine.SDL_SCANCODE_DOWN,
         key Engine.SDL_SCANCODE_A Engine.SDL_SCANCODE_LEFT,
         key Engine.SDL_SCANCODE_D Engine.SDL_SCANCODE_RIGHT with
   | Some go_up, Some go_down, Some go_left, Some go_right =>
       exists d',
         Engine.steer d = Some d' /\
         Engine.component_of Velocity (Engine.player d) (Engine.world d')
         = Some (steered go_up go_down go_left go_right) /\
         (forall k, Engine.component_of Transform k (Engine.world d')
                    = Engine.component_of Transform k (Engine.world d)) /\
         (forall k, k <> Engine.player d ->
                    Engine.component_of Velocity k (Engine.world d')
                    = Engine.component_of Velocity k (Engine.world d)) /\
         rearranged (Engine.world d) (Engine.world d') /\
         Engine.input d' = Engine.input d /\ Engine.score d' = Engine.score d /\
         Engine.running d' = Engine.running d /\ Engine.player d' = Engine.player d /\
         Engine.target d' = Engine.target d /\ Engine.enemy d' = Engine.enemy d
   | _, _, _, _ => Engine.steer d = None
   end).
Proof.
  intros key. split.
  { intros Hnone. unfold Engine.steer. by rewrite Hnone. }
  intros [v Hv]. unfold Engine.steer. rewrite Hv. cbn [mbind option_bind]. cbv zeta.
  destruct (set_pv_spec (with_vx 0) d v Hv)
    as (Hv1 & Hr1 & Ht1 & Ho1 & Hi1 & Hp1 & Hta1 & He1 & Hs1 & Hu1).
  set (d1 := Engine.set_pv (with_vx 0) d) in *. rewrite <- Hp1 in Hv1.
  destruct (set_pv_spec (with_vy 0) d1 _ Hv1)
    as (Hv2 & Hr2 & Ht2 & Ho2 & Hi2 & Hp2 & Hta2 & He2 & Hs2 & Hu2).
  set (d2 := Engine.set_pv (with_vy 0) d1) in *. rewrite <- Hp2 in Hv2.
  assert (forall (b : bool) f dd u,
            Engine.component_of Velocity (Engine.player dd) (Engine.world dd) = Some u ->
            let dd' := if b then Engine.set_pv f dd else dd in
            Engine.component_of Velocity (Engine.player dd') (Engine.world dd')
            = Some (if b then f u else u) /\
            rearranged (Engine.world dd) (Engine.world dd') /\
            (forall k, Engine.component_of Transform k (Engine.world dd')
                       = Engine.component_of Transform k (Engine.world dd)) /\
            (forall k, k <> Engine.player dd ->
                       Engine.component_of Velocity k (Engine.world dd')
                       = Engine.component_of Velocity k (Engine.world dd)) /\
            Engine.input dd' = Engine.input dd /\
            Engine.player dd' = Engine.player dd /\
            Engine.target dd' = Engine.target dd /\
            Engine.enemy dd' = Engine.enemy dd /\
            Engine.score dd' = Engine.score dd /\
            Engine.running dd' = Engine.running dd) as Hstep.
  { intros [|] f dd u Hu; cbv zeta.
    - destruct (set_pv_spec f dd u Hu) as (H1 & H2 & H3); rewrite (proj1 (proj2 (proj2 (proj2 H3)))).
      split; [exact H1|]. split; [exact H2|exact H3].
    - split; [exact Hu|]. split; [apply rearranged_refl|]. done. }
  assert (Engine.input d2 = Engine.input d) as Hi by congruence.
  rewrite Hi. fold key.
  destruct (key Engine.SDL_SCANCODE_W Engine.SDL_SCANCODE_UP) as [go_up|]; [|done].
  cbn [mbind option_bind].
  destruct (Hstep go_up (with_vy (- (4))%Q) d2 _ Hv2)
    as (Hv3 & Hr3 & Ht3 & Ho3 & Hi3 & Hp3 & Hta3 & He3 & Hs3 & Hu3).
  set (d3 := if go_up then _ else d2) in *. cbv zeta in Hv3.
  rewrite Hi3, Hi. fold key.
  destruct (key Engine.SDL_SCANCODE_S Engine.SDL_SCANCODE_DOWN) as [go_down|]; [|done].
  cbn [mbind option_bind].
  destruct (Hstep go_down (with_vy 4%Q) d3 _ Hv3)
    as (Hv4 & Hr4 & Ht4 & Ho4 & Hi4 & Hp4 & Hta4 & He4 & Hs4 & Hu4).
  set (d4 := if go_down then _ else d3) in *. cbv zeta in Hv4.
  rewrite Hi4, Hi3, Hi. fold key.
  destruct (key Engine.SDL_SCANCODE_A Engine.SDL_SCANCODE_LEFT) as [go_left|]; [|done].
  cbn [mbind option_bind].
  destruct (Hstep go_left (with_vx (- (4))%Q) d4 _ Hv4)
    as (Hv5 & Hr5 & Ht5 & Ho5 & Hi5 & Hp5 & Hta5 & He5 & Hs5 & Hu5).
  set (d5 := if go_left then _ else d4) in *. cbv zeta in Hv5.
  rewrite Hi5, Hi4, Hi3, Hi. fold key.
  destruct (key Engine.SDL_SCANCODE_D Engine.SDL_SCANCODE_RIGHT) as [go_right|]; [|done].
  cbn [mbind option_bind].
  destruct (Hstep go_right (with_vx 4%Q) d5 _ Hv5)
    as (Hv6 & Hr6 & Ht6 & Ho6 & Hi6 & Hp6 & Hta6 & He6 & Hs6 & Hu6).
  set (d6 := if go_right then _ else d5) in *. cbv zeta in Hv6.
  exists d6. split; [reflexivity|].
  assert (Engine.player d6 = Engine.player d) as Hp by congruence.
  split.
  { rewrite <- Hp, Hv6. unfold steered. by destruct go_up, go_down, go_left, go_right. }
  split; [intros k; by rewrite Ht6, Ht5, Ht4, Ht3, Ht2, Ht1|].
  split.
  { intros k Hk. rewrite Ho6, Ho5, Ho4, Ho3, Ho2, Ho1; congruence. }
  split; [eauto 10 using rearranged_trans|].
  repeat split; congruence.
Qed.

(** X12. The input block of the engine's [onUpdate]. Without a [Velocity]
    on the player it dereferences null. Otherwise it looks up the four key
    pairs in order and throws unless each lookup that is evaluated finds
    its key; when all succeed the player's velocity is [4] down or [-4] up,
    [4] right or [-4] left, down and right winning over up and left, and
    nothing else of the engine changes. *)
Theorem steer_sets_velocity_from_keys (d : Engine.Demo) :
  let key := Engine.either_key (Engine.input d) in
  (Engine.component_of Velocity (Engine.player d) (Engine.world d) = None ->
   Engine.steer d = None) /\
  (is_Some (Engine.component_of Velocity (Engine.player d) (Engine.world d)) ->
   match key Engine.SDL_SCANCODE_W Engine.SDL_SCANCODE_UP,
         key Engine.SDL_SCANCODE_S Engine.SDL_SCANCODE_DOWN,
         key Engine.SDL_SCANCODE_A Engine.SDL_SCANCODE_LEFT,
         key Engine.SDL_SCANCODE_D Engine.SDL_SCANCODE_RIGHT with
   | Some go_up, Some go_down, Some go_left, Some go_right =>
       exists d',
         Engine.steer d = Some d' /\
         Engine.component_of Velocity (Engine.player d) (Engine.world d')
         = Some (steered go_up go_down go_left go_right) /\
         (forall k, Engine.component_of Transform k (Engine.world d')
                    = Engine.component_of Transform k (Engine.world d)) /\
         (forall k, k <> Engine.player d ->
                    Engine.component_of Velocity k (Engine.world d')
                    = Engine.component_of Velocity k (Engine.world d)) /\
         rearranged (Engine.world d) (Engine.world d') /\
         Engine.input d' = Engine.input d /\ Engine.score d' = Engine.score d /\
         Engine.running d' = Engine.running d /\ Engine.player d' = Engine.player d /\
         Engine.target d' = Engine.target d /\ Engine.enemy d' = Engine.enemy d
   | _, _, _, _ => Engine.steer d = None
   end).
Proof. apply engine_steer_spec. Qed.

(** ** The engine's frame *)

Section EngineFrame.
Variable cfg : EngineConfig.
Variable sqrtf : Q -> Q.

Lemma moved_integrate (e : Entity) : moved e (Engine.integrate cfg e).
Proof.
  unfold Engine.integrate.
  destruct (getComponent Transform e) as [t|]; [|apply moved_refl].
  destruct (getComponent Velocity e) as [v|]; [|apply moved_refl].
  apply moved_modify_transform. intros t' _. unfold size_of.
  by destruct (engine_move_size cfg v t') as [-> ->].
Qed.

Lemma rearranged_physicsSystem (wd : World) :
  rearranged wd (Engine.physicsSystem cfg wd).
Proof. apply rearranged_fmap, moved_integrate. Qed.

Lemma rearranged_write_current (k : EntityId) (f : Transform -> Transform) (wd : World) :
  (forall t, Engine.component_of Transform k wd = Some t -> size_of (f t) = size_of t) ->
  rearranged wd (Engine.write_to Transform k f wd).
Proof.
  intros Hf. unfold Engine.write_to, Engine.component_of in *.
  destruct (position k (all wd)) as [i|]; [|apply rearranged_refl]. cbn in Hf.
  apply rearranged_at_entity. intros e He. apply moved_modify_transform.
  intros t Ht. apply Hf. unfold component_at, all. by rewrite He.
Qed.

Lemma events_keep (evs : list Engine.SDL_Event) : forall d : Engine.Demo,
  let d' := foldl (fun d ev => Engine.on_event ev d) d evs in
  Engine.world d' = Engine.world d /\ Engine.player d' = Engine.player d /\
  Engine.target d' = Engine.target d /\ Engine.enemy d' = Engine.enemy d /\
  Engine.score d' = Engine.score d /\
  (forall sc, is_Some (Engine.at_key (Engine.input d) sc) ->
              is_Some (Engine.at_key (Engine.input d') sc)).
Proof.
  induction evs as [|ev evs IH]; intros d; [by cbn|].
  cbn [foldl]. destruct (IH (Engine.on_event ev d)) as (Hw & Hp & Ht & He & Hs & Hk).
  cbv zeta. rewrite Hw, Hp, Ht, He, Hs.
  destruct ev as [sc|sc| |]; cbn; repeat (split; [reflexivity|]);
    intros sc' Hsc'; apply Hk; cbn; try done;
    unfold Engine.at_key, Engine.set_key; cbn; by destruct (Engine.scancode_eqb sc' sc).
Qed.

Lemma either_key_seen (inp : Engine.InputState) (a b : Engine.SDL_Scancode) :
  is_Some (Engine.at_key inp a) -> is_Some (Engine.at_key inp b) ->
  is_Some (Engine.either_key inp a b).
Proof. unfold Engine.either_key. intros [[|] ->] Hb; [by eexists|exact Hb]. Qed.

Lemma engine_relocate_rearranged (k : EntityId) (g : Rng) (d : Engine.Demo)
    (tr : Transform) :
  Engine.component_of Transform k (Engine.world d) = Some tr ->
  relocatable cfg tr -> rng_ok g ->
  exists d' g',
    Engine.relocate cfg k g d = Some (d', g') /\
    rearranged (Engine.world d) (Engine.world d') /\
    Engine.score d' = Engine.score d /\ Engine.input d' = Engine.input d /\
    Engine.running d' = Engine.running d /\
    Engine.player d' = Engine.player d /\ Engine.target d' = Engine.target d /\
    Engine.enemy d' = Engine.enemy d /\ rng_ok g'.
Proof.
  intros Hk [Hw Hh] Hg.
  destruct (rand_below_ok (width cfg - to_int (w tr)) g Hg ltac:(lia))
    as (v1 & g1 & E1 & _ & _ & _ & _ & Hg1).
  destruct (rand_below_ok (height cfg - to_int (h tr)) g1 Hg1 ltac:(lia))
    as (v2 & g2 & E2 & _ & _ & _ & _ & Hg2).
  unfold Engine.relocate. rewrite Hk. cbn [mbind option_bind]. rewrite E1.
  cbn [mbind option_bind Engine.world Engine.with_world].
  rewrite component_of_write, Hk. cbn [fmap option_fmap option_map mbind option_bind with_x h].
  rewrite E2. cbn [mbind option_bind].
  eexists _, _. split; [reflexivity|]. cbn.
  split; [|done].
  eapply rearranged_trans; apply rearranged_write_to_transform; done.
Qed.

Lemma enemy_ai_total (d : Engine.Demo) :
  demo_ok cfg d ->
  exists d',
    Engine.enemy_ai sqrtf d = Some d' /\
    rearranged (Engine.world d) (Engine.world d') /\ same_setting d d' /\
    Engine.score d' = Engine.score d.
Proof.
  intros (_ & [pt Hp] & _ & (et & He & _)).
  unfold Engine.enemy_ai. rewrite Hp, He. cbn [mbind option_bind].
  destruct (engine_chase_total sqrtf pt et) as (et' & -> & Hw & Hh). cbn [mbind option_bind].
  eexists. split; [reflexivity|]. cbn. split; [|done].
  apply rearranged_write_current. intros t Ht. rewrite He in Ht. injection Ht as <-.
  unfold size_of. by rewrite Hw, Hh.
Qed.

Lemma relocate_step (k : EntityId) (g : Rng) (d : Engine.Demo) (tr : Transform) :
  Engine.component_of Transform k (Engine.world d) = Some tr ->
  relocatable cfg tr -> rng_ok g ->
  exists d' g',
    Engine.relocate cfg k g d = Some (d', g') /\
    rearranged (Engine.world d) (Engine.world d') /\ same_setting d d' /\
    Engine.score d' = Engine.score d /\ rng_ok g'.
Proof.
  intros Hk Hr Hg.
  destruct (engine_relocate_rearranged k g d tr Hk Hr Hg)
    as (d' & g' & E & H & Hs & Hi & Hu & Hp & Ht & He & Hg').
  exists d', g'. split; [exact E|]. split; [exact H|].
  split; [by unfold same_setting|]. by split.
Qed.

Lemma pickup_total (g : Rng) (d : Engine.Demo) :
  demo_ok cfg d -> rng_ok g ->
  exists d' g',
    Engine.pickup cfg g d = Some (d', g') /\
    rearranged (Engine.world d) (Engine.world d') /\ same_setting d d' /\
    (Engine.score d' = Engine.score d \/ Engine.score d' = Engine.score d + 1) /\
    rng_ok g'.
Proof.
  intros Hok Hg. pose proof Hok as (_ & [pt Hp] & (tt & Ht & Htt) & _).
  unfold Engine.pickup. rewrite Hp, Ht. cbn [mbind option_bind].
  destruct (aabbIntersect pt tt).
  - set (d0 := Engine.with_score (Engine.score d + 1) d).
    destruct (relocate_step (Engine.target d0) g d0 tt Ht Htt Hg)
      as (d1 & g1 & E1 & H1 & Hs1 & Hsc1 & Hg1).
    rewrite E1. cbn [mbind option_bind].
    assert (demo_ok cfg d1) as Hok1 by (by apply (demo_ok_step cfg d0)).
    destruct Hok1 as (_ & _ & _ & (et & He & Het)).
    destruct (relocate_step (Engine.enemy d1) g1 d1 et He Het Hg1)
      as (d2 & g2 & E2 & H2 & Hs2 & Hsc2 & Hg2).
    rewrite E2. exists d2, g2. split; [reflexivity|].
    split; [by apply (rearranged_trans _ (Engine.world d1))|].
    split; [by apply (same_setting_trans d0 d1)|].
    split; [right; by rewrite Hsc2, Hsc1|done].
  - exists d, g. split; [reflexivity|]. split; [apply rearranged_refl|].
    split; [apply same_setting_refl|]. split; [by left|done].
Qed.

Lemma catch_reset_total (g : Rng) (d : Engine.Demo) :
  demo_ok cfg d -> rng_ok g ->
  exists d' g',
    Engine.catch_reset cfg g d = Some (d', g') /\
    rearranged (Engine.world d) (Engine.world d') /\ same_setting d d' /\
    (Engine.score d' = Engine.score d \/ Engine.score d' = 0) /\
    rng_ok g'.
Proof.
  intros Hok Hg. pose proof Hok as (_ & [pt Hp] & _ & (et & He & Het)).
  unfold Engine.catch_reset. rewrite Hp, He. cbn [mbind option_bind].
  destruct (aabbIntersect pt et).
  - cbv zeta.
    set (d0 := Engine.with_world _ (Engine.with_world _ (Engine.with_score 0 d))).
    assert (rearranged (Engine.world d) (Engine.world d0)) as H0.
    { subst d0. cbn. eapply rearranged_trans; apply rearranged_write_to_transform; done. }
    assert (same_setting d d0) as Hs0 by (by unfold same_setting).
    assert (demo_ok cfg d0) as Hok0 by (by apply (demo_ok_step cfg d)).
    destruct Hok0 as (_ & _ & _ & (et0 & He0 & Het0)).
    destruct (relocate_step (Engine.enemy d0) g d0 et0 He0 Het0 Hg)
      as (d1 & g1 & E1 & H1 & Hs1 & Hsc1 & Hg1).
    rewrite E1. exists d1, g1. split; [reflexivity|].
    split; [by apply (rearranged_trans _ (Engine.world d0))|].
    split; [by apply (same_setting_trans d d0)|].
    split; [right; by rewrite Hsc1|done].
  - exists d, g. split; [reflexivity|]. split; [apply rearranged_refl|].
    split; [apply same_setting_refl|]. split; [by left|done].
Qed.

Lemma steer_total (d : Engine.Demo) :
  demo_ok cfg d -> keys_seen (Engine.input d) ->
  exists d',
    Engine.steer d = Some d' /\
    rearranged (Engine.world d) (Engine.world d') /\ same_setting d d' /\
    Engine.score d' = Engine.score d.
Proof.
  intros (Hv & _) Hkeys. unfold keys_seen in Hkeys.
  rewrite !Forall_cons in Hkeys.
  destruct Hkeys as (HW & HUP & HS & HDOWN & HA & HLEFT & HD & HRIGHT & _).
  pose proof (proj2 (engine_steer_spec d) Hv) as Hsteer. cbv zeta in Hsteer.
  destruct (either_key_seen _ _ _ HW HUP) as [b1 E1].
  destruct (either_key_seen _ _ _ HS HDOWN) as [b2 E2].
  destruct (either_key_seen _ _ _ HA HLEFT) as [b3 E3].
  destruct (either_key_seen _ _ _ HD HRIGHT) as [b4 E4].
  rewrite E1, E2, E3, E4 in Hsteer.
  destruct Hsteer as (d' & E & _ & _ & _ & Hr & Hi & Hs & Hu & Hp & Ht & He).
  exists d'. split; [exact E|]. split; [exact Hr|]. split; [by unfold same_setting|exact Hs].
Qed.

Lemma engine_frame_total (evs : list Engine.SDL_Event) (g : Rng) (d : Engine.Demo) :
  demo_ok cfg d -> keys_seen (Engine.input d) -> rng_ok g ->
  exists d' g',
    Engine.frame cfg sqrtf evs g d = Some (d', g') /\
    demo_ok cfg d' /\ keys_seen (Engine.input d') /\ rng_ok g' /\
    rearranged (Engine.world d) (Engine.world d') /\
    (0 <= Engine.score d -> 0 <= Engine.score d').
Proof.
  intros Hok Hkeys Hg. unfold Engine.frame.
  destruct (events_keep evs d) as (Hw & Hp & Ht & He & Hs & Hk).
  set (d0 := foldl _ d evs) in *.
  assert (demo_ok cfg d0) as Hok0.
  { unfold demo_ok. by rewrite Hw, Hp, Ht, He. }
  assert (keys_seen (Engine.input d0)) as Hkeys0.
  { unfold keys_seen in *. eapply Forall_impl; [exact Hkeys|]. exact Hk. }
  unfold Engine.onUpdate.
  destruct (steer_total d0 Hok0 Hkeys0) as (d1 & -> & H1 & S1 & Sc1).
  cbn [mbind option_bind]. cbv zeta.
  set (d2 := Engine.with_world (Engine.physicsSystem cfg (Engine.world d1)) d1).
  assert (rearranged (Engine.world d1) (Engine.world d2)) as H2
    by apply rearranged_physicsSystem.
  assert (same_setting d1 d2) as S2 by (by unfold same_setting).
  assert (demo_ok cfg d1) as Hok1 by (by apply (demo_ok_step cfg d0)).
  assert (demo_ok cfg d2) as Hok2 by (by apply (demo_ok_step cfg d1)).
  destruct (enemy_ai_total d2 Hok2) as (d3 & -> & H3 & S3 & Sc3).
  cbn [mbind option_bind].
  assert (demo_ok cfg d3) as Hok3 by (by apply (demo_ok_step cfg d2)).
  destruct (pickup_total g d3 Hok3 Hg) as (d4 & g4 & -> & H4 & S4 & Sc4 & Hg4).
  cbn [mbind option_bind].
  assert (demo_ok cfg d4) as Hok4 by (by apply (demo_ok_step cfg d3)).
  destruct (catch_reset_total g4 d4 Hok4 Hg4) as (d5 & g5 & -> & H5 & S5 & Sc5 & Hg5).
  exists d5, g5. split; [reflexivity|].
  split; [by apply (demo_ok_step cfg d4)|].
  assert (same_setting d0 d5) as S05 by eauto using same_setting_trans.
  split; [destruct S05 as (-> & _); exact Hkeys0|].
  split; [exact Hg5|].
  split.
  { rewrite <- Hw. eauto using rearranged_trans. }
  assert (Engine.score d2 = Engine.score d1) as Sc2 by reflexivity.
  lia.
Qed.

End EngineFrame.

(** ** The engine's first frames *)

Section EngineRun.
Variable cfg : EngineConfig.
Variable sqrtf : Q -> Q.

Lemma events_without_w (evs : list Engine.SDL_Event) : forall d : Engine.Demo,
  Forall (fun ev => about_w ev = false) evs ->
  Engine.at_key (Engine.input d) Engine.SDL_SCANCODE_W = None ->
  Engine.at_key (Engine.input (foldl (fun d ev => Engine.on_event ev d) d evs))
    Engine.SDL_SCANCODE_W = None.
Proof.
  induction evs as [|ev evs IH]; intros d Hevs Hw; [done|].
  apply Forall_cons in Hevs as [Hev Hevs]. cbn [foldl]. apply IH; [done|].
  destruct ev as [[]|[]| |]; try done; cbn in Hev |- *; done.
Qed.

(** X13. [onUpdate] reads the key table with [at]: as long as no event
    has told the state of the W key (the table of a fresh engine, or after
    [InputState::reset]), every frame throws, and a running loop ends
    there. *)
Theorem engine_frame_throws_until_w_seen (evs : list Engine.SDL_Event)
    (rest : list (list Engine.SDL_Event)) (g : Rng) (d : Engine.Demo) :
  Engine.at_key (Engine.input d) Engine.SDL_SCANCODE_W = None ->
  Forall (fun ev => about_w ev = false) evs ->
  Engine.frame cfg sqrtf evs g d = None /\
  (Engine.running d = true -> Engine.run cfg sqrtf (evs :: rest) g d = Engine.Thrown) /\
  Engine.at_key (Engine.reset (Engine.input d)) Engine.SDL_SCANCODE_W = None.
Proof.
  intros Hw Hevs.
  assert (Engine.frame cfg sqrtf evs g d = None) as Hframe.
  { unfold Engine.frame, Engine.onUpdate.
    pose proof (events_without_w evs d Hevs Hw) as Hw'.
    set (d0 := foldl _ d evs) in *.
    destruct (engine_steer_spec d0) as [Hnone Hsome].
    destruct (Engine.component_of Velocity (Engine.player d0) (Engine.world d0)) as [v|] eqn:Ev.
    - specialize (Hsome ltac:(eauto)). cbv zeta in Hsome.
      unfold Engine.either_key in Hsome at 1. rewrite Hw' in Hsome. by rewrite Hsome.
    - by rewrite Hnone. }
  split; [exact Hframe|]. split; [|reflexivity].
  intros Hrun. cbn [Engine.run]. by rewrite Hrun, Hframe.
Qed.

(** X14. Once the eight keys are in the table and the captured entities
    have their components, the engine's loop never throws and never
    dereferences null or divides by zero, whatever events arrive: after any
    number of frames the same holds again, the entities are those of the
    start, moved, and the score is not negative. *)
Theorem engine_never_throws_once_keys_seen (inputs : list (list Engine.SDL_Event))
    (g : Rng) (d : Engine.Demo) :
  demo_ok cfg d -> keys_seen (Engine.input d) -> rng_ok g -> 0 <= Engine.score d ->
  match Engine.run cfg sqrtf inputs g d with
  | Engine.Stopped d' g' | Engine.Pending d' g' =>
      demo_ok cfg d' /\ keys_seen (Engine.input d') /\ rng_ok g' /\
      rearranged (Engine.world d) (Engine.world d') /\ 0 <= Engine.score d'
  | Engine.Thrown => False
  end.
Proof.
  revert g d.
  induction inputs as [|evs rest IH]; intros g d Hok Hkeys Hg Hsc; cbn [Engine.run].
  - destruct (Engine.running d); auto using rearranged_refl.
  - destruct (Engine.running d); [|auto using rearranged_refl].
    destruct (engine_frame_total cfg sqrtf evs g d Hok Hkeys Hg)
      as (d' & g' & -> & Hok' & Hkeys' & Hg' & Hr & Hsc').
    specialize (IH g' d' Hok' Hkeys' Hg' (Hsc' Hsc)).
    destruct (Engine.run cfg sqrtf rest g' d') as [d'' g''| |d'' g'']; [|done|];
      destruct IH as (? & ? & ? & ? & ?); eauto 10 using rearranged_trans.
Qed.

End EngineRun.

Lemma engine_frame_throws_until_w_seen_witness :
  exists d g,
    Engine.setup Engine.main_cfg newest_first no_textures (replay [0; 0; 700; 336])
    = Some (d, g) /\
    Engine.frame Engine.main_cfg sqrt_approx [Engine.SDL_KEYDOWN Engine.SDL_SCANCODE_D] g d
    = None.
Proof.
  eexists _, _. split; [reflexivity|].
  apply (engine_frame_throws_until_w_seen Engine.main_cfg sqrt_approx
           [Engine.SDL_KEYDOWN Engine.SDL_SCANCODE_D] []).
  - reflexivity.
  - by repeat constructor.
Defined.

Lemma engine_never_throws_once_keys_seen_witness :
  exists d g,
    Engine.setup Engine.main_cfg newest_first no_textures (replay [0; 0; 700; 336])
    = Some (d, g) /\
    match Engine.run Engine.main_cfg sqrt_approx
            [[Engine.SDL_KEYDOWN Engine.SDL_SCANCODE_D]; []; [Engine.SDL_QUIT]] g
            (foldl (fun d ev => Engine.on_event ev d) d eight_keys_up) with
    | Engine.Stopped d' _ | Engine.Pending d' _ => 0 <= Engine.score d'
    | Engine.Thrown => False
    end.
Proof.
  eexists _, _. split; [reflexivity|].
  match goal with
  | |- match Engine.run ?c ?s ?i ?g ?d with _ => _ end =>
      pose proof (engine_never_throws_once_keys_seen c s i g d) as H
  end.
  destruct (Engine.run _ _ _ _ _).
  - apply H.
    + split; [by eexists|]. split; [by eexists|].
      split; eexists; (split; [reflexivity|]); split; vm_compute; reflexivity.
    + repeat constructor; by eexists.
    + apply rng_ok_replay. repeat constructor; lia.
    + reflexivity.
  - apply H.
    + split; [by eexists|]. split; [by eexists|].
      split; eexists; (split; [reflexivity|]); split; vm_compute; reflexivity.
    + repeat constructor; by eexists.
    + apply rng_ok_replay. repeat constructor; lia.
    + reflexivity.
  - apply H.
    + split; [by eexists|]. split; [by eexists|].
      split; eexists; (split; [reflexivity|]); split; vm_compute; reflexivity.
    + repeat constructor; by eexists.
    + apply rng_ok_replay. repeat constructor; lia.
    + reflexivity.
Defined.

(** ** Stopping the engine *)

Section EngineStop.
Variable cfg : EngineConfig.
Variable sqrtf : Q -> Q.

Lemma run_stopped (inputs : list (list Engine.SDL_Event)) :
  forall (g g' : Rng) (d d' : Engine.Demo),
  Engine.run cfg sqrtf inputs g d = Engine.Stopped d' g' -> Engine.running d' = false.
Proof.
  induction inputs as [|evs rest IH]; intros g g' d d'; cbn [Engine.run].
  - destruct (Engine.running d) eqn:E; [discriminate|]. by intros [= <- <-].
  - destruct (Engine.running d) eqn:E; [|by intros [= <- <-]].
    destruct (Engine.frame cfg sqrtf evs g d) as [[d1 g1]|]; [|discriminate].
    apply IH.
Qed.

(** X15. [Engine::stop] acts only while [running] is set. After the loop
    of [run] has ended through [SDL_QUIT] the flag is clear, so the call in
    [main] and the one of the destructor release nothing. While the flag is
    set, [stop] clears it, destroys the window, quits the libraries, frees
    every cached texture and font once and empties the caches, and a second
    call releases nothing. *)
Theorem stop_releases_only_while_running (s : Engine.Services) :
  (forall inputs g g' d d',
     Engine.run cfg sqrtf inputs g d = Engine.Stopped d' g' ->
     Engine.stop d' s = (d', s, Engine.nothing)) /\
  (forall d, Engine.running d = true ->
     let '(d1, s1, r1) := Engine.stop d s in
     Engine.running d1 = false /\
     Engine.sdl_quit r1 = true /\ Engine.window_destroyed r1 = Engine.window_up s /\
     (forall p t, TextureManager.cache (Engine.texman s) !! p = Some t ->
                  t ∈ Engine.textures r1) /\
     length (Engine.textures r1) = size (TextureManager.cache (Engine.texman s)) /\
     (forall k f, Engine.FontManager.cache (Engine.fontman s) !! k = Some f ->
                  f ∈ Engine.fonts r1) /\
     length (Engine.fonts r1) = size (Engine.FontManager.cache (Engine.fontman s)) /\
     TextureManager.cache (Engine.texman s1) = ∅ /\
     Engine.FontManager.cache (Engine.fontman s1) = ∅ /\
     Engine.AudioManager.sfx (Engine.audioman s1) = ∅ /\
     Engine.AudioManager.mus (Engine.audioman s1) = ∅ /\
     Engine.stop d1 s1 = (d1, s1, Engine.nothing)).
Proof.
  split.
  - intros inputs g g' d d' Hrun. apply run_stopped in Hrun.
    unfold Engine.stop. by rewrite Hrun.
  - intros d Hrun. unfold Engine.stop. rewrite Hrun.
    unfold TextureManager.clear, Engine.FontManager.clear, Engine.AudioManager.cleanup.
    cbn. repeat split.
    + intros p t Hp. apply list_elem_of_fmap. exists (p, t). split; [done|].
      by apply elem_of_map_to_list.
    + by rewrite length_fmap, length_map_to_list.
    + intros p t Hp. apply list_elem_of_fmap. exists (p, t). split; [done|].
      by apply elem_of_map_to_list.
    + by rewrite length_fmap, length_map_to_list.
Qed.

End EngineStop.

(** ** What a step of the editor leaves alone *)

Lemma rearranged_write_at (i : nat) (f : Transform -> Transform) (wd : World) :
  (forall t, component_at Transform i wd = Some t -> size_of (f t) = size_of t) ->
  rearranged wd (at_entity i (modify Transform f) wd).
Proof.
  intros Hf. apply rearranged_at_entity. intros e He. apply moved_modify_transform.
  intros t Ht. apply Hf. unfold component_at, all. by rewrite He.
Qed.

Section EditorStep.
Variable cfg : EngineConfig.
Variable sqrtf : Q -> Q.

Lemma moved_editor_integrate (dt : Q) (e : Entity) : moved e (Editor.integrate cfg dt e).
Proof.
  unfold Editor.integrate.
  destruct (getComponent Transform e) as [t|]; [|apply moved_refl].
  destruct (getComponent Velocity e) as [v|]; [|apply moved_refl].
  apply moved_modify_transform. intros t' _. unfold size_of.
  by destruct (editor_move_size cfg dt v t') as [-> ->].
Qed.

Lemma rearranged_physics (dt : Q) (wd : World) : rearranged wd (Editor.physics cfg dt wd).
Proof. apply rearranged_fmap, moved_editor_integrate. Qed.

Lemma chase_and_catch_rearranged (dt : Q) (p e : nat) (ed ed1 : Editor.Editor2) :
  Editor.chase_and_catch cfg sqrtf dt p e ed = Some ed1 ->
  rearranged (Editor.world ed) (Editor.world ed1) /\
  Editor.selected ed1 = Editor.selected ed /\
  (Editor.score ed1 = Editor.score ed \/ Editor.score ed1 = 0).
Proof.
  unfold Editor.chase_and_catch.
  destruct (component_at Transform p (Editor.world ed)) as [pt|]; [|discriminate].
  destruct (component_at Transform e (Editor.world ed)) as [et|] eqn:He; [|discriminate].
  cbn [mbind option_bind].
  destruct (editor_chase_total sqrtf dt pt et) as (et' & -> & Hw & Hh).
  cbn [mbind option_bind Editor.world Editor.with_world].
  set (wd1 := at_entity e (modify Transform (fun _ => et')) (Editor.world ed)).
  assert (rearranged (Editor.world ed) wd1) as H1.
  { apply rearranged_write_at. intros t Ht. rewrite He in Ht. injection Ht as <-.
    unfold size_of. by rewrite Hw, Hh. }
  destruct (component_at Transform p wd1) as [pt1|]; [|discriminate].
  destruct (component_at Transform e wd1) as [et1|]; [|discriminate].
  cbn [mbind option_bind].
  destruct (aabbIntersect pt1 et1); intros [= <-].
  - cbn [Editor.world Editor.with_world Editor.with_score Editor.selected Editor.score].
    split; [|split; [reflexivity|by right]].
    eapply rearranged_trans; [exact H1|].
    eapply rearranged_trans; by apply rearranged_write_at.
  - cbn. split; [exact H1|]. split; [reflexivity|by left].
Qed.

Lemma pickup_rearranged (p t : nat) (g g' : Rng) (ed ed' : Editor.Editor2) :
  Editor.pickup cfg p t g ed = Some (ed', g') ->
  rearranged (Editor.world ed) (Editor.world ed') /\
  Editor.selected ed' = Editor.selected ed /\
  ((Editor.score ed' = Editor.score ed /\ g' = g) \/
   (Editor.score ed' = Editor.score ed + 1 /\ cursor g' = S (S (cursor g)))).
Proof.
  unfold Editor.pickup.
  destruct (component_at Transform p (Editor.world ed)) as [pt|]; [|discriminate].
  destruct (component_at Transform t (Editor.world ed)) as [tt|] eqn:Ht; [|discriminate].
  cbn [mbind option_bind].
  destruct (aabbIntersect pt tt).
  - cbn [mbind option_bind Editor.world Editor.with_world Editor.with_score].
    rewrite Ht. cbn [mbind option_bind].
    destruct (rand_below (width cfg - to_int (w tt)) g) as [[r1 g1]|] eqn:E1; [|discriminate].
    cbn [mbind option_bind Editor.world Editor.with_world].
    rewrite component_at_write, Ht.
    cbn [fmap option_fmap option_map mbind option_bind].
    destruct (rand_below _ g1) as [[r2 g2]|] eqn:E2; [|discriminate].
    cbn [mbind option_bind Editor.world Editor.with_world].
    intros [= <- <-]. cbn [Editor.world Editor.selected Editor.score Editor.with_world
                            Editor.with_score].
    split; [|split; [reflexivity|right; split; [reflexivity|]]].
    + eapply rearranged_trans; by apply rearranged_write_at.
    + unfold rand_below, rand in E1, E2.
      destruct (imod _ _) in E1; [|discriminate]. injection E1 as _ <-.
      destruct (imod _ _) in E2; [|discriminate]. by injection E2 as _ <-.
  - intros [= <- <-]. split; [apply rearranged_refl|]. split; [reflexivity|by left].
Qed.

Lemma update_rearranged (dt : Q) (g g' : Rng) (ed ed' : Editor.Editor2) :
  Editor.update cfg sqrtf dt g ed = Some (ed', g') ->
  rearranged (Editor.world ed) (Editor.world ed') /\
  Editor.selected ed' = Editor.selected ed /\
  (Editor.score ed' = Editor.score ed \/ Editor.score ed' = Editor.score ed + 1 \/
   Editor.score ed' = 0 \/ Editor.score ed' = 1) /\
  (cursor g' = cursor g \/ cursor g' = S (S (cursor g))).
Proof.
  unfold Editor.update. destruct (Editor.playing ed).
  2:{ intros [= <- <-]. split; [apply rearranged_refl|]. split; [done|]. split; by left. }
  cbv zeta. cbn [Editor.world Editor.with_world].
  pose proof (rearranged_physics dt (Editor.world ed)) as H0.
  set (ed0 := Editor.with_world (Editor.physics cfg dt (Editor.world ed)) ed) in *.
  destruct (Editor.find_roles _) as [r|]; [|discriminate]. cbn [mbind option_bind].
  destruct (match Editor.player r, Editor.enemy r with
            | Some p, Some e => Editor.chase_and_catch cfg sqrtf dt p e ed0
            | _, _ => Some ed0
            end) as [ed1|] eqn:E1; [|discriminate].
  assert (rearranged (Editor.world ed0) (Editor.world ed1) /\
          Editor.selected ed1 = Editor.selected ed0 /\
          (Editor.score ed1 = Editor.score ed0 \/ Editor.score ed1 = 0))
    as (H1 & Hs1 & Hsc1).
  { destruct (Editor.player r) as [p|], (Editor.enemy r) as [e|];
      try (injection E1 as <-; split; [apply rearranged_refl|];
           split; [reflexivity|by left]).
    by apply chase_and_catch_rearranged in E1. }
  cbn [mbind option_bind]. intros Hpick.
  assert (rearranged (Editor.world ed1) (Editor.world ed') /\
          Editor.selected ed' = Editor.selected ed1 /\
          ((Editor.score ed' = Editor.score ed1 /\ g' = g) \/
           (Editor.score ed' = Editor.score ed1 + 1 /\ cursor g' = S (S (cursor g)))))
    as (H2 & Hs2 & Hsc2).
  { destruct (Editor.player r) as [p|], (Editor.target r) as [t|];
      try (injection Hpick as <- <-; split; [apply rearranged_refl|];
           split; [reflexivity|by left]).
    by apply pickup_rearranged in Hpick. }
  split; [eauto using rearranged_trans|].
  split; [by rewrite Hs2, Hs1|].
  assert (Editor.score ed0 = Editor.score ed) as Hsc0 by reflexivity.
  split; [|destruct Hsc2 as [[_ ->]|[_ ->]]; auto].
  destruct Hsc1 as [F1|F1], Hsc2 as [[F2 _]|[F2 _]]; rewrite F2, F1, ?Hsc0; auto.
Qed.

End EditorStep.

Section EditorStepTheorems.
Variable cfg : EngineConfig.
Variable sqrtf : Q -> Q.

(** X16. A step of the editor's [update] that returns creates and deletes
    no entity: the keys and their order, the counter, every [Sprite] and
    [Velocity] and the size of every [Transform] are as before, and so are
    the selection and the play flag; the score is kept, raised by one or
    reset (to 0, or to 1 when the pickup follows the reset); [rand()] is
    called twice or not at all. *)
Theorem update_only_moves_entities (dt : Q) (g g' : Rng) (ed ed' : Editor.Editor2) :
  Editor.update cfg sqrtf dt g ed = Some (ed', g') ->
  keys_of (Editor.world ed') = keys_of (Editor.world ed) /\
  nextId (Editor.world ed') = nextId (Editor.world ed) /\
  (forall i,
     component_at Sprite i (Editor.world ed') = component_at Sprite i (Editor.world ed) /\
     component_at Velocity i (Editor.world ed') = component_at Velocity i (Editor.world ed) /\
     size_of <$> component_at Transform i (Editor.world ed')
     = size_of <$> component_at Transform i (Editor.world ed)) /\
  Editor.selected ed' = Editor.selected ed /\
  Editor.playing ed' = Editor.playing ed /\
  (Editor.score ed' = Editor.score ed \/ Editor.score ed' = Editor.score ed + 1 \/
   Editor.score ed' = 0 \/ Editor.score ed' = 1) /\
  draws g' = draws g /\
  (cursor g' = cursor g \/ cursor g' = S (S (cursor g))).
Proof.
  intros Hup.
  destruct (update_rearranged cfg sqrtf dt g g' ed ed' Hup) as (Hr & Hsel & Hsc & Hcur).
  destruct (same_shape_update cfg sqrtf dt g g' ed ed' Hup) as (_ & _ & [_ Hs] & Hpl & Hd).
  split; [by apply rearranged_keys|]. split; [by destruct Hr|].
  split; [exact Hs|]. by repeat split.
Qed.

Lemma editor_pickup_total (p t : nat) (g : Rng) (ed : Editor.Editor2) (pt tt : Transform) :
  component_at Transform p (Editor.world ed) = Some pt ->
  component_at Transform t (Editor.world ed) = Some tt ->
  to_int (w tt) <> width cfg -> to_int (h tt) <> height cfg ->
  is_Some (Editor.pickup cfg p t g ed).
Proof.
  intros Hp Ht Hw Hh. unfold Editor.pickup. rewrite Hp, Ht. cbn [mbind option_bind].
  destruct (aabbIntersect pt tt); [|by eexists].
  cbn [mbind option_bind Editor.world Editor.with_world Editor.with_score].
  rewrite Ht. cbn [mbind option_bind].
  rewrite rand_below_nonzero by lia.
  cbn [mbind option_bind Editor.world Editor.with_world].
  rewrite component_at_write, Ht. cbn [fmap option_fmap option_map mbind option_bind with_x h].
  rewrite rand_below_nonzero by lia. by eexists.
Qed.

(** X17. In a scene where no sprite lacks a transform and no transform
    has [(int)w] equal to the world's width or [(int)h] to its height, a
    step of [update] returns, for every [dt] and every generator: no null
    pointer is dereferenced and no division is by zero. *)
Theorem update_succeeds_unless_modulus_zero (dt : Q) (g : Rng) (ed : Editor.Editor2) :
  sprites_have_transforms (all (Editor.world ed)) ->
  (forall i tr, component_at Transform i (Editor.world ed) = Some tr ->
                to_int (w tr) <> width cfg /\ to_int (h tr) <> height cfg) ->
  is_Some (Editor.update cfg sqrtf dt g ed).
Proof.
  intros Hsp Hsize. destruct (Editor.playing ed) eqn:Hplay.
  2:{ unfold Editor.update. rewrite Hplay. by eexists. }
  rewrite update_playing by done. cbv zeta. cbn [Editor.world Editor.with_world].
  set (wd0 := Editor.physics cfg dt (Editor.world ed)).
  pose proof (same_shape_physics cfg dt (Editor.world ed)) as Hs0. fold wd0 in Hs0.
  assert (sprites_have_transforms (all wd0)) as Hsp0 by by apply physics_keeps_sprites.
  destruct (find_roles_from_total (all wd0) O Editor.no_roles Hsp0) as [r Hr].
  change (Editor.find_roles wd0 = Some r) in Hr. rewrite Hr. cbn [mbind option_bind].
  set (ed0 := Editor.with_world wd0 ed).
  assert (exists ed1,
            match Editor.player r, Editor.enemy r with
            | Some p, Some e => Editor.chase_and_catch cfg sqrtf dt p e ed0
            | _, _ => Some ed0
            end = Some ed1 /\ same_shape wd0 (Editor.world ed1)) as (ed1 & -> & Hs1).
  { destruct (Editor.player r) as [p|] eqn:Ep, (Editor.enemy r) as [e|] eqn:Ee;
      try (exists ed0; split; [reflexivity|apply same_shape_refl]).
    destruct (role_has_transform wd0 r Player p Hr Ep) as (pt & Hpt & _).
    destruct (role_has_transform wd0 r Enemy e Hr Ee) as (et & Het & _).
    assert (p <> e) as Hpe.
    { intros ->. by pose proof (roles_distinct wd0 r Player Enemy e Hr Ep Ee). }
    destruct (chase_and_catch_spec cfg sqrtf dt p e ed0 pt et Hpe Hpt Het)
      as (et' & _ & _ & _ & E).
    eexists. split; [exact E|].
    by apply (same_shape_chase_and_catch cfg sqrtf dt p e ed0) in E as [? _]. }
  cbn [mbind option_bind].
  destruct (Editor.player r) as [p|] eqn:Ep, (Editor.target r) as [t|] eqn:Et;
    try by eexists.
  assert (forall i tr, component_at Transform i (Editor.world ed1) = Some tr ->
                       to_int (w tr) <> width cfg /\ to_int (h tr) <> height cfg) as Hsize1.
  { intros i tr Htr.
    pose proof (same_shape_trans _ _ _ Hs0 Hs1) as [_ Hs]. destruct (Hs i) as (_ & _ & Hi).
    rewrite Htr in Hi. destruct (component_at Transform i (Editor.world ed)) as [tr0|] eqn:E0;
      [|discriminate Hi].
    injection Hi as Hw Hh. rewrite Hw, Hh. by apply (Hsize i). }
  assert (forall i, is_Some (component_at Transform i wd0) ->
                    is_Some (component_at Transform i (Editor.world ed1))) as Hsome.
  { intros i [tr Htr]. destruct Hs1 as [_ Hs]. destruct (Hs i) as (_ & _ & Hi).
    rewrite Htr in Hi. destruct (component_at Transform i (Editor.world ed1)); [eauto|].
    discriminate Hi. }
  destruct (role_has_transform wd0 r Player p Hr Ep) as (pt & Hpt & _).
  destruct (role_has_transform wd0 r Target t Hr Et) as (tt & Htt & _).
  destruct (Hsome p ltac:(eauto)) as [pt1 Hpt1]. destruct (Hsome t ltac:(eauto)) as [tt1 Htt1].
  destruct (Hsize1 t tt1 Htt1). by apply (editor_pickup_total p t g ed1 pt1 tt1).
Qed.

(** X18. The pickup block divides by zero when the player touches a
    target whose [(int)w] is the world's width or whose [(int)h] is its
    height: [rand() % 0]. *)
Theorem pickup_divides_by_zero_at_world_size (p t : nat) (g : Rng) (ed : Editor.Editor2)
    (pt tt : Transform) :
  component_at Transform p (Editor.world ed) = Some pt ->
  component_at Transform t (Editor.world ed) = Some tt ->
  aabbIntersect pt tt = true ->
  to_int (w tt) = width cfg \/ to_int (h tt) = height cfg ->
  Editor.pickup cfg p t g ed = None.
Proof.
  intros Hp Ht Hhit Hz. unfold Editor.pickup. rewrite Hp, Ht. cbn [mbind option_bind].
  rewrite Hhit. cbn [mbind option_bind Editor.world Editor.with_world Editor.with_score].
  rewrite Ht. cbn [mbind option_bind].
  destruct (Z.eq_dec (to_int (w tt)) (width cfg)) as [Ew|Ew].
  - unfold rand_below, rand, imod. rewrite Ew, Z.sub_diag. reflexivity.
  - destruct Hz as [?|Eh]; [done|].
    rewrite rand_below_nonzero by lia.
    cbn [mbind option_bind Editor.world Editor.with_world].
    rewrite component_at_write, Ht. cbn [fmap option_fmap option_map mbind option_bind with_x h].
    unfold rand_below, rand, imod. rewrite Eh, Z.sub_diag. reflexivity.
Qed.

End EditorStepTheorems.

(** ** What the editor keeps true of its scene *)

Lemma owned_alt (e : Entity) :
  owned e <-> Forall (fun o => o = id e) (owner <$> components e).
Proof. unfold owned. by rewrite Forall_fmap. Qed.

Lemma sound_moved (e e' : Entity) : moved e e' -> sound e -> sound e'.
Proof.
  intros (Hid & Ht & _ & _ & Ho) [[t Hs] Hown]. split.
  - rewrite Hs in Ht. destruct (getComponent Transform e'); [eauto|discriminate Ht].
  - rewrite owned_alt in *. by rewrite Ho, Hid.
Qed.

Lemma sound_modify_transform (f : Transform -> Transform) (e : Entity) :
  sound e -> sound (modify Transform f e).
Proof.
  intros [[t Ht] Hown]. split.
  - rewrite get_modify, Ht. by eexists.
  - rewrite owned_alt in *. cbn [modify components id].
    by rewrite owners_write_first.
Qed.

Lemma sound_modify_other (T : Type) `{Kind T} (f : T -> T) (e : Entity) :
  unrelated T Transform -> sound e -> sound (modify T f e).
Proof.
  intros HT [Ht Hown]. split.
  - by rewrite (get_modify_other T Transform).
  - rewrite owned_alt in *. cbn [modify components id].
    by rewrite owners_write_first.
Qed.

Lemma owned_add (T : Type) `{Kind T} (e : Entity) : owned e -> owned (addComponent T e).
Proof.
  unfold owned, addComponent; cbn [components id]. intros Hown.
  apply Forall_app. split; [done|]. by repeat constructor.
Qed.

Lemma sound_add (T : Type) `{Kind T} (e : Entity) : sound e -> sound (addComponent T e).
Proof.
  intros [[t Ht] Hown]. split; [|by apply owned_add].
  exists t. unfold getComponent, addComponent in *; cbn [components].
  by apply first_of_app_hit.
Qed.

Lemma keys_at_entity (i : nat) (f : Entity -> Entity) (wd : World) :
  (forall e, id (f e) = id e) -> keys_of (at_entity i f wd) = keys_of wd.
Proof.
  intros Hf. unfold keys_of, at_entity; cbn [entities].
  apply list_eq. intros j. rewrite !list_lookup_fmap, list_lookup_alter.
  destruct (decide (i = j)) as [->|]; [|done].
  destruct (entities wd !! j); simpl; [by rewrite Hf|done].
Qed.

Lemma editor_ok_at_entity (i : nat) (f : Entity -> Entity) (ed : Editor.Editor2) :
  (forall e, id (f e) = id e) -> (forall e, sound e -> sound (f e)) ->
  editor_ok ed -> editor_ok (Editor.with_world (at_entity i f (Editor.world ed)) ed).
Proof.
  intros Hid Hf (Hw & Hs & Hsel). unfold editor_ok, world_ok in *.
  cbn [Editor.world Editor.with_world Editor.selected]. rewrite keys_at_entity by done.
  split; [exact Hw|]. split; [|exact Hsel].
  unfold all, at_entity in *; cbn [entities].
  apply Forall_forall. intros e He. apply list_elem_of_lookup in He as [j Hj].
  rewrite list_lookup_alter in Hj. rewrite Forall_forall in Hs.
  destruct (decide (i = j)) as [->|].
  - destruct (entities (Editor.world ed) !! j) as [e0|] eqn:E0; [|discriminate].
    injection Hj as <-. apply Hf, Hs. by eapply list_elem_of_lookup_2.
  - apply Hs. by eapply list_elem_of_lookup_2.
Qed.

Lemma editor_ok_rearranged (ed ed' : Editor.Editor2) :
  rearranged (Editor.world ed) (Editor.world ed') ->
  Editor.selected ed' = Editor.selected ed ->
  editor_ok ed -> editor_ok ed'.
Proof.
  intros Hr Hsel (Hw & Hs & Hk). unfold editor_ok, world_ok in *.
  rewrite Hsel, (rearranged_keys _ _ Hr). destruct Hr as [Hn Hr]. rewrite Hn.
  split; [exact Hw|]. split; [|exact Hk].
  unfold all in *. clear -Hr Hs.
  induction Hr as [|e e' l l' He _ IH]; [done|].
  apply Forall_cons in Hs as [Hse Hsl]. constructor; [by eapply sound_moved|by apply IH].
Qed.

Lemma id_modify (T : Type) `{Kind T} (f : T -> T) (e : Entity) : id (modify T f e) = id e.
Proof. reflexivity. Qed.

Lemma id_add (T : Type) `{Kind T} (e : Entity) : id (addComponent T e) = id e.
Proof. reflexivity. Qed.

Lemma unrelated_Sprite_Transform : unrelated Sprite Transform.
Proof. intros t. reflexivity. Qed.

Section EditorInvariant.
Variable cfg : EngineConfig.
Variable sqrtf : Q -> Q.
Variable slot : Slot.
Variable texman_load : string -> Texture.

Lemma editor_ok_update (dt : Q) (g g' : Rng) (ed ed' : Editor.Editor2) :
  Editor.update cfg sqrtf dt g ed = Some (ed', g') -> editor_ok ed -> editor_ok ed'.
Proof.
  intros Hup. destruct (update_rearranged cfg sqrtf dt g g' ed ed' Hup) as (Hr & Hsel & _).
  by apply editor_ok_rearranged.
Qed.

Lemma editor_ok_set_first_velocity (f : Velocity -> Velocity) (ed ed' : Editor.Editor2) :
  Editor.set_first_velocity f ed = Some ed' -> editor_ok ed -> editor_ok ed'.
Proof.
  unfold Editor.set_first_velocity.
  destruct (component_at Velocity 0 (Editor.world ed)); [|discriminate].
  intros [= <-]. apply editor_ok_at_entity; [done|].
  intros e. apply sound_modify_other, unrelated_Velocity_Transform.
Qed.

Lemma editor_ok_when (b : bool) (f : Velocity -> Velocity) (ed ed' : Editor.Editor2) :
  Editor.when b (Editor.set_first_velocity f) ed = Some ed' ->
  editor_ok ed -> editor_ok ed'.
Proof.
  destruct b; cbn [Editor.when].
  - apply editor_ok_set_first_velocity.
  - by intros [= <-].
Qed.

Lemma editor_ok_on_event (ev : Editor.SDL_Event) (st st' : bool * Editor.Editor2) :
  Editor.on_event ev st = Some st' -> editor_ok st.2 -> editor_ok st'.2.
Proof.
  destruct st as [running ed]. destruct ev as [sym|sym| | |]; cbn [Editor.on_event snd].
  - unfold Editor.on_keydown. destruct (Editor.playing ed).
    2:{ by intros [= <-]. }
    destruct (Editor.when _ _ ed) as [ed1|] eqn:E1; [|discriminate]. cbn [mbind option_bind].
    destruct (Editor.when _ _ ed1) as [ed2|] eqn:E2; [|discriminate]. cbn [mbind option_bind].
    destruct (Editor.when _ _ ed2) as [ed3|] eqn:E3; [|discriminate]. cbn [mbind option_bind].
    destruct (Editor.when _ _ ed3) as [ed4|] eqn:E4; [|discriminate]. cbn [mbind option_bind].
    intros [= <-] Hok. cbn [snd].
    eauto using editor_ok_when.
  - unfold Editor.on_keyup. destruct (Editor.playing ed).
    2:{ by intros [= <-]. }
    destruct (Editor.when _ _ ed) as [ed1|] eqn:E1; [|discriminate]. cbn [mbind option_bind].
    destruct (Editor.when _ _ ed1) as [ed2|] eqn:E2; [|discriminate]. cbn [mbind option_bind].
    intros [= <-] Hok. cbn [snd].
    eauto using editor_ok_when.
  - by intros [= <-].
  - by intros [= <-].
  - by intros [= <-].
Qed.

Lemma editor_ok_poll_events (evs : list Editor.SDL_Event) :
  forall st st' : bool * Editor.Editor2,
  Editor.poll_events evs st = Some st' -> editor_ok st.2 -> editor_ok st'.2.
Proof.
  induction evs as [|ev evs IH]; intros st st'; cbn [Editor.poll_events].
  - by intros [= <-].
  - destruct (Editor.on_event ev st) as [st1|] eqn:E1; [|discriminate].
    cbn [mbind option_bind]. intros E Hok. apply (IH st1 st' E).
    by apply (editor_ok_on_event ev st).
Qed.

(** The hierarchy panel *)

Lemma select_rows_valid (clicked : nat -> bool) (l : list Entity) :
  forall (i : nat) (sel : option EntityId),
  Editor.select_rows clicked i l sel = sel \/
  exists k, Editor.select_rows clicked i l sel = Some k /\ k ∈ id <$> l.
Proof.
  induction l as [|e l IH]; intros i sel; cbn [Editor.select_rows]; [by left|].
  destruct (IH (S i) (if clicked i then Some (id e) else sel)) as [->|(k & -> & Hk)].
  - destruct (clicked i); [|by left]. right. exists (id e). split; [done|].
    rewrite fmap_cons. by left.
  - right. exists k. split; [done|]. rewrite fmap_cons. by right.
Qed.

Lemma add_entity_result (wd : World) :
  world_ok wd ->
  Editor.add_entity slot wd =
  {| nextId := (nextId wd + 1) mod 2 ^ 32;
     entities :=
       insert_at (landing slot wd)
         {| id := nextId wd;
            components :=
              [ {| owner := nextId wd;
                   payload := PTransform {| x := 50; y := 50; w := 32; h := 32;
                                            angle := 0 |} |} ] |}
         (entities wd) |}.
Proof.
  intros Hok. unfold Editor.add_entity.
  rewrite (createEntity_fresh slot wd (keys_fresh wd Hok)). cbv beta iota zeta.
  rewrite !at_entity_inserted by apply Nat.le_min_r. reflexivity.
Qed.

Lemma editor_ok_add_entity (ed : Editor.Editor2) :
  nextId (Editor.world ed) + 1 < 2 ^ 32 ->
  editor_ok ed -> editor_ok (Editor.with_world (Editor.add_entity slot (Editor.world ed)) ed).
Proof.
  intros Hroom (Hw & Hs & Hsel). rewrite (add_entity_result _ Hw).
  pose proof Hw as (Hnd & Hlt & Hn).
  unfold editor_ok, world_ok, keys_of, all in *.
  cbn [Editor.world Editor.with_world Editor.selected entities nextId].
  rewrite Z.mod_small by lia.
  assert (forall P : list Entity -> Prop, Proper (Permutation ==> iff) P ->
            P (insert_at (landing slot (Editor.world ed))
                 {| id := nextId (Editor.world ed);
                    components :=
                      [ {| owner := nextId (Editor.world ed);
                           payload := PTransform {| x := 50; y := 50; w := 32; h := 32;
                                                    angle := 0 |} |} ] |}
                 (entities (Editor.world ed))) <->
            P ({| id := nextId (Editor.world ed);
                  components :=
                    [ {| owner := nextId (Editor.world ed);
                         payload := PTransform {| x := 50; y := 50; w := 32; h := 32;
                                                  angle := 0 |} |} ] |}
               :: entities (Editor.world ed))) as Hperm.
  { intros P HP. apply HP, insert_at_perm. }
  split; [split; [|split; [|lia]]|split].
  - apply (Hperm (fun l => NoDup (id <$> l))); [solve_proper|].
    rewrite fmap_cons. apply NoDup_cons. split; [|done]. cbn [id].
    intros Hin. rewrite Forall_forall in Hlt. apply Hlt in Hin. lia.
  - apply (Hperm (fun l => Forall (fun k => 1 <= k < nextId (Editor.world ed) + 1)
                             (id <$> l))); [solve_proper|].
    rewrite fmap_cons. apply Forall_cons. split; [cbn [id]; lia|].
    eapply Forall_impl; [exact Hlt|]. cbn. lia.
  - apply (Hperm (Forall sound)); [solve_proper|].
    apply Forall_cons. split; [|done]. split; [by eexists|]. by repeat constructor.
  - destruct (Editor.selected ed) as [k|]; [|done].
    apply (Hperm (fun l => k ∈ id <$> l)); [solve_proper|].
    rewrite fmap_cons. by right.
Qed.

Lemma editor_ok_destroy (k : EntityId) (ed : Editor.Editor2) :
  editor_ok ed ->
  editor_ok (Editor.with_selected None
               (Editor.with_world (destroyEntity k (Editor.world ed)) ed)).
Proof.
  intros (Hw & Hs & _). unfold editor_ok.
  cbn [Editor.world Editor.with_world Editor.selected Editor.with_selected].
  split; [by apply destroyEntity_ok|]. split; [|done].
  unfold all, destroyEntity in *; cbn [entities].
  apply Forall_forall. intros e He. rewrite Forall_forall in Hs. apply Hs.
  apply list_elem_of_filter in He. tauto.
Qed.

Lemma editor_ok_uiHierarchy (hi : Editor.HierarchyInput) (ed : Editor.Editor2) :
  nextId (Editor.world ed) + 1 < 2 ^ 32 ->
  editor_ok ed -> editor_ok (Editor.uiHierarchy slot hi ed).
Proof.
  intros Hroom Hok. unfold Editor.uiHierarchy. cbv zeta.
  set (ed1 := Editor.with_selected _ ed).
  assert (editor_ok ed1) as Hok1.
  { destruct Hok as (Hw & Hs & Hsel). subst ed1. unfold editor_ok.
    cbn [Editor.world Editor.selected Editor.with_selected].
    split; [done|]. split; [done|].
    destruct (select_rows_valid (Editor.row_clicked hi) (all (Editor.world ed)) O
                (Editor.selected ed)) as [->|(k & -> & Hk)]; done. }
  set (ed2 := if Editor.add_clicked hi then _ else ed1).
  assert (editor_ok ed2) as Hok2.
  { subst ed2. destruct (Editor.add_clicked hi); [|done]. by apply editor_ok_add_entity. }
  destruct (Editor.selected ed2) as [k|] eqn:Ek; [|done].
  destruct (Editor.delete_clicked hi); [|done]. by apply editor_ok_destroy.
Qed.

(** The inspector panel *)

Lemma editor_ok_write (i : nat) (f : Entity -> Entity) (wd : World) (ed : Editor.Editor2) :
  (forall e, id (f e) = id e) -> (forall e, sound e -> sound (f e)) ->
  editor_ok (Editor.with_world wd ed) ->
  editor_ok (Editor.with_world (at_entity i f wd) ed).
Proof. intros Hid Hf Hok. exact (editor_ok_at_entity i f _ Hid Hf Hok). Qed.

Lemma editor_ok_drag_float (v : option Q) (set : Q -> Transform -> Transform) (i : nat)
    (wd : World) (ed : Editor.Editor2) :
  editor_ok (Editor.with_world wd ed) ->
  editor_ok (Editor.with_world (Editor.drag_float v set i wd) ed).
Proof.
  intros Hok. unfold Editor.drag_float. destruct v as [v|]; [|done].
  apply editor_ok_write; [done| |done]. intros e. apply sound_modify_transform.
Qed.

Lemma editor_ok_uiInspector (ii : Editor.InspectorInput) (ed : Editor.Editor2) :
  editor_ok ed -> editor_ok (Editor.uiInspector texman_load ii ed).
Proof.
  intros Hok. unfold Editor.uiInspector.
  destruct (Editor.selected ed) as [k|]; [|done].
  destruct (position k _) as [i|]; [|done]. cbv zeta.
  assert (editor_ok (Editor.with_world (Editor.world ed) ed)) as Hok0 by (by destruct ed).
  set (wd1 := match component_at Transform i (Editor.world ed) with
              | Some _ => _ | None => _ end).
  assert (editor_ok (Editor.with_world wd1 ed)) as Hok1.
  { subst wd1. destruct (component_at Transform i (Editor.world ed)); [|done].
    by repeat apply editor_ok_drag_float. }
  destruct (component_at Sprite i wd1).
  - destruct (Editor.load_clicked ii); [|done].
    destruct (String.eqb _ _); [done|].
    apply editor_ok_write; [done| |done].
    intros e. apply sound_modify_other, unrelated_Sprite_Transform.
  - destruct (Editor.add_sprite_clicked ii); [|done].
    apply editor_ok_write; [done| |done]. intros e. apply sound_add.
Qed.

(** The viewport panel *)

Lemma pick_valid (sp : Q * Q) (l : list Entity) (k : EntityId) :
  Editor.pick sp l = Some k -> k ∈ id <$> l.
Proof.
  induction l as [|e l IH]; cbn [Editor.pick]; [discriminate|]. rewrite fmap_cons.
  destruct (getComponent Transform e) as [tr|]; [destruct (Editor.contains tr sp)|].
  - intros [= <-]. by left.
  - intros H. right. by apply IH.
  - intros H. right. by apply IH.
Qed.

Lemma editor_ok_drag_to (sp : Q * Q) (ed : Editor.Editor2) :
  editor_ok ed -> editor_ok (Editor.drag_to sp ed).
Proof.
  intros Hok. unfold Editor.drag_to. destruct (Editor.selected ed) as [k|] eqn:Ek.
  - destruct (position k _) as [i|]; [|done]. cbv zeta.
    apply editor_ok_write; [done|intros e; apply sound_modify_transform|].
    apply editor_ok_write; [done|intros e; apply sound_modify_transform|].
    by destruct ed.
  - destruct (Editor.pick sp _) as [k|] eqn:Ep; [|done].
    destruct Hok as (Hw & Hs & _). unfold editor_ok.
    cbn [Editor.world Editor.selected Editor.with_selected].
    split; [done|]. split; [done|]. by apply pick_valid in Ep.
Qed.

End EditorInvariant.

Lemma rand_below_zero (g : Rng) : rand_below 0 g = None.
Proof. reflexivity. Qed.

Section Spawn.
Variable cfg : EngineConfig.
Variable sqrtf : Q -> Q.
Variable slot : Slot.
Variable texman_load : string -> Texture.

Lemma spawnDemoScene_world (g : Rng) (ed ed' : Editor.Editor2) (g' : Rng) :
  Editor.spawnDemoScene cfg slot texman_load g ed = Some (ed', g') ->
  Editor.selected ed' = None /\ Editor.score ed' = 0 /\
  Editor.playing ed' = Editor.playing ed /\
  nextId (Editor.world ed') = 4 /\
  all (Editor.world ed') ≡ₚ
    [ demo_player cfg texman_load;
      demo_target cfg texman_load (draws g (cursor g)) (draws g (1 + cursor g)%nat);
      demo_enemy cfg texman_load (draws g (2 + cursor g)%nat)
        (draws g (3 + cursor g)%nat) ].
Proof.
  unfold Editor.spawnDemoScene.
  rewrite (createEntity_fresh slot World0) by constructor.
  cbv beta iota zeta.
  rewrite !at_entity_inserted by apply Nat.le_min_r.
  fresh_create slot.
  destruct (Z.eq_dec (width cfg - 32) 0) as [->|H1]; [discriminate|]. next_rand.
  destruct (Z.eq_dec (height cfg - 32) 0) as [->|H2]; [discriminate|]. next_rand.
  fresh_create slot.
  destruct (Z.eq_dec (width cfg - 48) 0) as [->|H3]; [discriminate|]. next_rand.
  destruct (Z.eq_dec (height cfg - 48) 0) as [->|H4]; [discriminate|]. next_rand.
  intros [= <- <-]. cbn [Editor.selected Editor.score Editor.playing Editor.world
                          Editor.with_world Editor.with_score Editor.with_selected].
  repeat (split; [reflexivity|]).
  cbn [all entities World0]. rewrite insert_at_three. reflexivity.
Qed.

Lemma editor_ok_spawn (g : Rng) (ed ed' : Editor.Editor2) (g' : Rng) :
  Editor.spawnDemoScene cfg slot texman_load g ed = Some (ed', g') -> editor_ok ed'.
Proof.
  intros Hs. apply spawnDemoScene_world in Hs as (Hsel & _ & _ & Hn & Hperm).
  unfold editor_ok, world_ok, keys_of. unfold all in Hperm. rewrite Hsel, Hn.
  unfold all. rewrite Hperm. cbn.
  split; [split; [|split; [|lia]]|split; [|done]].
  - repeat (apply NoDup_cons; split; [rewrite ?elem_of_cons, elem_of_nil; lia|]).
    apply NoDup_nil_2.
  - repeat constructor; lia.
  - repeat constructor; by eexists.
Qed.

Lemma editor_ok_uiViewport (ui : Editor.ViewportInput) (g g' : Rng)
    (ed ed' : Editor.Editor2) :
  Editor.uiViewport cfg slot texman_load ui g ed = Some (ed', g') ->
  editor_ok ed -> editor_ok ed'.
Proof.
  unfold Editor.uiViewport. cbv zeta. intros Hui Hok.
  set (ed1 := if Editor.play_clicked ui then _ else ed) in Hui.
  assert (editor_ok ed1) as Hok1.
  { subst ed1. destruct (Editor.play_clicked ui); [|done]. by destruct ed. }
  destruct (if Editor.spawn_clicked ui then _ else Some (ed1, g)) as [[ed2 g2]|] eqn:E2;
    [|discriminate].
  assert (editor_ok ed2) as Hok2.
  { destruct (Editor.spawn_clicked ui).
    - by apply editor_ok_spawn in E2.
    - by injection E2 as <- <-. }
  cbn [mbind option_bind] in Hui.
  destruct (Editor.dragging ui) as [mp|].
  - destruct (Editor.screen_to_world _ _ _ _) as [sp|]; [|discriminate].
    cbn [mbind option_bind] in Hui. injection Hui as <- <-. by apply editor_ok_drag_to.
  - by injection Hui as <- <-.
Qed.

Lemma nextId_set_first_velocity (f : Velocity -> Velocity) (b : bool)
    (ed ed' : Editor.Editor2) :
  Editor.when b (Editor.set_first_velocity f) ed = Some ed' ->
  nextId (Editor.world ed') = nextId (Editor.world ed).
Proof.
  destruct b; cbn [Editor.when]; [|by intros [= <-]].
  unfold Editor.set_first_velocity.
  destruct (component_at Velocity 0 (Editor.world ed)); [|discriminate].
  by intros [= <-].
Qed.

Lemma nextId_poll_events (evs : list Editor.SDL_Event) :
  forall st st' : bool * Editor.Editor2,
  Editor.poll_events evs st = Some st' ->
  nextId (Editor.world st'.2) = nextId (Editor.world st.2).
Proof.
  induction evs as [|ev evs IH]; intros st st'; cbn [Editor.poll_events].
  - by intros [= <-].
  - destruct (Editor.on_event ev st) as [st1|] eqn:E1; [|discriminate].
    cbn [mbind option_bind]. intros E. rewrite (IH st1 st' E). clear E IH.
    destruct st as [running ed]. destruct ev as [sym|sym| | |]; cbn [Editor.on_event snd] in *.
    + unfold Editor.on_keydown in E1. destruct (Editor.playing ed).
      2:{ by injection E1 as <-. }
      destruct (Editor.when _ _ ed) as [ed1|] eqn:F1; [|discriminate].
      cbn [mbind option_bind] in E1.
      destruct (Editor.when _ _ ed1) as [ed2|] eqn:F2; [|discriminate].
      cbn [mbind option_bind] in E1.
      destruct (Editor.when _ _ ed2) as [ed3|] eqn:F3; [|discriminate].
      cbn [mbind option_bind] in E1.
      destruct (Editor.when _ _ ed3) as [ed4|] eqn:F4; [|discriminate].
      cbn [mbind option_bind] in E1. injection E1 as <-. cbn [snd].
      apply nextId_set_first_velocity in F1, F2, F3, F4. congruence.
    + unfold Editor.on_keyup in E1. destruct (Editor.playing ed).
      2:{ by injection E1 as <-. }
      destruct (Editor.when _ _ ed) as [ed1|] eqn:F1; [|discriminate].
      cbn [mbind option_bind] in E1.
      destruct (Editor.when _ _ ed1) as [ed2|] eqn:F2; [|discriminate].
      cbn [mbind option_bind] in E1. injection E1 as <-. cbn [snd].
      apply nextId_set_first_velocity in F1, F2. congruence.
    + by injection E1 as <-.
    + by injection E1 as <-.
    + by injection E1 as <-.
Qed.

(** X20. One iteration of the editor's loop (key events, [update], then
    the hierarchy, inspector and viewport panels with any input) that
    returns, with room in the counter for one more key, keeps the scene
    sound: keys distinct, valid and below the counter, every entity
    with a [Transform] and owning its components, the selection naming an
    entity of the world. Hence the role loop of the next [update] does not
    dereference a null [Transform]. *)
Theorem editor_frame_keeps_scene_sound (evs : list Editor.SDL_Event) (dt : Q)
    (hi : Editor.HierarchyInput) (ii : Editor.InspectorInput) (ui : Editor.ViewportInput)
    (g g' : Rng) (st st' : bool * Editor.Editor2) :
  Editor.frame_ui cfg sqrtf slot texman_load evs dt hi ii ui g st = Some (st', g') ->
  nextId (Editor.world st.2) + 1 < 2 ^ 32 ->
  editor_ok st.2 ->
  editor_ok st'.2 /\ is_Some (Editor.find_roles (Editor.world st'.2)).
Proof.
  unfold Editor.frame_ui. intros Hf Hroom Hok.
  destruct (Editor.poll_events evs st) as [[running ed1]|] eqn:E1; [|discriminate].
  cbn [mbind option_bind] in Hf.
  destruct (Editor.update cfg sqrtf dt g ed1) as [[ed2 g2]|] eqn:E2; [|discriminate].
  cbn [mbind option_bind] in Hf.
  destruct (Editor.renderUI _ _ _ _ _ _ _ ed2) as [[ed3 g3]|] eqn:E3; [|discriminate].
  cbn [mbind option_bind] in Hf. injection Hf as <- <-. cbn [snd].
  pose proof (editor_ok_poll_events evs st _ E1 Hok) as Hok1. cbn [snd] in Hok1.
  pose proof (nextId_poll_events evs st _ E1) as Hn1. cbn [snd] in Hn1.
  pose proof (editor_ok_update cfg sqrtf dt g g2 ed1 ed2 E2 Hok1) as Hok2.
  destruct (update_rearranged cfg sqrtf dt g g2 ed1 ed2 E2) as ([Hn2 _] & _).
  unfold Editor.renderUI in E3. cbv zeta in E3.
  assert (editor_ok ed3) as Hok3.
  { apply (editor_ok_uiViewport ui g2 g3 _ ed3 E3). apply editor_ok_uiInspector.
    apply editor_ok_uiHierarchy; [|done]. rewrite Hn2, Hn1. exact Hroom. }
  split; [exact Hok3|].
  apply find_roles_from_total. destruct Hok3 as (_ & Hs & _).
  unfold sprites_have_transforms. eapply Forall_impl; [exact Hs|].
  intros e [Ht _] _. exact Ht.
Qed.

End Spawn.

(** ** The hierarchy panel *)

Section Hierarchy.
Variable slot : Slot.

Lemma select_rows_none (clicked : nat -> bool) (l : list Entity) :
  forall (i : nat) (sel : option EntityId),
  (forall j, (j < length l)%nat -> clicked (i + j)%nat = false) ->
  Editor.select_rows clicked i l sel = sel.
Proof.
  induction l as [|e l IH]; intros i sel Hnone; cbn [Editor.select_rows]; [done|].
  rewrite IH.
  - specialize (Hnone O ltac:(simpl; lia)). rewrite Nat.add_0_r in Hnone. by rewrite Hnone.
  - intros j Hj. replace (S i + j)%nat with (i + S j)%nat by lia. apply Hnone. simpl. lia.
Qed.

Lemma select_rows_last (clicked : nat -> bool) (l : list Entity) :
  forall (i j : nat) (sel : option EntityId) (e : Entity),
  l !! j = Some e -> clicked (i + j)%nat = true ->
  (forall j', (j < j' < length l)%nat -> clicked (i + j')%nat = false) ->
  Editor.select_rows clicked i l sel = Some (id e).
Proof.
  induction l as [|e0 l IH]; intros i j sel e Hj Hc Hlater; [done|].
  cbn [Editor.select_rows]. destruct j as [|j].
  - injection Hj as ->. rewrite Nat.add_0_r in Hc. rewrite Hc.
    apply select_rows_none. intros j' Hj'. replace (S i + j')%nat with (i + S j')%nat by lia.
    apply Hlater. simpl. lia.
  - apply (IH (S i) j _ e Hj).
    + by replace (S i + j)%nat with (i + S j)%nat by lia.
    + intros j' Hj'. replace (S i + j')%nat with (i + S j')%nat by lia.
      apply Hlater. simpl. lia.
Qed.

(** X21. The Add Entity button, pressed alone in a sound scene with room
    in the counter: the world gains one entity under the
    next key, holding only a [Transform] at (50, 50) of size 32x32 (no
    [Sprite], no [Velocity]); all other entities, the selection, the score
    and the play flag are as before. *)
Theorem hierarchy_add_entity (hi : Editor.HierarchyInput) (ed : Editor.Editor2) :
  editor_ok ed -> nextId (Editor.world ed) + 1 < 2 ^ 32 ->
  Editor.add_clicked hi = true -> Editor.delete_clicked hi = false ->
  (forall i, Editor.row_clicked hi i = false) ->
  let k := nextId (Editor.world ed) in
  let ed' := Editor.uiHierarchy slot hi ed in
  entity_with k (Editor.world ed') = Some (added_entity k) /\
  (forall k', k' <> k ->
     entity_with k' (Editor.world ed') = entity_with k' (Editor.world ed)) /\
  length (all (Editor.world ed')) = S (length (all (Editor.world ed))) /\
  nextId (Editor.world ed') = k + 1 /\
  getComponent Sprite (added_entity k) = None /\
  getComponent Velocity (added_entity k) = None /\
  Editor.selected ed' = Editor.selected ed /\ Editor.score ed' = Editor.score ed /\
  Editor.playing ed' = Editor.playing ed /\ editor_ok ed'.
Proof.
  intros Hok Hroom Hadd Hdel Hrows k ed'.
  pose proof (editor_ok_uiHierarchy slot hi ed Hroom Hok) as Hok'. fold ed' in Hok'.
  assert (ed' = Editor.with_world (Editor.add_entity slot (Editor.world ed)) ed) as E.
  { subst ed'. unfold Editor.uiHierarchy. cbv zeta.
    rewrite select_rows_none by (intros; apply Hrows). rewrite Hadd, Hdel.
    destruct ed as [wd [sel|] pl sc]; reflexivity. }
  destruct Hok as (Hw & _ & _). rewrite (add_entity_result slot _ Hw) in E.
  pose proof Hok' as ((Hnd' & _) & _).
  rewrite E in *. clear E ed'.
  cbn [Editor.world Editor.with_world Editor.selected Editor.score Editor.playing
       nextId] in *.
  pose proof Hw as (Hnd & Hlt & Hn).
  assert (forall e, e ∈ insert_at (landing slot (Editor.world ed)) (added_entity k)
                          (entities (Editor.world ed)) <->
                    e = added_entity k \/ e ∈ entities (Editor.world ed)) as Hin.
  { intros e. rewrite insert_at_perm. apply elem_of_cons. }
  split.
  { apply entity_with_elem; [exact Hnd'| |reflexivity]. cbn [entities]. apply Hin. by left. }
  split.
  { intros k' Hk'. destruct (entity_with k' (Editor.world ed)) as [e0|] eqn:E0.
    - apply entity_with_Some in E0 as [He0 Hid].
      apply entity_with_elem; [exact Hnd'| |exact Hid]. cbn [entities]. apply Hin. by right.
    - apply entity_with_None. apply entity_with_None in E0. intros Hk. apply E0.
      unfold keys_of in *. cbn [entities] in Hk.
      apply list_elem_of_fmap in Hk as (e & -> & He). apply Hin in He as [->|He]; [done|].
      apply list_elem_of_fmap. eauto. }
  split.
  { unfold all. cbn [entities]. by rewrite insert_at_perm. }
  split; [apply Z.mod_small; lia|]. repeat (split; [reflexivity|]). exact Hok'.
Qed.

(** X22. In a sound scene the Delete Selected button (Add Entity not
    pressed) removes the entity selected once
    this frame's row clicks are taken into account (the last clicked row
    wins) and clears the selection; the other entities, the counter, the
    score and the play flag are as before, and the world shrinks by one. *)
Theorem hierarchy_delete_selected (hi : Editor.HierarchyInput) (ed : Editor.Editor2)
    (sel : EntityId) :
  editor_ok ed ->
  Editor.add_clicked hi = false -> Editor.delete_clicked hi = true ->
  Editor.select_rows (Editor.row_clicked hi) O (all (Editor.world ed)) (Editor.selected ed)
  = Some sel ->
  let ed' := Editor.uiHierarchy slot hi ed in
  Editor.selected ed' = None /\
  entity_with sel (Editor.world ed') = None /\
  (forall k', k' <> sel ->
     entity_with k' (Editor.world ed') = entity_with k' (Editor.world ed)) /\
  S (length (all (Editor.world ed'))) = length (all (Editor.world ed)) /\
  nextId (Editor.world ed') = nextId (Editor.world ed) /\
  Editor.score ed' = Editor.score ed /\ Editor.playing ed' = Editor.playing ed /\
  (forall (j : nat) (e : Entity),
     all (Editor.world ed) !! j = Some e -> Editor.row_clicked hi j = true ->
     (forall j', (j < j' < length (all (Editor.world ed)))%nat ->
                 Editor.row_clicked hi j' = false) ->
     sel = id e).
Proof.
  intros Hok Hadd Hdel Hsel ed'.
  assert (ed' = Editor.with_selected None
                  (Editor.with_world (destroyEntity sel (Editor.world ed)) ed)) as E.
  { subst ed'. unfold Editor.uiHierarchy. cbv zeta. rewrite Hsel, Hadd.
    cbn [Editor.selected Editor.with_selected]. by rewrite Hdel. }
  rewrite E. clear E ed'.
  cbn [Editor.world Editor.with_world Editor.selected Editor.with_selected Editor.score
       Editor.playing].
  assert (sel ∈ keys_of (Editor.world ed)) as Hin.
  { destruct (select_rows_valid (Editor.row_clicked hi) (all (Editor.world ed)) O
                (Editor.selected ed)) as [E|(k & E & Hk)].
    - rewrite E in Hsel. destruct Hok as (_ & _ & Hs). by rewrite Hsel in Hs.
    - rewrite E in Hsel. by injection Hsel as <-. }
  destruct Hok as ((Hnd & _) & _).
  split; [reflexivity|].
  split.
  { apply entity_with_None. unfold keys_of, destroyEntity; cbn [entities].
    intros Hk. apply list_elem_of_fmap in Hk as (e & -> & He).
    apply list_elem_of_filter in He. tauto. }
  split.
  { intros k' Hk'. unfold entity_with, destroyEntity; cbn [entities].
    by apply position_filter_ne. }
  split.
  { unfold all, destroyEntity; cbn [entities]. apply filter_key_present; [exact Hnd|].
    destruct (position sel (entities (Editor.world ed))) as [i|] eqn:Ei; [eauto|].
    exfalso. apply position_None in Ei. rewrite Forall_forall in Ei.
    unfold keys_of in Hin. apply list_elem_of_fmap in Hin as (e & -> & He). by apply (Ei e). }
  split; [reflexivity|]. split; [reflexivity|]. split; [reflexivity|].
  intros j e Hj Hc Hlater.
  rewrite (select_rows_last _ _ O j _ e Hj Hc Hlater) in Hsel. by injection Hsel as <-.
Qed.

End Hierarchy.

(** ** The inspector panel *)

Lemma edited_at_refl (i : nat) (wd : World) : edited_at i wd wd.
Proof. by repeat split. Qed.

Lemma edited_at_trans (i : nat) (wd1 wd2 wd3 : World) :
  edited_at i wd1 wd2 -> edited_at i wd2 wd3 -> edited_at i wd1 wd3.
Proof.
  intros (Hn & Ho & Hi) (Hn' & Ho' & Hi'). split; [congruence|]. split; [|congruence].
  intros j Hj. by rewrite Ho', Ho.
Qed.

Lemma edited_at_write (i : nat) (f : Entity -> Entity) (wd : World) :
  (forall e, id (f e) = id e) -> edited_at i wd (at_entity i f wd).
Proof.
  intros Hf. split; [done|]. split.
  - intros j Hj. by apply all_at_entity_ne.
  - rewrite all_at_entity, decide_True by done.
    destruct (all wd !! i); simpl; [by rewrite Hf|done].
Qed.

Lemma component_at_add (T : Type) `{Kind T} (i : nat) (wd : World) :
  component_at T i (at_entity i (addComponent T) wd) =
  match all wd !! i with
  | Some e => match getComponent T e with Some t => Some t | None => Some fresh end
  | None => None
  end.
Proof.
  unfold component_at. rewrite all_at_entity, decide_True by done.
  destruct (all wd !! i); simpl; [apply get_add|done].
Qed.

Lemma component_at_add_other (T U : Type) `{Kind T} `{Kind U} (i j : nat) (wd : World) :
  unrelated T U ->
  component_at U j (at_entity i (addComponent T) wd) = component_at U j wd.
Proof.
  intros HTU. unfold component_at. rewrite all_at_entity.
  destruct (decide (i = j)) as [->|]; [|done].
  destruct (all wd !! j) as [e|]; simpl; [|done].
  unfold getComponent, addComponent; cbn [components].
  destruct (first_of U (components e)) as [u|] eqn:E.
  - by apply first_of_app_hit.
  - rewrite first_of_app_miss by done. simpl. by rewrite HTU.
Qed.

Lemma unrelated_Sprite_Velocity : unrelated Sprite Velocity.
Proof. intros t. reflexivity. Qed.

Section Inspector.
Variable texman_load : string -> Texture.

Lemma drag_float_spec (v : option Q) (set : Q -> Transform -> Transform) (i : nat)
    (wd : World) :
  component_at Transform i (Editor.drag_float v set i wd)
  = (fun t => match v with Some new => set new t | None => t end)
      <$> component_at Transform i wd /\
  component_at Sprite i (Editor.drag_float v set i wd) = component_at Sprite i wd /\
  component_at Velocity i (Editor.drag_float v set i wd) = component_at Velocity i wd /\
  edited_at i wd (Editor.drag_float v set i wd).
Proof.
  unfold Editor.drag_float. destruct v as [v|].
  - split; [apply component_at_write|].
    split; [apply component_at_write_other, unrelated_Transform_Sprite|].
    split; [apply component_at_write_other, unrelated_Transform_Velocity|].
    by apply edited_at_write.
  - split; [by destruct (component_at Transform i wd)|].
    split; [done|]. split; [done|apply edited_at_refl].
Qed.

(** X23. The inspector acts on the selected entity only (an entity of
    the world with a [Transform]): each field of
    its [Transform] takes the value of its [DragFloat] if that one changed;
    Load replaces the texture of its [Sprite] when the path is not empty;
    Add Sprite Component is offered only when it has no [Sprite] and then
    adds a fresh one; its [Velocity], the other entities, the selection,
    the score and the play flag are as before. *)
Theorem inspector_edits_selected_entity (ii : Editor.InspectorInput)
    (ed : Editor.Editor2) (k : EntityId) (i : nat) (t : Transform) :
  Editor.selected ed = Some k ->
  position k (all (Editor.world ed)) = Some i ->
  component_at Transform i (Editor.world ed) = Some t ->
  let ed' := Editor.uiInspector texman_load ii ed in
  component_at Transform i (Editor.world ed')
  = Some {| x := dragged (Editor.drag_X ii) (x t); y := dragged (Editor.drag_Y ii) (y t);
            w := dragged (Editor.drag_W ii) (w t); h := dragged (Editor.drag_H ii) (h t);
            angle := angle t |} /\
  component_at Sprite i (Editor.world ed')
  = match component_at Sprite i (Editor.world ed) with
    | Some s =>
        Some (if Editor.load_clicked ii && negb (String.eqb (Editor.path ii) "")
              then with_texture (texman_load (Editor.path ii)) s else s)
    | None => if Editor.add_sprite_clicked ii then Some fresh else None
    end /\
  component_at Velocity i (Editor.world ed') = component_at Velocity i (Editor.world ed) /\
  edited_at i (Editor.world ed) (Editor.world ed') /\
  Editor.selected ed' = Editor.selected ed /\ Editor.score ed' = Editor.score ed /\
  Editor.playing ed' = Editor.playing ed.
Proof.
  intros Hsel Hpos Ht ed'. subst ed'. unfold Editor.uiInspector.
  rewrite Hsel, Hpos. cbv zeta. rewrite Ht.
  cbn [Editor.world Editor.with_world Editor.selected Editor.score Editor.playing].
  set (wd0 := Editor.world ed) in *.
  destruct (drag_float_spec (Editor.drag_X ii) with_x i wd0) as (T1 & S1 & V1 & E1).
  set (wd1 := Editor.drag_float (Editor.drag_X ii) with_x i wd0) in *.
  destruct (drag_float_spec (Editor.drag_Y ii) with_y i wd1) as (T2 & S2 & V2 & E2).
  set (wd2 := Editor.drag_float (Editor.drag_Y ii) with_y i wd1) in *.
  destruct (drag_float_spec (Editor.drag_W ii) with_w i wd2) as (T3 & S3 & V3 & E3).
  set (wd3 := Editor.drag_float (Editor.drag_W ii) with_w i wd2) in *.
  destruct (drag_float_spec (Editor.drag_H ii) with_h i wd3) as (T4 & S4 & V4 & E4).
  set (wd4 := Editor.drag_float (Editor.drag_H ii) with_h i wd3) in *.
  assert (component_at Transform i wd4
          = Some {| x := dragged (Editor.drag_X ii) (x t);
                    y := dragged (Editor.drag_Y ii) (y t);
                    w := dragged (Editor.drag_W ii) (w t);
                    h := dragged (Editor.drag_H ii) (h t); angle := angle t |}) as T.
  { rewrite T4, T3, T2, T1, Ht. cbn [fmap option_fmap option_map]. f_equal.
    destruct t as [tx ty tw th ta].
    by destruct (Editor.drag_X ii), (Editor.drag_Y ii), (Editor.drag_W ii),
         (Editor.drag_H ii). }
  assert (component_at Sprite i wd4 = component_at Sprite i wd0) as S by congruence.
  assert (component_at Velocity i wd4 = component_at Velocity i wd0) as V by congruence.
  assert (edited_at i wd0 wd4) as E by eauto using edited_at_trans.
  rewrite S.
  destruct (component_at Sprite i wd0) as [s|] eqn:Es.
  - destruct (Editor.load_clicked ii); cbn [andb]; [|done].
    destruct (String.eqb (Editor.path ii) ""); cbn [negb]; [done|].
    split; [by rewrite component_at_write_other by apply unrelated_Sprite_Transform|].
    split; [by rewrite component_at_write, S|].
    split; [by rewrite component_at_write_other by apply unrelated_Sprite_Velocity|].
    split; [|done]. eapply edited_at_trans; [exact E|]. by apply edited_at_write.
  - destruct (Editor.add_sprite_clicked ii); [|done].
    split; [by rewrite component_at_add_other by apply unrelated_Sprite_Transform|].
    split.
    { rewrite component_at_add. unfold component_at in S.
      destruct (all wd4 !! i) as [e4|] eqn:E4'.
      - simpl in S. by rewrite S.
      - unfold component_at in T. by rewrite E4' in T. }
    split; [by rewrite component_at_add_other by apply unrelated_Sprite_Velocity|].
    split; [|done]. eapply edited_at_trans; [exact E|]. by apply edited_at_write.
Qed.

End Inspector.

(** ** The viewport panel: dragging and picking *)

Lemma contains_under (tr : Transform) (sp : Q * Q) :
  Editor.contains tr sp = true <-> covers tr sp.
Proof.
  unfold Editor.contains, covers. rewrite !andb_true_iff, !Qle_bool_iff. tauto.
Qed.

Lemma pick_first (sp : Q * Q) (l : list Entity) :
  match Editor.pick sp l with
  | Some k =>
      exists i e tr,
        l !! i = Some e /\ id e = k /\ getComponent Transform e = Some tr /\
        covers tr sp /\
        forall j e' tr', (j < i)%nat -> l !! j = Some e' ->
                         getComponent Transform e' = Some tr' -> ~ covers tr' sp
  | None =>
      forall j e' tr', l !! j = Some e' -> getComponent Transform e' = Some tr' ->
                       ~ covers tr' sp
  end.
Proof.
  induction l as [|e l IH]; cbn [Editor.pick]; [by intros []|].
  destruct (getComponent Transform e) as [tr|] eqn:Et;
    [destruct (Editor.contains tr sp) eqn:Ec|].
  - exists O, e, tr. split; [done|]. split; [done|]. split; [done|].
    split; [by apply contains_under|]. intros j e' tr' Hj. lia.
  - assert (~ covers tr sp) as Hnot.
    { rewrite <- contains_under. by rewrite Ec. }
    destruct (Editor.pick sp l) as [k|].
    + destruct IH as (i & e1 & tr1 & Hi & Hk & Ht & Hu & Hfirst).
      exists (S i), e1, tr1. split; [done|]. split; [done|]. split; [done|].
      split; [done|].
      intros [|j] e' tr' Hj He' Ht'.
      * injection He' as <-. rewrite Et in Ht'. by injection Ht' as <-.
      * apply (Hfirst j e' tr'); [lia|done|done].
    + intros [|j] e' tr' He' Ht'.
      * injection He' as <-. rewrite Et in Ht'. by injection Ht' as <-.
      * by apply (IH j e' tr').
  - destruct (Editor.pick sp l) as [k|].
    + destruct IH as (i & e1 & tr1 & Hi & Hk & Ht & Hu & Hfirst).
      exists (S i), e1, tr1. split; [done|]. split; [done|]. split; [done|].
      split; [done|].
      intros [|j] e' tr' Hj He' Ht'.
      * injection He' as <-. congruence.
      * apply (Hfirst j e' tr'); [lia|done|done].
    + intros [|j] e' tr' He' Ht'.
      * injection He' as <-. congruence.
      * by apply (IH j e' tr').
Qed.

Section Viewport.
Variable cfg : EngineConfig.
Variable slot : Slot.
Variable texman_load : string -> Texture.

Lemma uiViewport_drag (p s mp : Q * Q) (g : Rng) (ed : Editor.Editor2) :
  ~ (s.1 == 0)%Q -> ~ (s.2 == 0)%Q ->
  Editor.uiViewport cfg slot texman_load (ui_drag p s mp) g ed
  = Some (Editor.drag_to
            (((mp.1 - p.1) * inject_Z (width cfg) / s.1)%Q,
             ((mp.2 - p.2) * inject_Z (height cfg) / s.2)%Q) ed, g).
Proof.
  intros H1 H2. unfold Editor.uiViewport, ui_drag, Editor.screen_to_world.
  cbn [Editor.play_clicked Editor.spawn_clicked Editor.dragging Editor.item_min
       Editor.item_size mbind option_bind].
  rewrite !fdiv_nonzero by done. reflexivity.
Qed.

(** X24. Dragging in a viewport item of non-zero size with an entity
    selected (one of the world, with a [Transform]) puts the
    centre of its rectangle at the world point under the pointer,
    [(mp - p) * (width, height) / s]; its size, angle, [Sprite] and
    [Velocity], the other entities and the selection are as before. *)
Theorem drag_centres_selected_entity (p s mp : Q * Q) (g : Rng) (ed : Editor.Editor2)
    (k : EntityId) (i : nat) (tr : Transform) :
  ~ (s.1 == 0)%Q -> ~ (s.2 == 0)%Q ->
  Editor.selected ed = Some k ->
  position k (all (Editor.world ed)) = Some i ->
  component_at Transform i (Editor.world ed) = Some tr ->
  exists ed' tr',
    Editor.uiViewport cfg slot texman_load (ui_drag p s mp) g ed = Some (ed', g) /\
    component_at Transform i (Editor.world ed') = Some tr' /\
    (x tr' + w tr' / 2 == (mp.1 - p.1) * inject_Z (width cfg) / s.1)%Q /\
    (y tr' + h tr' / 2 == (mp.2 - p.2) * inject_Z (height cfg) / s.2)%Q /\
    size_of tr' = size_of tr /\ angle tr' = angle tr /\
    component_at Sprite i (Editor.world ed') = component_at Sprite i (Editor.world ed) /\
    component_at Velocity i (Editor.world ed')
    = component_at Velocity i (Editor.world ed) /\
    edited_at i (Editor.world ed) (Editor.world ed') /\
    Editor.selected ed' = Some k /\ Editor.score ed' = Editor.score ed /\
    Editor.playing ed' = Editor.playing ed.
Proof.
  intros H1 H2 Hsel Hpos Ht. rewrite uiViewport_drag by done.
  eexists _, _. split; [reflexivity|].
  unfold Editor.drag_to. rewrite Hsel, Hpos. cbv zeta.
  cbn [Editor.world Editor.with_world Editor.selected Editor.score Editor.playing].
  split; [by rewrite !component_at_write, Ht|]. cbn [x y w h angle with_x with_y fst snd].
  set (X := ((mp.1 - p.1) * inject_Z (width cfg) / s.1)%Q).
  set (Y := ((mp.2 - p.2) * inject_Z (height cfg) / s.2)%Q).
  split; [field|]. split; [field|]. split; [done|]. split; [done|].
  split; [by rewrite !component_at_write_other by apply unrelated_Transform_Sprite|].
  split; [by rewrite !component_at_write_other by apply unrelated_Transform_Velocity|].
  split; [|done].
  eapply edited_at_trans; by apply edited_at_write.
Qed.

(** X25. Dragging in a viewport item of non-zero size with nothing
    selected changes no
    entity: it selects the first entity, in iteration order, whose
    rectangle (borders included) holds the world point under the pointer,
    and selects nothing when there is none. *)
Theorem drag_picks_first_entity_under_pointer (p s mp : Q * Q) (g : Rng)
    (ed : Editor.Editor2) :
  ~ (s.1 == 0)%Q -> ~ (s.2 == 0)%Q ->
  Editor.selected ed = None ->
  let sp := (((mp.1 - p.1) * inject_Z (width cfg) / s.1)%Q,
             ((mp.2 - p.2) * inject_Z (height cfg) / s.2)%Q) in
  exists ed',
    Editor.uiViewport cfg slot texman_load (ui_drag p s mp) g ed = Some (ed', g) /\
    Editor.world ed' = Editor.world ed /\ Editor.score ed' = Editor.score ed /\
    Editor.playing ed' = Editor.playing ed /\
    match Editor.selected ed' with
    | Some k =>
        exists i e tr,
          all (Editor.world ed) !! i = Some e /\ id e = k /\
          getComponent Transform e = Some tr /\ covers tr sp /\
          forall j e' tr', (j < i)%nat -> all (Editor.world ed) !! j = Some e' ->
                           getComponent Transform e' = Some tr' -> ~ covers tr' sp
    | None =>
        forall j e' tr', all (Editor.world ed) !! j = Some e' ->
                         getComponent Transform e' = Some tr' -> ~ covers tr' sp
    end.
Proof.
  intros H1 H2 Hsel sp. rewrite uiViewport_drag by done. fold sp.
  eexists. split; [reflexivity|]. unfold Editor.drag_to. rewrite Hsel.
  pose proof (pick_first sp (all (Editor.world ed))) as Hpick.
  destruct (Editor.pick sp (all (Editor.world ed))) as [k|];
    cbn [Editor.world Editor.selected Editor.score Editor.playing Editor.with_selected].
  - by repeat split.
  - rewrite Hsel. by repeat split.
Qed.

End Viewport.

(** ** Keyboard events of the editor *)

Lemma when_set_first_velocity (b : bool) (f : Velocity -> Velocity) (ed : Editor.Editor2)
    (v : Velocity) :
  component_at Velocity 0 (Editor.world ed) = Some v ->
  exists ed',
    Editor.when b (Editor.set_first_velocity f) ed = Some ed' /\
    component_at Velocity 0 (Editor.world ed') = Some (if b then f v else v) /\
    component_at Transform 0 (Editor.world ed') = component_at Transform 0 (Editor.world ed) /\
    component_at Sprite 0 (Editor.world ed') = component_at Sprite 0 (Editor.world ed) /\
    edited_at 0 (Editor.world ed) (Editor.world ed') /\
    Editor.selected ed' = Editor.selected ed /\ Editor.score ed' = Editor.score ed /\
    Editor.playing ed' = Editor.playing ed.
Proof.
  intros Hv. destruct b; cbn [Editor.when].
  - unfold Editor.set_first_velocity. rewrite Hv. cbn [mbind option_bind].
    eexists. split; [reflexivity|].
    cbn [Editor.world Editor.with_world Editor.selected Editor.score Editor.playing].
    split; [by rewrite component_at_write, Hv|].
    split; [by apply component_at_write_other, unrelated_Velocity_Transform|].
    split; [by apply component_at_write_other, unrelated_Velocity_Sprite|].
    split; [by apply edited_at_write|done].
  - exists ed. split; [done|]. split; [done|]. split; [done|]. split; [done|].
    split; [apply edited_at_refl|done].
Qed.

(** X26. The key handlers of the editor's [main]. While paused they do
    nothing. While playing, with no [Velocity] on [all()[0]] (or no entity at
    all) every W, A, S or D event goes through a null pointer; with one, key down sets [vy] to
    -200 (W) or 200 (S) or [vx] to -200 (A) or 200 (D), and key up zeroes
    [vy] (W or S) or [vx] (A or D), whichever key of the pair went down;
    nothing but that velocity changes. *)
Theorem key_events_steer_first_entity (sym : Editor.Keycode) (ed : Editor.Editor2) :
  (Editor.playing ed = false ->
   Editor.on_keydown sym ed = Some ed /\ Editor.on_keyup sym ed = Some ed) /\
  (Editor.playing ed = true -> component_at Velocity 0 (Editor.world ed) = None ->
   sym <> Editor.SDLK_other ->
   Editor.on_keydown sym ed = None /\ Editor.on_keyup sym ed = None) /\
  (forall v, Editor.playing ed = true ->
     component_at Velocity 0 (Editor.world ed) = Some v ->
     exists down up,
       Editor.on_keydown sym ed = Some down /\
       component_at Velocity 0 (Editor.world down) = Some (after_keydown sym v) /\
       Editor.on_keyup sym down = Some up /\
       component_at Velocity 0 (Editor.world up)
       = Some (after_keyup sym (after_keydown sym v)) /\
       component_at Transform 0 (Editor.world up)
       = component_at Transform 0 (Editor.world ed) /\
       edited_at 0 (Editor.world ed) (Editor.world up) /\
       Editor.selected up = Editor.selected ed /\ Editor.score up = Editor.score ed /\
       Editor.playing up = true).
Proof.
  split; [|split].
  - intros Hp. unfold Editor.on_keydown, Editor.on_keyup. by rewrite Hp.
  - intros Hp Hv Hsym. unfold Editor.on_keydown, Editor.on_keyup. rewrite Hp.
    unfold Editor.set_first_velocity.
    destruct sym; cbn [Editor.is_key Editor.when orb mbind option_bind];
      rewrite ?Hv; cbn [mbind option_bind]; done.
  - intros v Hp Hv. unfold Editor.on_keydown. rewrite Hp.
    destruct (when_set_first_velocity (Editor.is_key sym Editor.SDLK_w) (with_vy (-200)) ed v Hv)
      as (ed1 & -> & V1 & T1 & _ & E1 & Se1 & Sc1 & P1). cbn [mbind option_bind].
    destruct (when_set_first_velocity (Editor.is_key sym Editor.SDLK_s) (with_vy 200) ed1 _ V1)
      as (ed2 & -> & V2 & T2 & _ & E2 & Se2 & Sc2 & P2). cbn [mbind option_bind].
    destruct (when_set_first_velocity (Editor.is_key sym Editor.SDLK_a) (with_vx (-200)) ed2 _ V2)
      as (ed3 & -> & V3 & T3 & _ & E3 & Se3 & Sc3 & P3). cbn [mbind option_bind].
    destruct (when_set_first_velocity (Editor.is_key sym Editor.SDLK_d) (with_vx 200) ed3 _ V3)
      as (ed4 & -> & V4 & T4 & _ & E4 & Se4 & Sc4 & P4).
    assert (Editor.playing ed4 = true) as Hp4 by congruence.
    destruct (when_set_first_velocity
                (Editor.is_key sym Editor.SDLK_w || Editor.is_key sym Editor.SDLK_s)
                (with_vy 0) ed4 _ V4)
      as (ed5 & E5' & V5 & T5 & _ & E5 & Se5 & Sc5 & P5).
    destruct (when_set_first_velocity
                (Editor.is_key sym Editor.SDLK_a || Editor.is_key sym Editor.SDLK_d)
                (with_vx 0) ed5 _ V5)
      as (ed6 & E6' & V6 & T6 & _ & E6 & Se6 & Sc6 & P6).
    assert (Editor.on_keyup sym ed4 = Some ed6) as Hup.
    { unfold Editor.on_keyup. rewrite Hp4, E5'. cbn [mbind option_bind]. exact E6'. }
    exists ed4, ed6. split; [reflexivity|].
    split; [rewrite V4; by destruct sym|].
    split; [exact Hup|].
    split; [rewrite V6; by destruct sym|].
    split; [congruence|].
    split; [eauto 10 using edited_at_trans|].
    repeat split; congruence.
Qed.

(** ** Scenes that cannot be built *)

Section SceneBuilders.
Variable cfg : EngineConfig.
Variable slot : Slot.
Variable texman_load : string -> Texture.

Lemma rand_below_cases (n : Z) (g : Rng) :
  (n = 0 /\ rand_below n g = None) \/
  (n <> 0 /\ rand_below n g = Some (Z.rem (draws g (cursor g)) n,
                                    {| draws := draws g; cursor := S (cursor g) |})).
Proof.
  destruct (Z.eq_dec n 0) as [->|Hn]; [by left|]. right. split; [done|].
  by apply rand_below_nonzero.
Qed.

(** X19. [spawnDemoScene] fails, by [rand() % 0], exactly in a world of
    width or height 32 or 48; the engine's scene set-up in [main] exactly
    for width or height 32 or 64. *)
Theorem scene_builders_divide_by_zero (g : Rng) (ed : Editor.Editor2) :
  (Editor.spawnDemoScene cfg slot texman_load g ed = None <->
   width cfg = 32 \/ height cfg = 32 \/ width cfg = 48 \/ height cfg = 48) /\
  (Engine.setup cfg slot texman_load g = None <->
   width cfg = 32 \/ height cfg = 32 \/ width cfg = 64 \/ height cfg = 64).
Proof.
  split.
  - unfold Editor.spawnDemoScene.
    rewrite (createEntity_fresh slot World0) by constructor.
    cbv beta iota zeta.
    rewrite !at_entity_inserted by apply Nat.le_min_r.
    fresh_create slot.
    destruct (rand_below_cases (width cfg - 32) g) as [[H1 ->]|[H1 ->]];
      [split; [intros _; lia|done]|].
    cbn [mbind option_bind]; cbv beta iota zeta.
    rewrite !at_entity_inserted by apply Nat.le_min_r.
    match goal with |- context [rand_below (height cfg - 32) ?g1] =>
      destruct (rand_below_cases (height cfg - 32) g1) as [[H2 ->]|[H2 ->]] end;
      [split; [intros _; lia|done]|].
    cbn [mbind option_bind]; cbv beta iota zeta.
    rewrite !at_entity_inserted by apply Nat.le_min_r.
    fresh_create slot.
    match goal with |- context [rand_below (width cfg - 48) ?g1] =>
      destruct (rand_below_cases (width cfg - 48) g1) as [[H3 ->]|[H3 ->]] end;
      [split; [intros _; lia|done]|].
    cbn [mbind option_bind]; cbv beta iota zeta.
    rewrite !at_entity_inserted by apply Nat.le_min_r.
    match goal with |- context [rand_below (height cfg - 48) ?g1] =>
      destruct (rand_below_cases (height cfg - 48) g1) as [[H4 ->]|[H4 ->]] end;
      [split; [intros _; lia|done]|].
    cbn [mbind option_bind]. split; [discriminate|lia].
  - unfold Engine.setup.
    rewrite (createEntity_fresh slot World0) by constructor.
    cbv beta iota zeta.
    rewrite !at_entity_inserted by apply Nat.le_min_r.
    fresh_create slot.
    destruct (rand_below_cases (width cfg - 32) g) as [[H1 ->]|[H1 ->]];
      [split; [intros _; lia|done]|].
    cbn [mbind option_bind]; cbv beta iota zeta.
    rewrite !at_entity_inserted by apply Nat.le_min_r.
    match goal with |- context [rand_below (height cfg - 32) ?g1] =>
      destruct (rand_below_cases (height cfg - 32) g1) as [[H2 ->]|[H2 ->]] end;
      [split; [intros _; lia|done]|].
    cbn [mbind option_bind]; cbv beta iota zeta.
    rewrite !at_entity_inserted by apply Nat.le_min_r.
    fresh_create slot.
    match goal with |- context [rand_below (width cfg - 64) ?g1] =>
      destruct (rand_below_cases (width cfg - 64) g1) as [[H3 ->]|[H3 ->]] end;
      [split; [intros _; lia|done]|].
    cbn [mbind option_bind]; cbv beta iota zeta.
    rewrite !at_entity_inserted by apply Nat.le_min_r.
    match goal with |- context [rand_below (height cfg - 64) ?g1] =>
      destruct (rand_below_cases (height cfg - 64) g1) as [[H4 ->]|[H4 ->]] end;
      [split; [intros _; lia|done]|].
    cbn [mbind option_bind]. split; [discriminate|lia].
Qed.

End SceneBuilders.

(** ** Instances of the properties *)

Lemma editor_ok_scene (r1 r2 r3 r4 : Z) (sel : option EntityId) :
  match sel with Some k => k ∈ [3; 2; 1] | None => True end ->
  editor_ok (Editor.with_selected sel (scene r1 r2 r3 r4)).
Proof.
  intros Hsel. unfold editor_ok, world_ok, keys_of. cbn.
  split; [split; [|split; [|lia]]|split; [|exact Hsel]].
  - repeat (apply NoDup_cons; split; [rewrite ?elem_of_cons, elem_of_nil; lia|]).
    apply NoDup_nil_2.
  - repeat constructor; lia.
  - repeat constructor; by eexists.
Qed.

Lemma editor_ok_empty : editor_ok Editor2_0.
Proof.
  unfold editor_ok, world_ok, keys_of. cbn.
  split; [split; [constructor|split; [constructor|lia]]|split; [constructor|done]].
Qed.

Lemma update_only_moves_entities_witness :
  exists ed' g',
    Editor.update Editor.main_cfg sqrt_approx (1 # 60) (replay []) (scene 0 0 700 336)
    = Some (ed', g') /\
    keys_of (Editor.world ed') = keys_of (Editor.world (scene 0 0 700 336)).
Proof.
  eexists _, _. split; [vm_compute; reflexivity|].
  eapply proj1, (update_only_moves_entities Editor.main_cfg sqrt_approx (1 # 60)
                   (replay []) _ (scene 0 0 700 336)).
  vm_compute. reflexivity.
Defined.

Lemma update_succeeds_unless_modulus_zero_witness :
  is_Some (Editor.update Editor.main_cfg sqrt_approx (1 # 60) (replay [])
             (scene 0 0 700 336)).
Proof.
  apply update_succeeds_unless_modulus_zero.
  - repeat constructor; intros _; by eexists.
  - intros [|[|[|i]]] tr; vm_compute; intros [= <-]; split; discriminate.
Defined.

Lemma pickup_divides_by_zero_at_world_size_witness :
  Editor.pickup Editor.main_cfg 0 1 (replay []) wide_target = None.
Proof.
  eapply (pickup_divides_by_zero_at_world_size Editor.main_cfg 0 1).
  - reflexivity.
  - reflexivity.
  - vm_compute. reflexivity.
  - left. vm_compute. reflexivity.
Defined.

Lemma editor_frame_keeps_scene_sound_witness :
  exists st' g',
    Editor.frame_ui Editor.main_cfg sqrt_approx newest_first no_textures
      [Editor.SDL_other] (1 # 60) hierarchy_add Editor.inspector_idle
      (Editor.ui_spawn (0%Q, 0%Q) (640%Q, 360%Q)) (replay [0; 0; 700; 336])
      (true, Editor2_0) = Some (st', g') /\
    editor_ok st'.2.
Proof.
  eexists _, _. split; [vm_compute; reflexivity|].
  eapply proj1, (editor_frame_keeps_scene_sound Editor.main_cfg sqrt_approx newest_first no_textures
                   [Editor.SDL_other] (1 # 60) hierarchy_add Editor.inspector_idle
                   (Editor.ui_spawn (0%Q, 0%Q) (640%Q, 360%Q)) (replay [0; 0; 700; 336])
                   _ (true, Editor2_0)).
  - vm_compute. reflexivity.
  - cbn. lia.
  - apply editor_ok_empty.
Defined.

Lemma hierarchy_add_entity_witness :
  entity_with 1 (Editor.world (Editor.uiHierarchy newest_first hierarchy_add Editor2_0))
  = Some (added_entity 1).
Proof.
  eapply proj1, (hierarchy_add_entity newest_first hierarchy_add Editor2_0).
  - apply editor_ok_empty.
  - cbn. lia.
  - reflexivity.
  - reflexivity.
  - reflexivity.
Defined.

Lemma hierarchy_delete_selected_witness :
  entity_with 2
    (Editor.world
       (Editor.uiHierarchy newest_first hierarchy_delete
          (Editor.with_selected (Some 2) (scene 0 0 700 336)))) = None.
Proof.
  eapply proj1, proj2,
    (hierarchy_delete_selected newest_first hierarchy_delete
       (Editor.with_selected (Some 2) (scene 0 0 700 336)) 2).
  - apply editor_ok_scene. rewrite !elem_of_cons. auto.
  - reflexivity.
  - reflexivity.
  - reflexivity.
Defined.

Lemma inspector_edits_selected_entity_witness :
  component_at Transform 1
    (Editor.world
       (Editor.uiInspector no_textures
          {| Editor.drag_X := Some 10%Q; Editor.drag_Y := None; Editor.drag_W := None;
             Editor.drag_H := Some 40%Q; Editor.path := ""; Editor.load_clicked := true;
             Editor.add_sprite_clicked := false |}
          (Editor.with_selected (Some 2) (scene 0 0 700 336))))
  = Some {| x := 10; y := 0; w := 32; h := 40; angle := 0 |}.
Proof.
  exact (proj1 (inspector_edits_selected_entity no_textures
                  {| Editor.drag_X := Some 10%Q; Editor.drag_Y := None;
                     Editor.drag_W := None; Editor.drag_H := Some 40%Q;
                     Editor.path := ""; Editor.load_clicked := true;
                     Editor.add_sprite_clicked := false |}
                  (Editor.with_selected (Some 2) (scene 0 0 700 336)) 2 1
                  {| x := 0; y := 0; w := 32; h := 32; angle := 0 |}
                  eq_refl eq_refl eq_refl)).
Defined.

Lemma drag_centres_selected_entity_witness :
  exists ed' tr',
    Editor.uiViewport Editor.main_cfg newest_first no_textures
      (ui_drag (0%Q, 0%Q) (640%Q, 360%Q) (100%Q, 100%Q)) (replay [])
      (Editor.with_selected (Some 2) (scene 0 0 700 336)) = Some (ed', replay []) /\
    component_at Transform 1 (Editor.world ed') = Some tr' /\
    (x tr' + w tr' / 2 == 200)%Q.
Proof.
  destruct (drag_centres_selected_entity Editor.main_cfg newest_first no_textures
              (0%Q, 0%Q) (640%Q, 360%Q) (100%Q, 100%Q) (replay [])
              (Editor.with_selected (Some 2) (scene 0 0 700 336)) 2 1
              {| x := 0; y := 0; w := 32; h := 32; angle := 0 |})
    as (ed' & tr' & E & Ht & Hx & _).
  - cbn. discriminate.
  - cbn. discriminate.
  - reflexivity.
  - reflexivity.
  - reflexivity.
  - exists ed', tr'. split; [exact E|]. split; [exact Ht|].
    rewrite Hx. vm_compute. reflexivity.
Defined.

Lemma drag_picks_first_entity_under_pointer_witness :
  exists ed',
    Editor.uiViewport Editor.main_cfg newest_first no_textures
      (ui_drag (0%Q, 0%Q) (640%Q, 360%Q) (8%Q, 8%Q)) (replay []) (scene 0 0 700 336)
    = Some (ed', replay []) /\
    Editor.world ed' = Editor.world (scene 0 0 700 336).
Proof.
  destruct (drag_picks_first_entity_under_pointer Editor.main_cfg newest_first no_textures
              (0%Q, 0%Q) (640%Q, 360%Q) (8%Q, 8%Q) (replay []) (scene 0 0 700 336))
    as (ed' & E & Hw & _).
  - cbn. discriminate.
  - cbn. discriminate.
  - reflexivity.
  - exists ed'. split; [exact E|exact Hw].
Defined.
